(** * The keyword taxonomy engine of the SEO copilot

    A shallow embedding of the keyword engine of
    [components/KeywordGenerator.tsx]: the tree builder
    ([transformToRenderableMap]), the cascading selection
    ([handleSelectionChange] with [findNodeById], [getParentId],
    [getChildren]), the LSI merge of [handleGenerateLsi], the filtered
    view ([filteredKeywordMap]) and the save path
    ([handleSaveSubProject], [isSaveDisabled]).

    Modelling conventions.
    - A JavaScript string is the [string] of its UTF-8 bytes; template
      literals are concatenations; an array index printed by a template
      literal is its decimal numeral.
    - [Record<string, boolean>] and [Record<string, string>] objects
      are [gmap string _]; a property read [o[k]] that is used as a
      condition is the truthiness of the looked-up value. The answer
      of the translation service is read under the texts of the
      nodes, which the service of generation chooses: that read also
      finds what [Object.prototype] has ([propertyRead]).
    - The filter is also given over a store of objects ([Heap]), where
      what it writes and what it leaves alone can be told apart.
    - Arrays are lists; [forEach] loops that push to an array or add to
      a [Set] are left folds over an explicit accumulator.
    - The recursive closures [cascadeDown] and [cascadeUp] take fuel and
      return [None] when it runs out.
    - White space is what [trim] and the class [\s] take for it: the
      twenty-five characters of [Str.whiteSpace], each as its UTF-8
      bytes.
    - The answers of the generation service and of the persistence
      service, and the readings of the clock, are arguments. *)

From Stdlib Require Import Strings.String Strings.Ascii.
From Stdlib Require Import Numbers.DecimalString Numbers.DecimalNat.
From stdpp Require Import gmap strings list fin_maps.


(** ** Strings *)

Module Str.

(** [`${n}`] for an array index [n]. *)
Definition dec (n : nat) : string := NilEmpty.string_of_uint (Nat.to_uint n).

(** [s.split(c)] for a one-character separator. *)
Fixpoint split (sep : ascii) (s : string) : list string :=
  match s with
  | EmptyString => [EmptyString]
  | String c s' =>
      if Ascii.eqb c sep then EmptyString :: split sep s'
      else match split sep s' with
           | p :: ps => String c p :: ps
           | [] => [String c EmptyString]
           end
  end.

(** [parts.join(sep)]. *)
Definition join (sep : string) (parts : list string) : string :=
  String.concat sep parts.

(** [s.startsWith(p)]. *)
Definition startsWith (s p : string) : bool := String.prefix p s.

(** Truthiness of a string: only the empty string is falsy. *)
Definition truthy (s : string) : bool :=
  match s with EmptyString => false | String _ _ => true end.

(** Does the character occur in the string? *)
Fixpoint occurs (c : ascii) (s : string) : bool :=
  match s with
  | EmptyString => false
  | String a s' => Ascii.eqb a c || occurs c s'
  end.

(** [\d]. *)
Definition is_digit (c : ascii) : bool :=
  let n := nat_of_ascii c in ((48 <=? n) && (n <=? 57))%nat.

(** The white space of [trim] and of the class [\s]: the characters
    WhiteSpace and LineTerminator of the language, as UTF-8 bytes.
    U+0009 to U+000D, U+0020, U+00A0, U+1680, U+2000 to U+200A, U+2028,
    U+2029, U+202F, U+205F, U+3000 and U+FEFF. *)
Definition bytes (codes : list nat) : string :=
  string_of_list_ascii (ascii_of_nat <$> codes).

Definition whiteSpace : list string :=
  [ bytes [9]; bytes [10]; bytes [11]; bytes [12]; bytes [13]; bytes [32];
    bytes [194; 160];
    bytes [225; 154; 128];
    bytes [226; 128; 128]; bytes [226; 128; 129]; bytes [226; 128; 130];
    bytes [226; 128; 131]; bytes [226; 128; 132]; bytes [226; 128; 133];
    bytes [226; 128; 134]; bytes [226; 128; 135]; bytes [226; 128; 136];
    bytes [226; 128; 137]; bytes [226; 128; 138];
    bytes [226; 128; 168]; bytes [226; 128; 169]; bytes [226; 128; 175];
    bytes [226; 129; 159];
    bytes [227; 128; 128];
    bytes [239; 187; 191] ].

(** The rest of [s] after the prefix [p], if [s] starts with [p]. *)
Fixpoint afterPrefix (p s : string) : option string :=
  match p, s with
  | EmptyString, _ => Some s
  | String a p', String b s' => if Ascii.eqb a b then afterPrefix p' s' else None
  | String _ _, EmptyString => None
  end.

(** The rest of [s] after one white-space character at its start. *)
Definition skipSpace (s : string) : option string :=
  foldr (fun w later =>
           match afterPrefix w s with
           | Some rest => Some rest
           | None => later
           end)
        None whiteSpace.

(** [s.trimStart()]: white-space characters are skipped while there
    are any; a string has no more of them than it has bytes. *)
Fixpoint trimStartWithin (n : nat) (s : string) : string :=
  match n with
  | O => s
  | S n' =>
      match skipSpace s with
      | Some rest => trimStartWithin n' rest
      | None => s
      end
  end.

Definition trimStart (s : string) : string := trimStartWithin (String.length s) s.

(** The string is made of white space only. *)
Definition allSpace (s : string) : bool :=
  match trimStart s with EmptyString => true | String _ _ => false end.

(** [s.trimEnd()]: the string is cut where what follows is white space
    only. *)
Fixpoint trimEnd (s : string) : string :=
  match s with
  | EmptyString => EmptyString
  | String c s' => if allSpace s then EmptyString else String c (trimEnd s')
  end.

(** [s.trim()]. *)
Definition trim (s : string) : string := trimEnd (trimStart s).

(** The strings that are white-space characters one after the other. *)
Inductive AllSpace : string → Prop :=
| AllSpace_nil : AllSpace EmptyString
| AllSpace_cons w r : w ∈ whiteSpace → AllSpace r → AllSpace (w +:+ r).

End Str.

Definition dash : ascii := "-"%char.

(** ** Data model (types.ts) *)

(** The raw generation result: [Level2Node], [Level1Node], [KeywordMap].
    [lsi] is optional at run time: the builder reads [l2.lsi || []]. *)
Record Level2Node := {
  raw2_keyword : string;
  raw2_type : string;
  raw2_lsi : option (list string) }.

Record Level1Node := {
  raw1_keyword : string;
  raw1_type : string;
  raw1_pageType : string;
  raw1_children : list Level2Node }.

Record KeywordMap := { keywordHierarchy : list Level1Node }.

(** The addressable tree: [RenderLsiNode], [RenderLevel2Node],
    [RenderLevel1Node]. [isNew?: boolean] is an optional field. *)
Record RenderLsiNode := {
  lsi_id : string;
  lsi_text : string;
  lsi_isNew : option bool }.

Record RenderLevel2Node := {
  l2_id : string;
  l2_keyword : string;
  l2_type : string;
  l2_lsi : list RenderLsiNode }.

Record RenderLevel1Node := {
  l1_id : string;
  l1_keyword : string;
  l1_type : string;
  l1_pageType : string;
  l1_children : list RenderLevel2Node }.

(** [SelectedKeywords = Record<string, boolean>]. *)
Abbreviation SelectedKeywords := (gmap string bool).

(** [selectedKeywords[id]] read as a condition. *)
Definition checked (sel : SelectedKeywords) (id : string) : bool :=
  match sel !! id with Some true => true | _ => false end.

(** ** Tree builder *)

Definition transformToRenderableMap (map : KeywordMap) : list RenderLevel1Node :=
  imap (fun i l1 =>
    {| l1_keyword := raw1_keyword l1;
       l1_type := raw1_type l1;
       l1_pageType := raw1_pageType l1;
       l1_id := "l1-" +:+ Str.dec i;
       l1_children :=
         imap (fun j l2 =>
           {| l2_keyword := raw2_keyword l2;
              l2_type := raw2_type l2;
              l2_id := "l1-" +:+ Str.dec i +:+ "-l2-" +:+ Str.dec j;
              l2_lsi :=
                imap (fun k lsiText =>
                  {| lsi_id := "l1-" +:+ Str.dec i +:+ "-l2-" +:+ Str.dec j
                                 +:+ "-lsi-" +:+ Str.dec k;
                     lsi_text := lsiText;
                     lsi_isNew := None |})
                  (default [] (raw2_lsi l2)) |})
           (raw1_children l1) |})
    (keywordHierarchy map).

(** ** Node lookup and parent recovery *)

(** What [findNodeById] returns; [isLevel1Node] and [isLevel2Node] test
    for the [children] and the [lsi] property. *)
Inductive Node :=
| NodeL1 (n : RenderLevel1Node)
| NodeL2 (n : RenderLevel2Node)
| NodeLsi (n : RenderLsiNode).

Definition isLevel1Node (n : Node) : bool :=
  match n with NodeL1 _ => true | _ => false end.

Definition isLevel2Node (n : Node) : bool :=
  match n with NodeL2 _ => true | _ => false end.

Definition find_in_lsi (id : string) (l : list RenderLsiNode) : option Node :=
  NodeLsi <$> List.find (fun x => String.eqb (lsi_id x) id) l.

Fixpoint find_in_children (id : string) (l : list RenderLevel2Node) : option Node :=
  match l with
  | [] => None
  | l2 :: rest =>
      if String.eqb (l2_id l2) id then Some (NodeL2 l2)
      else match find_in_lsi id (l2_lsi l2) with
           | Some n => Some n
           | None => find_in_children id rest
           end
  end.

Fixpoint find_in_tree (id : string) (t : list RenderLevel1Node) : option Node :=
  match t with
  | [] => None
  | l1 :: rest =>
      if String.eqb (l1_id l1) id then Some (NodeL1 l1)
      else match find_in_children id (l1_children l1) with
           | Some n => Some n
           | None => find_in_tree id rest
           end
  end.

(** [keywordMap] is [null] before the first generation. *)
Definition findNodeById (keywordMap : option (list RenderLevel1Node)) (id : string)
  : option Node :=
  match keywordMap with
  | None => None
  | Some t => find_in_tree id t
  end.

Definition getParentId (childId : string) : option string :=
  let parts := Str.split dash childId in
  if (length parts <=? 2)%nat then None
  else Some (Str.join "-" (take (length parts - 2) parts)).

Definition node_id (n : Node) : string :=
  match n with
  | NodeL1 l1 => l1_id l1
  | NodeL2 l2 => l2_id l2
  | NodeLsi x => lsi_id x
  end.

Definition getChildren (n : Node) : list Node :=
  match n with
  | NodeL1 l1 => NodeL2 <$> l1_children l1
  | NodeL2 l2 => NodeLsi <$> l2_lsi l2
  | NodeLsi _ => []
  end.

(** ** Selection state manager *)

Abbreviation Tree := (list RenderLevel1Node).

(** The closure [cascadeDown] of [handleSelectionChange]: it writes
    [isChecked] for the children of the node and recurses through
    [findNodeById] on each Level2 child. *)
Fixpoint cascadeDown (fuel : nat) (keywordMap : option Tree) (nodeId : string)
    (isChecked : bool) (newSelection : SelectedKeywords) : option SelectedKeywords :=
  match fuel with
  | O => None
  | S fuel' =>
      match findNodeById keywordMap nodeId with
      | None => Some newSelection
      | Some (NodeL1 node) =>
          foldl (fun acc child =>
                   acc ≫= fun sel =>
                     cascadeDown fuel' keywordMap (l2_id child) isChecked
                       (<[l2_id child := isChecked]> sel))
                (Some newSelection) (l1_children node)
      | Some (NodeL2 node) =>
          Some (foldl (fun sel lsi => <[lsi_id lsi := isChecked]> sel)
                      newSelection (l2_lsi node))
      | Some (NodeLsi _) => Some newSelection
      end
  end.

(** The closure [cascadeUp]: [if (!parentId) return] also stops at an
    empty parent identifier. *)
Fixpoint cascadeUp (fuel : nat) (keywordMap : option Tree) (nodeId : string)
    (newSelection : SelectedKeywords) : option SelectedKeywords :=
  match fuel with
  | O => None
  | S fuel' =>
      match getParentId nodeId with
      | None => Some newSelection
      | Some parentId =>
          if negb (Str.truthy parentId) then Some newSelection
          else
            match findNodeById keywordMap parentId with
            | None => Some newSelection
            | Some parentNode =>
                if negb (isLevel1Node parentNode || isLevel2Node parentNode)
                then Some newSelection
                else
                  let siblings := getChildren parentNode in
                  let allSiblingsChecked :=
                    forallb (fun s => checked newSelection (node_id s)) siblings in
                  cascadeUp fuel' keywordMap parentId
                    (if allSiblingsChecked
                     then <[parentId := true]> newSelection
                     else delete parentId newSelection)
            end
      end
  end.

(** The state updater passed to [setSelectedKeywords]. *)
Definition handleSelectionChange (fuel : nat) (keywordMap : option Tree)
    (id : string) (isChecked : bool) (prev : SelectedKeywords)
  : option SelectedKeywords :=
  cascadeDown fuel keywordMap id isChecked (<[id := isChecked]> prev) ≫= fun s1 =>
  cascadeUp fuel keywordMap id s1 ≫= fun s2 =>
  Some (filter (fun kv => kv.2 = true) s2).

(** The identifiers of a tree, in the order [findNodeById] visits them. *)
Definition l2_ids (l2 : RenderLevel2Node) : list string :=
  l2_id l2 :: (lsi_id <$> l2_lsi l2).

Definition l1_ids (l1 : RenderLevel1Node) : list string :=
  l1_id l1 :: concat (l2_ids <$> l1_children l1).

Definition tree_ids (t : Tree) : list string := concat (l1_ids <$> t).

(** The selection sets the component can hold over a fixed tree: the
    initial [{}] and whatever a toggle of a node of the tree returns. *)
Inductive reachable (t : Tree) : SelectedKeywords → Prop :=
| reachable_init : reachable t ∅
| reachable_toggle fuel id isChecked prev next :
    reachable t prev →
    id ∈ tree_ids t →
    handleSelectionChange fuel (Some t) id isChecked prev = Some next →
    reachable t next.

(** ** Augmentation merge *)

(** The update of one Level2 node inside the [setKeywordMap] updater of
    [handleGenerateLsi]. *)
Definition mergeLsi (l2 : RenderLevel2Node) (newLsis : list string) : RenderLevel2Node :=
  let existingLsiTexts : gset string := list_to_set (lsi_text <$> l2_lsi l2) in
  let uniqueNewLsis :=
    imap (fun index text =>
            {| lsi_id := l2_id l2 +:+ "-lsi-" +:+ Str.dec (length (l2_lsi l2) + index);
               lsi_text := text;
               lsi_isNew := Some true |})
         (List.filter (fun nl => negb (bool_decide (nl ∈ existingLsiTexts))) newLsis) in
  {| l2_id := l2_id l2;
     l2_keyword := l2_keyword l2;
     l2_type := l2_type l2;
     l2_lsi :=
       ((fun l => {| lsi_id := lsi_id l; lsi_text := lsi_text l; lsi_isNew := Some false |})
          <$> l2_lsi l2) ++ uniqueNewLsis |}.

(** The [setKeywordMap] updater. *)
Definition mergeIntoMap (level1NodeId level2NodeId : string) (newLsis : list string)
    (currentMap : option Tree) : option Tree :=
  match currentMap with
  | None => None
  | Some m =>
      Some ((fun l1 =>
               if negb (String.eqb (l1_id l1) level1NodeId) then l1
               else {| l1_id := l1_id l1;
                       l1_keyword := l1_keyword l1;
                       l1_type := l1_type l1;
                       l1_pageType := l1_pageType l1;
                       l1_children :=
                         (fun l2 =>
                            if negb (String.eqb (l2_id l2) level2NodeId) then l2
                            else mergeLsi l2 newLsis) <$> l1_children l1 |}) <$> m)
  end.

(** [handleGenerateLsi], with the answer of [generateLsiForNode] as the
    argument [newLsis]; the result is the next value of [keywordMap].
    [currentMap] is the state the updater finds when the answer arrives. *)
Definition handleGenerateLsi (keywordMap : option Tree) (generationModel : bool)
    (level1Node : RenderLevel1Node) (level2NodeId : string)
    (newLsis : list string) (currentMap : option Tree) : option Tree :=
  match List.find (fun c => String.eqb (l2_id c) level2NodeId) (l1_children level1Node),
        keywordMap, generationModel with
  | Some _, Some _, true =>
      mergeIntoMap (l1_id level1Node) level2NodeId newLsis currentMap
  | _, _, _ => currentMap
  end.

(** ** Filter view *)

Record FilterState := {
  category : string;
  pageType : string;
  userBehavior : string }.

Definition PAGE_TYPE_MAP : gmap string string :=
  list_to_map
    [ ("Product Detail Pages", "产品详情类");
      ("Article/Blog Pages", "文章类");
      ("Hub/Category Pages", "聚合类");
      ("产品详情类", "产品详情类");
      ("文章类", "文章类");
      ("聚合类", "聚合类") ].

Definition filteredKeywordMap (keywordMap : option Tree) (filters : FilterState)
  : option Tree :=
  match keywordMap with
  | None => None
  | Some m =>
      if negb (Str.truthy (category filters))
         && negb (Str.truthy (pageType filters))
         && negb (Str.truthy (userBehavior filters))
      then Some m
      else
        Some (List.filter
                (fun l1 =>
                   let categoryMatch :=
                     negb (Str.truthy (category filters))
                     || String.eqb (l1_type l1) (category filters) in
                   let pageTypeMatch :=
                     negb (Str.truthy (pageType filters))
                     || bool_decide (PAGE_TYPE_MAP !! l1_pageType l1 = Some (pageType filters)) in
                   let hasChildren := (0 <? length (l1_children l1))%nat in
                   categoryMatch && pageTypeMatch && hasChildren)
                ((fun l1 =>
                    let l1Children :=
                      if Str.truthy (userBehavior filters)
                      then List.filter
                             (fun l2 => Str.startsWith (l2_type l2) (userBehavior filters))
                             (l1_children l1)
                      else l1_children l1 in
                    {| l1_id := l1_id l1;
                       l1_keyword := l1_keyword l1;
                       l1_type := l1_type l1;
                       l1_pageType := l1_pageType l1;
                       l1_children := l1Children |}) <$> m))
  end.

Definition noFilters : FilterState :=
  {| category := ""; pageType := ""; userBehavior := "" |}.

(** *** The filter over the store

    The same [useMemo], with the objects it reads and makes: the tree
    is an array of references to Level1 objects, each with a reference
    to the array of its Level2 children; [map], [filter] and the spread
    [{ ...l1, children }] make new arrays and objects. A read that does
    not find what the code reads there ends the run ([None]). *)

Module Heap.

Inductive Obj :=
| Arr (items : list nat)        (* an array of references *)
| L1 (id keyword type pageType : string) (children : nat)
                                (* a Level1 node and the reference to its children *)
| L2 (node : RenderLevel2Node)  (* a Level2 node, with its terms *)
| Sel (s : SelectedKeywords).   (* the selection *)

Abbreviation Store := (gmap nat Obj).

(** A new object, at a reference that is not in use. *)
Definition alloc (o : Obj) (h : Store) : Store * nat :=
  let l := fresh (dom h) in (<[l := o]> h, l).

(** The references [l1.children.filter(l2 => l2.type.startsWith(userBehavior))]
    keeps. *)
Fixpoint keepStage (userBehavior : string) (h : Store) (items : list nat)
  : option (list nat) :=
  match items with
  | [] => Some []
  | l :: rest =>
      match h !! l, keepStage userBehavior h rest with
      | Some (L2 node), Some kept =>
          Some (if Str.startsWith (l2_type node) userBehavior then l :: kept else kept)
      | _, _ => None
      end
  end.

(** The callback of [map]: [{ ...l1, children: l1Children }]. *)
Definition copyLevel1 (userBehavior : string) (h : Store) (l : nat)
  : option (Store * nat) :=
  match h !! l with
  | Some (L1 id keyword type pageType children) =>
      if Str.truthy userBehavior then
        match h !! children with
        | Some (Arr items) =>
            match keepStage userBehavior h items with
            | Some kept =>
                let '(h1, l1Children) := alloc (Arr kept) h in
                Some (alloc (L1 id keyword type pageType l1Children) h1)
            | None => None
            end
        | _ => None
        end
      else Some (alloc (L1 id keyword type pageType children) h)
  | _ => None
  end.

Fixpoint mapLevel1 (userBehavior : string) (h : Store) (items : list nat)
  : option (Store * list nat) :=
  match items with
  | [] => Some (h, [])
  | l :: rest =>
      match copyLevel1 userBehavior h l with
      | Some (h1, copy) =>
          match mapLevel1 userBehavior h1 rest with
          | Some (h2, copies) => Some (h2, copy :: copies)
          | None => None
          end
      | None => None
      end
  end.

(** The references the final [filter] keeps. *)
Fixpoint keepLevel1 (category pageType : string) (h : Store) (items : list nat)
  : option (list nat) :=
  match items with
  | [] => Some []
  | l :: rest =>
      match h !! l with
      | Some (L1 id keyword type pt children) =>
          match h !! children, keepLevel1 category pageType h rest with
          | Some (Arr cs), Some kept =>
              let categoryMatch :=
                negb (Str.truthy category) || String.eqb type category in
              let pageTypeMatch :=
                negb (Str.truthy pageType)
                || bool_decide (PAGE_TYPE_MAP !! pt = Some pageType) in
              let hasChildren := (0 <? length cs)%nat in
              Some (if categoryMatch && pageTypeMatch && hasChildren
                    then l :: kept else kept)
          | _, _ => None
          end
      | _ => None
      end
  end.

(** [filteredKeywordMap]: the store after the run and the reference it
    returns ([null] for no tree). *)
Definition filteredKeywordMap (h : Store) (keywordMap : option nat)
    (filters : FilterState) : option (Store * option nat) :=
  match keywordMap with
  | None => Some (h, None)
  | Some km =>
      if negb (Str.truthy (category filters))
         && negb (Str.truthy (pageType filters))
         && negb (Str.truthy (userBehavior filters))
      then Some (h, Some km)
      else
        match h !! km with
        | Some (Arr items) =>
            match mapLevel1 (userBehavior filters) h items with
            | Some (h1, copies) =>
                let '(h2, mapped) := alloc (Arr copies) h1 in
                match keepLevel1 (category filters) (pageType filters) h2 copies with
                | Some kept =>
                    let '(h3, result) := alloc (Arr kept) h2 in
                    Some (h3, Some result)
                | None => None
                end
            | None => None
            end
        | _ => None
        end
  end.

(** What a reference stands for. *)

Definition reprLevel2s (h : Store) (cs : list nat) (l2s : list RenderLevel2Node) : Prop :=
  Forall2 (fun l node => h !! l = Some (L2 node)) cs l2s.

Definition reprLevel1 (h : Store) (l : nat) (l1 : RenderLevel1Node) : Prop :=
  ∃ c cs, h !! l = Some (L1 (l1_id l1) (l1_keyword l1) (l1_type l1) (l1_pageType l1) c)
          ∧ h !! c = Some (Arr cs)
          ∧ reprLevel2s h cs (l1_children l1).

Definition reprTree (h : Store) (l : nat) (t : Tree) : Prop :=
  ∃ ls, h !! l = Some (Arr ls) ∧ Forall2 (reprLevel1 h) ls t.

Definition reprView (h : Store) (r : option nat) (view : option Tree) : Prop :=
  match r, view with
  | Some l, Some t => reprTree h l t
  | None, None => True
  | _, _ => False
  end.

(** A store with a tree of one Level1 node and one Level2 node, and a
    selection. *)
Definition sampleLevel2 : RenderLevel2Node :=
  {| l2_id := "l1-0-l2-0"; l2_keyword := "A1"; l2_type := "认知型 (Awareness)";
     l2_lsi := [] |}.

Definition sampleStore : Store :=
  list_to_map
    [ (0, L2 sampleLevel2); (1, Arr [0]); (2, L1 "l1-0" "A" "引流型" "文章类" 1);
      (3, Arr [2]); (4, Sel (<["l1-0-l2-0" := true]> ∅)) ].

Definition sampleStored : Tree :=
  [ {| l1_id := "l1-0"; l1_keyword := "A"; l1_type := "引流型";
       l1_pageType := "文章类"; l1_children := [sampleLevel2] |} ].

End Heap.

(** ** Versioning and persistence adapter *)

(** *** The pattern [/\s\(Version \d+\)$/] *)

Module Regex.

Inductive Atom :=
| Space                      (* [\s]: one white-space character *)
| Lit (c : ascii)            (* one literal character *)
| Plus (p : ascii → bool)    (* [p+], greedy *)
| EndOfInput.                (* [$] *)

Fixpoint lits (s : string) : list Atom :=
  match s with
  | EmptyString => []
  | String c s' => Lit c :: lits s'
  end.

(** Matches the atoms at the start of [s]; the result is what follows
    the match. [Plus] takes as many characters as it can and gives
    them back one at a time. *)
Fixpoint match_here (re : list Atom) (s : string) : option string :=
  match re with
  | [] => Some s
  | Space :: re' =>
      match Str.skipSpace s with
      | Some s' => match_here re' s'
      | None => None
      end
  | Lit a :: re' =>
      match s with
      | String c s' => if Ascii.eqb c a then match_here re' s' else None
      | EmptyString => None
      end
  | Plus p :: re' =>
      (fix more (s : string) : option string :=
         match s with
         | String c s' =>
             if p c then
               match more s' with
               | Some r => Some r
               | None => match_here re' s'
               end
             else None
         | EmptyString => None
         end) s
  | EndOfInput :: re' =>
      match s with
      | EmptyString => match_here re' s
      | String _ _ => None
      end
  end.

(** [s.replace(re, '')] for a pattern without the [g] flag: the
    leftmost match is removed. *)
Fixpoint replace_first (re : list Atom) (s : string) : string :=
  match match_here re s with
  | Some rest => rest
  | None =>
      match s with
      | EmptyString => EmptyString
      | String c s' => String c (replace_first re s')
      end
  end.

End Regex.

Definition versionSuffix : list Regex.Atom :=
  Regex.Space :: Regex.lits "(Version "
    ++ [Regex.Plus Str.is_digit; Regex.Lit ")"%char; Regex.EndOfInput].

(** *** Records *)

Record SavedLsiNode := { saved_lsi_id : string; saved_lsi_text : string }.

Record SavedLevel2Node := {
  s2_id : string;
  s2_keyword : string;
  s2_type : string;
  s2_lsi : list SavedLsiNode }.

Record SavedLevel1Node := {
  s1_id : string;
  s1_keyword : string;
  s1_type : string;
  s1_pageType : string;
  s1_children : list SavedLevel2Node }.

Record KeywordSubProject := {
  sp_id : string;
  sp_name : string;
  sp_parentProjectId : string;
  sp_savedAt : string;
  sp_modelUsed : string;
  sp_keywords : list SavedLevel1Node;
  sp_translations : gmap string string }.

Record Project := {
  proj_id : string;
  proj_name : string;
  proj_createdAt : string;
  proj_updatedAt : string }.

(** *** Version naming (the "Versioning logic" block) *)

Definition baseNameOf (name : string) : string :=
  Str.trim (Regex.replace_first versionSuffix name).

Definition versionedName (keywordLibrary : list KeywordSubProject)
    (finalParentProjectId subProjectName : string) : string :=
  let finalSubProjectName := Str.trim subProjectName in
  let baseName := baseNameOf finalSubProjectName in
  let lineage :=
    List.filter
      (fun sp => String.eqb (sp_parentProjectId sp) finalParentProjectId
                 && String.eqb (baseNameOf (sp_name sp)) baseName)
      keywordLibrary in
  if existsb (fun sp => String.eqb (sp_name sp) finalSubProjectName) lineage
  then baseName +:+ " (Version " +:+ Str.dec (length lineage + 1) +:+ ")"
  else finalSubProjectName.

(** *** Pruning *)

(** [Set.prototype.add] on a set kept in insertion order. *)
Definition set_add (x : string) (s : list string) : list string :=
  if bool_decide (x ∈ s) then s else s ++ [x].

(** [Object.keys(selectedKeywords).some(key => key.startsWith(id))]. *)
Definition someKeyStartsWith (selectedKeywords : SelectedKeywords) (id : string) : bool :=
  existsb (fun key => Str.startsWith key id) (fst <$> map_to_list selectedKeywords).

(** The body of [l1.children.forEach]: the accumulator is
    [savedChildren] and [savedNodeIds]. *)
Definition pruneLevel2 (selectedKeywords : SelectedKeywords)
    (acc : list SavedLevel2Node * list string) (l2 : RenderLevel2Node)
  : list SavedLevel2Node * list string :=
  let '(savedChildren, savedNodeIds) := acc in
  if negb (someKeyStartsWith selectedKeywords (l2_id l2)) then acc
  else
    let kept := List.filter (fun lsi => checked selectedKeywords (lsi_id lsi)) (l2_lsi l2) in
    let savedNodeIds := foldl (fun s lsi => set_add (lsi_id lsi) s) savedNodeIds kept in
    let savedLsi :=
      (fun lsi => {| saved_lsi_id := lsi_id lsi; saved_lsi_text := lsi_text lsi |}) <$> kept in
    if checked selectedKeywords (l2_id l2) || (0 <? length savedLsi)%nat
    then (savedChildren ++ [ {| s2_id := l2_id l2;
                                s2_keyword := l2_keyword l2;
                                s2_type := l2_type l2;
                                s2_lsi := savedLsi |} ],
          set_add (l2_id l2) savedNodeIds)
    else (savedChildren, savedNodeIds).

(** The body of [keywordMap?.forEach]: the accumulator is
    [savedHierarchy] and [savedNodeIds]. *)
Definition pruneLevel1 (selectedKeywords : SelectedKeywords)
    (acc : list SavedLevel1Node * list string) (l1 : RenderLevel1Node)
  : list SavedLevel1Node * list string :=
  let '(savedHierarchy, savedNodeIds) := acc in
  if negb (someKeyStartsWith selectedKeywords (l1_id l1)) then acc
  else
    let '(savedChildren, savedNodeIds) :=
      foldl (pruneLevel2 selectedKeywords) ([], savedNodeIds) (l1_children l1) in
    if checked selectedKeywords (l1_id l1) || (0 <? length savedChildren)%nat
    then (savedHierarchy ++ [ {| s1_id := l1_id l1;
                                 s1_keyword := l1_keyword l1;
                                 s1_type := l1_type l1;
                                 s1_pageType := l1_pageType l1;
                                 s1_children := savedChildren |} ],
          set_add (l1_id l1) savedNodeIds)
    else (savedHierarchy, savedNodeIds).

Definition pruneHierarchy (keywordMap : option Tree) (selectedKeywords : SelectedKeywords)
  : list SavedLevel1Node * list string :=
  foldl (pruneLevel1 selectedKeywords) ([], []) (default [] keywordMap).

(** *** Translation restriction *)

Definition restrictTranslations (savedNodeIds : list string)
    (translations : gmap string string) : gmap string string :=
  foldl (fun savedTranslations nodeId =>
           match translations !! nodeId with
           | Some tr => if Str.truthy tr then <[nodeId := tr]> savedTranslations
                        else savedTranslations
           | None => savedTranslations
           end)
        ∅ savedNodeIds.

(** *** The save handler *)

(** What the handler reads: the component state, the context and the
    clock. [connected] is [supabase && session]; [userId] is
    [session.user.id]; [generationModel] is the nickname of the locked
    model, if any. *)
Record SaveState := {
  connected : bool;
  userId : string;
  parentProjectId : string;
  newParentProjectName : string;
  subProjectName : string;
  keywordLibrary : list KeywordSubProject;
  keywordMap : option Tree;
  selectedKeywords : SelectedKeywords;
  translations : gmap string string;
  generationModel : option string;
  projectNow : nat;
  projectIso : string;
  subProjectNow : nat;
  subProjectIso : string }.

(** The answers of the persistence service: for the insert into
    [projects] the [id] of the returned row or an error message, for
    the insert into [keyword_library] an error message if it fails. *)
Record Backend := {
  insertProject : Project → string + string;
  insertSubProject : KeywordSubProject → option string }.

(** What the handler does to the outside, in order. *)
Inductive Effect :=
| Alert (msg : string)
| InsertIntoProjects (p : Project) (user_id : string)
| InsertIntoKeywordLibrary (sp : KeywordSubProject) (user_id : string)
| FetchData
| ResetSaveForm.

Definition isPersistenceCall (e : Effect) : bool :=
  match e with
  | InsertIntoProjects _ _ | InsertIntoKeywordLibrary _ _ | FetchData => true
  | Alert _ | ResetSaveForm => false
  end.

Definition isAlert (e : Effect) : bool :=
  match e with Alert _ => true | _ => false end.

(** The handler from the name check on, once the parent project is
    known; [done] holds the effects so far. *)
Definition saveUnderParent (st : SaveState) (be : Backend)
    (finalParentProjectId : string) (done : list Effect) : list Effect :=
  if negb (Str.truthy (Str.trim (subProjectName st)))
     || negb (Str.truthy finalParentProjectId)
  then done ++ [Alert "请输入子项目名称并选择一个母项目。"]
  else
    let finalSubProjectName :=
      versionedName (keywordLibrary st) finalParentProjectId (subProjectName st) in
    let '(savedHierarchy, savedNodeIds) :=
      pruneHierarchy (keywordMap st) (selectedKeywords st) in
    if (length savedHierarchy =? 0)%nat
    then done ++ [Alert "没有选择要保存的关键词。"]
    else
      let savedTranslations := restrictTranslations savedNodeIds (translations st) in
      let newSubProject :=
        {| sp_id := "subproj-" +:+ Str.dec (subProjectNow st);
           sp_name := finalSubProjectName;
           sp_parentProjectId := finalParentProjectId;
           sp_savedAt := subProjectIso st;
           sp_modelUsed :=
             match generationModel st with
             | Some nickname => if Str.truthy nickname then nickname else "Unknown"
             | None => "Unknown"
             end;
           sp_keywords := savedHierarchy;
           sp_translations := savedTranslations |} in
      match insertSubProject be newSubProject with
      | Some message =>
          done ++ [InsertIntoKeywordLibrary newSubProject (userId st);
                   Alert ("保存失败: " +:+ message)]
      | None =>
          done ++ [InsertIntoKeywordLibrary newSubProject (userId st);
                   FetchData; ResetSaveForm; Alert "子项目保存成功！"]
      end.

(** The [newProject] of the "create new" flow. *)
Definition newProjectOf (st : SaveState) : Project :=
  {| proj_id := "proj-" +:+ Str.dec (projectNow st);
     proj_name := Str.trim (newParentProjectName st);
     proj_createdAt := projectIso st;
     proj_updatedAt := projectIso st |}.

Definition handleSaveSubProject (st : SaveState) (be : Backend) : list Effect :=
  if negb (connected st) then []
  else if String.eqb (parentProjectId st) "create_new" then
    if negb (Str.truthy (Str.trim (newParentProjectName st)))
    then [Alert "请输入新母项目的名称。"]
    else
      let newProject := newProjectOf st in
      match insertProject be newProject with
      | inr message =>
          [InsertIntoProjects newProject (userId st); Alert ("保存失败: " +:+ message)]
      | inl dataId =>
          saveUnderParent st be dataId [InsertIntoProjects newProject (userId st)]
      end
  else saveUnderParent st be (parentProjectId st) [].

Definition isSaveDisabled (st : SaveState) : bool :=
  if negb (Str.truthy (Str.trim (subProjectName st))) then true
  else if String.eqb (parentProjectId st) "create_new"
       then negb (Str.truthy (Str.trim (newParentProjectName st)))
       else negb (Str.truthy (parentProjectId st)).



(** ** Path-encoded identifiers *)

(** The identifier scheme: [l1-{i}], [{parentId}-l2-{j}],
    [{parentId}-lsi-{k}]. *)
Definition idL1 (i : nat) : string := "l1-" +:+ Str.dec i.
Definition idL2 (parentId : string) (j : nat) : string :=
  parentId +:+ "-l2-" +:+ Str.dec j.
Definition idLsi (parentId : string) (k : nat) : string :=
  parentId +:+ "-lsi-" +:+ Str.dec k.

(** A tree whose identifiers are the ones its positions give: what the
    tree builder produces and the augmentation merge preserves. *)
Definition wellAddressed (t : Tree) : bool :=
  forallb id
    (imap (fun i l1 =>
       String.eqb (l1_id l1) (idL1 i)
       && forallb id
            (imap (fun j l2 =>
               String.eqb (l2_id l2) (idL2 (l1_id l1) j)
               && forallb id
                    (imap (fun k x => String.eqb (lsi_id x) (idLsi (l2_id l2) k))
                          (l2_lsi l2)))
               (l1_children l1)))
       t).

(** ** Sample data *)

Definition sampleMap : KeywordMap :=
  {| keywordHierarchy :=
      [ {| raw1_keyword := "A"; raw1_type := "引流型"; raw1_pageType := "文章类";
           raw1_children :=
             [ {| raw2_keyword := "A1"; raw2_type := "认知型 (Awareness)";
                  raw2_lsi := Some ["x"; "y"; "z"] |};
               {| raw2_keyword := "A2"; raw2_type := "决策型 (Decision)";
                  raw2_lsi := None |} ] |};
        {| raw1_keyword := "B"; raw1_type := "对比型";
           raw1_pageType := "Hub/Category Pages";
           raw1_children :=
             [ {| raw2_keyword := "B1"; raw2_type := "决策型 (Decision)";
                  raw2_lsi := Some ["u"] |} ] |} ] |}.

Definition sampleTree : Tree := transformToRenderableMap sampleMap.

(** ** Closed forms of the cascade *)

(** [ks.forEach(k => m[k] = v)]. *)
Definition setAll (ks : list string) (v : bool) (m : SelectedKeywords) : SelectedKeywords :=
  foldl (fun m k => <[k := v]> m) m ks.

(** One step of [cascadeUp] at the parent [p] with children [cs]. *)
Definition recompute (p : string) (cs : list string) (m : SelectedKeywords)
  : SelectedKeywords :=
  if forallb (checked m) cs then <[p := true]> m else delete p m.

(** The final clean-up: [Object.entries(m).filter(([, v]) => v)]. *)
Definition onlyTrue (m : SelectedKeywords) : SelectedKeywords :=
  filter (fun kv => kv.2 = true) m.

(** ** Upward consistency *)

(** The identifier is a key of the selection. *)
Definition present (s : SelectedKeywords) (id : string) : Prop := is_Some (s !! id).

(** Every Level1 node is present exactly when all its Level2 children
    are, and every Level2 node exactly when all its terms are. *)
Definition upwardConsistent (t : Tree) (s : SelectedKeywords) : Prop :=
  ∀ l1, l1 ∈ t →
    (present s (l1_id l1) ↔ ∀ l2, l2 ∈ l1_children l1 → present s (l2_id l2))
    ∧ ∀ l2, l2 ∈ l1_children l1 →
        (present s (l2_id l2) ↔ ∀ y, y ∈ l2_lsi l2 → present s (lsi_id y)).

(** The same for the nodes that have at least one child. *)
Definition upwardConsistentWithChildren (t : Tree) (s : SelectedKeywords) : Prop :=
  ∀ l1, l1 ∈ t →
    (l1_children l1 ≠ [] →
     (present s (l1_id l1) ↔ ∀ l2, l2 ∈ l1_children l1 → present s (l2_id l2)))
    ∧ ∀ l2, l2 ∈ l1_children l1 → l2_lsi l2 ≠ [] →
        (present s (l2_id l2) ↔ ∀ y, y ∈ l2_lsi l2 → present s (lsi_id y)).

(** The boolean form, over the reading of a selection. *)
Definition consistentReading (t : Tree) (c : string → bool) : Prop :=
  ∀ i l1, t !! i = Some l1 →
    (l1_children l1 ≠ [] → c (l1_id l1) = forallb c (l2_id <$> l1_children l1))
    ∧ ∀ j l2, l1_children l1 !! j = Some l2 → l2_lsi l2 ≠ [] →
        c (l2_id l2) = forallb c (lsi_id <$> l2_lsi l2).

(** A selection without [false] entries. *)
Definition sparse (s : SelectedKeywords) : Prop := ∀ k b, s !! k = Some b → b = true.

(** ** Augmentation: what is said about one merge *)

(** The candidates that are not the text of an existing term. *)
Definition survivors (n : RenderLevel2Node) (newLsis : list string) : list string :=
  List.filter (fun c => negb (bool_decide (c ∈ (lsi_text <$> l2_lsi n)))) newLsis.

(** The Level2 node at position [(i, j)] of a tree. *)
Definition level2At (t : option Tree) (i j : nat) : option RenderLevel2Node :=
  t ≫= fun m => m !! i ≫= fun l1 => l1_children l1 !! j.

(** ** Pruning, as the specification words it *)

(** A term is retained when it is selected. *)
Definition retainTerms (sel : SelectedKeywords) (l2 : RenderLevel2Node)
  : list SavedLsiNode :=
  (fun y => {| saved_lsi_id := lsi_id y; saved_lsi_text := lsi_text y |})
    <$> List.filter (fun y => checked sel (lsi_id y)) (l2_lsi l2).

(** A Level2 node is retained when it is selected or has a retained
    term. *)
Definition retainLevel2 (sel : SelectedKeywords) (l2 : RenderLevel2Node)
  : option SavedLevel2Node :=
  let terms := retainTerms sel l2 in
  if checked sel (l2_id l2) || (0 <? length terms)%nat
  then Some {| s2_id := l2_id l2; s2_keyword := l2_keyword l2;
               s2_type := l2_type l2; s2_lsi := terms |}
  else None.

(** A Level1 node is retained when it is selected or has a retained
    Level2 node. *)
Definition retainLevel1 (sel : SelectedKeywords) (l1 : RenderLevel1Node)
  : option SavedLevel1Node :=
  let nodes := omap (retainLevel2 sel) (l1_children l1) in
  if checked sel (l1_id l1) || (0 <? length nodes)%nat
  then Some {| s1_id := l1_id l1; s1_keyword := l1_keyword l1;
               s1_type := l1_type l1; s1_pageType := l1_pageType l1;
               s1_children := nodes |}
  else None.

Definition prunedAsSpecified (sel : SelectedKeywords) (t : Tree) : list SavedLevel1Node :=
  omap (retainLevel1 sel) t.

(** Which identifiers a pruned hierarchy holds, by level. *)
Definition holdsLevel1 (out : list SavedLevel1Node) (id : string) : Prop :=
  ∃ s1, s1 ∈ out ∧ s1_id s1 = id.

Definition holdsLevel2 (out : list SavedLevel1Node) (id : string) : Prop :=
  ∃ s1 s2, s1 ∈ out ∧ s2 ∈ s1_children s1 ∧ s2_id s2 = id.

Definition holdsTerm (out : list SavedLevel1Node) (id : string) : Prop :=
  ∃ s1 s2 e, s1 ∈ out ∧ s2 ∈ s1_children s1 ∧ e ∈ s2_lsi s2 ∧ saved_lsi_id e = id.

(** All identifiers of a pruned hierarchy. *)
Definition savedIds (out : list SavedLevel1Node) : list string :=
  concat ((fun s1 =>
             s1_id s1
             :: concat ((fun s2 => s2_id s2 :: (saved_lsi_id <$> s2_lsi s2))
                          <$> s1_children s1)) <$> out).

(** The scenario of the specification: Level1 [A] with the children
    [A1] (three terms, the first and the last selected) and [A2]. *)
Definition scenarioTree : Tree :=
  transformToRenderableMap
    {| keywordHierarchy :=
        [ {| raw1_keyword := "A"; raw1_type := "引流型"; raw1_pageType := "文章类";
             raw1_children :=
               [ {| raw2_keyword := "A1"; raw2_type := "认知型 (Awareness)";
                    raw2_lsi := Some ["t0"; "t1"; "t2"] |};
                 {| raw2_keyword := "A2"; raw2_type := "决策型 (Decision)";
                    raw2_lsi := Some ["u0"] |} ] |} ] |}.

Definition scenarioSelection : SelectedKeywords :=
  <["l1-0-l2-0-lsi-0" := true]> (<["l1-0-l2-0-lsi-2" := true]> ∅).

(** ** Saves, seen from outside *)

(** The rows of [keyword_library] a run of the handler wrote: the
    inserts the service did not answer with an error. *)
Definition written (be : Backend) (es : list Effect) : list KeywordSubProject :=
  omap (fun e =>
          match e with
          | InsertIntoKeywordLibrary sp _ =>
              match insertSubProject be sp with None => Some sp | Some _ => None end
          | _ => None
          end) es.

(** Modelled from the spec: the persistence service is an external
    collaborator (section 6); [insert] stores the record and
    [listExisting], behind [fetchData], returns the stored records. *)
Definition libraryAfter (be : Backend) (st : SaveState) : list KeywordSubProject :=
  keywordLibrary st ++ written be (handleSaveSubProject st be).

(** A service that accepts every insert. *)
Definition okBackend : Backend :=
  {| insertProject := fun p => inl (proj_id p);
     insertSubProject := fun _ => None |}.

(** A save of the scenario tree under the parent [P], with the name
    typed into the form and the library as loaded. *)
Definition scenarioSave (name : string) (library : list KeywordSubProject) : SaveState :=
  {| connected := true;
     userId := "user-1";
     parentProjectId := "P";
     newParentProjectName := "";
     subProjectName := name;
     keywordLibrary := library;
     keywordMap := Some scenarioTree;
     selectedKeywords := scenarioSelection;
     translations :=
       <["l1-0-l2-0-lsi-0" := "床品"]>
         (<["l1-0-l2-1" := "未选"]> (<["l1-0-l2-0" := ""]> ∅));
     generationModel := Some "Gemini";
     projectNow := 41;
     projectIso := "2023-11-14T22:13:20.000Z";
     subProjectNow := 42;
     subProjectIso := "2023-11-14T22:13:20.001Z" |}.

(** The same form in the "create new" flow: a name for the new parent
    project, none for the sub-project. *)
Definition createNewWithoutName : SaveState :=
  {| connected := true;
     userId := "user-1";
     parentProjectId := "create_new";
     newParentProjectName := "Q4";
     subProjectName := "";
     keywordLibrary := [];
     keywordMap := Some scenarioTree;
     selectedKeywords := scenarioSelection;
     translations := ∅;
     generationModel := None;
     projectNow := 41;
     projectIso := "2023-11-14T22:13:20.000Z";
     subProjectNow := 42;
     subProjectIso := "2023-11-14T22:13:20.001Z" |}.

(** The library after one, two and three saves of the same name. *)
Definition libraryAfter1 : list KeywordSubProject :=
  libraryAfter okBackend (scenarioSave "Bedding Keywords" []).
Definition libraryAfter2 : list KeywordSubProject :=
  libraryAfter okBackend (scenarioSave "Bedding Keywords" libraryAfter1).
Definition libraryAfter3 : list KeywordSubProject :=
  libraryAfter okBackend (scenarioSave "Bedding Keywords" libraryAfter2).

(** What a record handed to [keyword_library] holds, for a save of the
    state [st] under the parent [parent]. *)
Definition recordOf (st : SaveState) (parent : string) (sp : KeywordSubProject) : Prop :=
  Str.truthy (Str.trim (subProjectName st)) = true
  ∧ Str.truthy parent = true
  ∧ sp_name sp = versionedName (keywordLibrary st) parent (subProjectName st)
  ∧ sp_parentProjectId sp = parent
  ∧ sp_keywords sp = (pruneHierarchy (keywordMap st) (selectedKeywords st)).1
  ∧ sp_keywords sp ≠ []
  ∧ sp_translations sp
    = restrictTranslations (pruneHierarchy (keywordMap st) (selectedKeywords st)).2
        (translations st).

(** [under p x]: the segments of [p] start the segments of [x]. *)
Definition under (p x : string) : Prop :=
  Str.split dash p `prefix_of` Str.split dash x.

(** The identifiers under a list of saved Level2 nodes. *)
Definition savedChildIds (cs : list SavedLevel2Node) : list string :=
  concat ((fun s2 => s2_id s2 :: (saved_lsi_id <$> s2_lsi s2)) <$> cs).

(** * Further parts of the component *)

(** ** The read side of the selection (KeywordMapNode.tsx) *)

(** What a checkbox is given: [checked] and [isIndeterminate]. *)
Record CheckboxState := { isChecked : bool; isIndeterminate : bool }.

(** The [useMemo] of [Level2Component]: a node without terms shows its
    own entry, any other node the count of its selected terms. *)
Definition level2Checkbox (selectedKeywords : SelectedKeywords)
    (level2Node : RenderLevel2Node) : CheckboxState :=
  let lsiIds := lsi_id <$> l2_lsi level2Node in
  if (length lsiIds =? 0)%nat
  then {| isChecked := checked selectedKeywords (l2_id level2Node);
          isIndeterminate := false |}
  else
    let selectedCount := length (List.filter (checked selectedKeywords) lsiIds) in
    {| isChecked := (selectedCount =? length lsiIds)%nat;
       isIndeterminate :=
         (0 <? selectedCount)%nat && (selectedCount <? length lsiIds)%nat |}.

(** The [useMemo] of [KeywordMapNode]: the same over the identifiers of
    all Level2 children and all their terms. *)
Definition level1Checkbox (selectedKeywords : SelectedKeywords)
    (level1Node : RenderLevel1Node) : CheckboxState :=
  let childIds := concat (l2_ids <$> l1_children level1Node) in
  if (length childIds =? 0)%nat
  then {| isChecked := checked selectedKeywords (l1_id level1Node);
          isIndeterminate := false |}
  else
    let selectedCount := length (List.filter (checked selectedKeywords) childIds) in
    {| isChecked := (selectedCount =? length childIds)%nat;
       isIndeterminate :=
         (0 <? selectedCount)%nat && (selectedCount <? length childIds)%nat |}.

(** [isAnyChildSelected], which enables the translate button. *)
Definition isAnyChildSelected (selectedKeywords : SelectedKeywords)
    (level1Node : RenderLevel1Node) : bool :=
  existsb (fun key => Str.startsWith key (l1_id level1Node)
                      && checked selectedKeywords key)
          (fst <$> map_to_list selectedKeywords).

(** The [disabled] of the translate button of a Level1 node:
    [isTranslating || !isAnyChildSelected]. *)
Definition translateDisabled (isTranslating : bool)
    (selectedKeywords : SelectedKeywords) (level1Node : RenderLevel1Node) : bool :=
  isTranslating || negb (isAnyChildSelected selectedKeywords level1Node).

(** The [onToggle] of an [LsiPill]:
    [onSelectionChange(lsi.id, !selectedKeywords[lsi.id])]. *)
Definition toggleTerm (fuel : nat) (keywordMap : option Tree)
    (lsi : RenderLsiNode) (selectedKeywords : SelectedKeywords)
  : option SelectedKeywords :=
  handleSelectionChange fuel keywordMap (lsi_id lsi)
    (negb (checked selectedKeywords (lsi_id lsi))) selectedKeywords.

(** [selectionCount = Object.keys(selectedKeywords).length]. *)
Definition selectionCount (selectedKeywords : SelectedKeywords) : nat :=
  length (fst <$> map_to_list selectedKeywords).

(** The sample tree after the second term of its first Level2 node was
    selected. *)
Definition sampleSelected : SelectedKeywords :=
  default ∅ (handleSelectionChange 3 (Some sampleTree) "l1-0-l2-0-lsi-1" true ∅).

(** ** The content of a tree *)

(** A tree without its identifiers and highlight flags: the hierarchy
    it was built from. *)
Definition eraseIds (t : Tree) : list Level1Node :=
  (fun l1 =>
     {| raw1_keyword := l1_keyword l1;
        raw1_type := l1_type l1;
        raw1_pageType := l1_pageType l1;
        raw1_children :=
          (fun l2 =>
             {| raw2_keyword := l2_keyword l2;
                raw2_type := l2_type l2;
                raw2_lsi := Some (lsi_text <$> l2_lsi l2) |}) <$> l1_children l1 |})
    <$> t.

(** A raw hierarchy in which a missing [lsi] list is the empty list. *)
Definition withLsiLists (raw : list Level1Node) : list Level1Node :=
  (fun l1 =>
     {| raw1_keyword := raw1_keyword l1;
        raw1_type := raw1_type l1;
        raw1_pageType := raw1_pageType l1;
        raw1_children :=
          (fun l2 =>
             {| raw2_keyword := raw2_keyword l2;
                raw2_type := raw2_type l2;
                raw2_lsi := Some (default [] (raw2_lsi l2)) |}) <$> raw1_children l1 |})
    <$> raw.

(** ** The filter, criterion by criterion *)

Definition categoryMatches (f : FilterState) (l1 : RenderLevel1Node) : bool :=
  negb (Str.truthy (category f)) || String.eqb (l1_type l1) (category f).

Definition pageTypeMatches (f : FilterState) (l1 : RenderLevel1Node) : bool :=
  negb (Str.truthy (pageType f))
  || bool_decide (PAGE_TYPE_MAP !! l1_pageType l1 = Some (pageType f)).

Definition stageMatches (f : FilterState) (l2 : RenderLevel2Node) : bool :=
  negb (Str.truthy (userBehavior f)) || Str.startsWith (l2_type l2) (userBehavior f).

(** Some criterion is set. *)
Definition filtering (f : FilterState) : bool :=
  Str.truthy (category f) || Str.truthy (pageType f) || Str.truthy (userBehavior f).

(** ** Translation of the selected nodes ([handleTranslateNode]) *)

(** [nodesToTranslate]: the selected nodes of the subtree of
    [level1Node] with their texts, the Level1 node first, then each
    Level2 node followed by its terms. *)
Definition nodesToTranslate (selectedKeywords : SelectedKeywords)
    (level1Node : RenderLevel1Node) : list (string * string) :=
  (if checked selectedKeywords (l1_id level1Node)
   then [(l1_id level1Node, l1_keyword level1Node)] else [])
  ++ concat
       ((fun l2 =>
           (if checked selectedKeywords (l2_id l2)
            then [(l2_id l2, l2_keyword l2)] else [])
           ++ ((fun lsi => (lsi_id lsi, lsi_text lsi))
                 <$> List.filter (fun lsi => checked selectedKeywords (lsi_id lsi))
                                 (l2_lsi l2)))
          <$> l1_children level1Node).

(** [[...new Set(nodesToTranslate.map(n => n.text))]]. *)
Definition uniqueTexts (nodes : list (string * string)) : list string :=
  foldl (fun s n => set_add n.2 s) [] nodes.

(** Reads and writes of properties of plain objects. The answer of
    [translateBatch] is a parsed JSON object: a read [translationMap[k]]
    finds the object's own entry or, when it has none, what
    [Object.prototype] has under the name [k]. *)
Definition objectPrototypeNames : list string :=
  [ "constructor"; "__defineGetter__"; "__defineSetter__"; "hasOwnProperty";
    "__lookupGetter__"; "__lookupSetter__"; "isPrototypeOf";
    "propertyIsEnumerable"; "toString"; "valueOf"; "__proto__";
    "toLocaleString" ].

(** What is read and stored: a string, or the member of
    [Object.prototype] of the given name (a function or, for
    [__proto__], the prototype itself). *)
Inductive JsValue :=
| JsString (s : string)
| JsInherited (name : string).

Definition jsTruthy (v : JsValue) : bool :=
  match v with
  | JsString s => Str.truthy s
  | JsInherited _ => true
  end.

(** [o[k]] for an object [o] with own entries of strings. *)
Definition propertyRead (o : gmap string string) (k : string) : option JsValue :=
  match o !! k with
  | Some s => Some (JsString s)
  | None =>
      if bool_decide (k ∈ objectPrototypeNames) then Some (JsInherited k) else None
  end.

(** [o[k] = v]: the name [__proto__] addresses the prototype and makes
    no entry. *)
Definition propertyWrite (k : string) (v : JsValue) (o : gmap string JsValue)
  : gmap string JsValue :=
  if String.eqb k "__proto__" then o else <[k := v]> o.

(** The [forEach] that fills [newTranslations] from the answer. *)
Definition newTranslations (translationMap : gmap string string)
    (nodes : list (string * string)) : gmap string JsValue :=
  foldl (fun acc node =>
           match propertyRead translationMap node.2 with
           | Some v => if jsTruthy v then propertyWrite node.1 v acc else acc
           | None => acc
           end)
        ∅ nodes.

(** What a run of the handler leaves: the next [translations], the
    [error] it set if any, and the texts it sent to [translateBatch] if
    it called it. The entries of [translations] are strings unless a
    read of an answer found an inherited member. *)
Record TranslateResult := {
  nextTranslations : gmap string JsValue;
  errorSet : option string;
  askedTexts : option (list string) }.

(** [handleTranslateNode]; [translateBatch] answers with the
    translation map or throws an [Error] with a message. *)
Definition handleTranslateNode (generationModel : bool) (keywordMap : option Tree)
    (selectedKeywords : SelectedKeywords)
    (translateBatch : list string → string + gmap string string)
    (level1NodeId : string) (prev : gmap string JsValue) : TranslateResult :=
  let unchanged :=
    {| nextTranslations := prev; errorSet := None; askedTexts := None |} in
  match generationModel, keywordMap with
  | true, Some km =>
      match List.find (fun n => String.eqb (l1_id n) level1NodeId) km with
      | None => unchanged
      | Some level1Node =>
          let nodes := nodesToTranslate selectedKeywords level1Node in
          let texts := uniqueTexts nodes in
          if (length texts =? 0)%nat then unchanged
          else
            match translateBatch texts with
            | inr translationMap =>
                {| nextTranslations := newTranslations translationMap nodes ∪ prev;
                   errorSet := None;
                   askedTexts := Some texts |}
            | inl message =>
                {| nextTranslations := prev;
                   errorSet := Some ("Translation failed: " +:+ message);
                   askedTexts := Some texts |}
            end
      end
  | _, _ => unchanged
  end.

(** ** Opening the save dialog ([handleOpenSaveModal]) *)

(** The fields of the dialog the handler sets. *)
Record SaveForm := {
  form_subProjectName : string;
  form_parentProjectId : string;
  form_newParentProjectName : string;
  form_isSaveModalOpen : bool }.

Definition handleOpenSaveModal (keywordMap : option Tree)
    (selectedKeywords : SelectedKeywords) (projects : list Project) : SaveForm :=
  let firstSelectedL1 :=
    List.find (fun l1 => someKeyStartsWith selectedKeywords (l1_id l1))
              (default [] keywordMap) in
  let defaultSubProjectName :=
    match firstSelectedL1 with
    | Some l1 => l1_keyword l1 +:+ " - " +:+ l1_type l1
    | None => ""
    end in
  {| form_subProjectName := defaultSubProjectName;
     form_parentProjectId :=
       match projects with
       | p :: _ => proj_id p
       | [] => ""
       end;
     form_newParentProjectName := "";
     form_isSaveModalOpen := true |}.

(** The state the save handler finds when the dialog holds [form]. *)
Definition withForm (form : SaveForm) (st : SaveState) : SaveState :=
  {| connected := connected st;
     userId := userId st;
     parentProjectId := form_parentProjectId form;
     newParentProjectName := form_newParentProjectName form;
     subProjectName := form_subProjectName form;
     keywordLibrary := keywordLibrary st;
     keywordMap := keywordMap st;
     selectedKeywords := selectedKeywords st;
     translations := translations st;
     generationModel := generationModel st;
     projectNow := projectNow st;
     projectIso := projectIso st;
     subProjectNow := subProjectNow st;
     subProjectIso := subProjectIso st |}.

(** ** Expansion of the Level1 nodes *)

(** The state [expandedL1Nodes]: [null] or a record. *)
Abbreviation Expanded := (option (gmap string bool)).

(** The [isExpanded] a node is rendered with:
    [expandedL1Nodes ? !!expandedL1Nodes[node.id] : true]. *)
Definition isExpanded (expandedL1Nodes : Expanded) (id : string) : bool :=
  match expandedL1Nodes with
  | Some e => checked e id
  | None => true
  end.

(** [nodes.reduce((acc, node) => { acc[node.id] = true; return acc }, {})]. *)
Definition allExpanded (nodes : Tree) : gmap string bool :=
  foldl (fun acc node => <[l1_id node := true]> acc) ∅ nodes.

Definition handleExpandAll (filteredKeywordMap : option Tree) (prev : Expanded)
  : Expanded :=
  match filteredKeywordMap with
  | None => prev
  | Some nodes => Some (allExpanded nodes)
  end.

Definition handleCollapseAll : Expanded := Some ∅.

Definition handleToggleExpand (nodeId : string) (prev : Expanded) : Expanded :=
  match prev with
  | None => Some {[ nodeId := false ]}
  | Some e => Some (<[nodeId := negb (checked e nodeId)]> e)
  end.

(** A dialog over the sample tree with its selected term, before
    anything was typed, and a project to save under. *)
Definition dialogScenario : SaveState :=
  {| connected := true;
     userId := "user-1";
     parentProjectId := "";
     newParentProjectName := "";
     subProjectName := "";
     keywordLibrary := [];
     keywordMap := Some sampleTree;
     selectedKeywords := sampleSelected;
     translations := ∅;
     generationModel := None;
     projectNow := 1;
     projectIso := "";
     subProjectNow := 2;
     subProjectIso := "" |}.

Definition firstProject : Project :=
  {| proj_id := "P"; proj_name := "Bedding"; proj_createdAt := ""; proj_updatedAt := "" |}.

(** ** Generation ([handleGenerateMap]) *)

(** The state of the component the generation writes. [generationModel]
    is the model locked by the last successful generation. *)
Record PageState := {
  page_keywordMap : option Tree;
  page_selectedKeywords : SelectedKeywords;
  page_translations : gmap string string;
  page_expandedL1Nodes : Expanded;
  page_generationModel : option string;
  page_error : option string }.

(** [handleGenerateMap], with the answer of [generateKeywordMap] as an
    argument: the result or the message of the error it threw. *)
Definition handleGenerateMap (currentSelectedModel : option string)
    (generateKeywordMap : string + KeywordMap) (st : PageState) : PageState :=
  match currentSelectedModel with
  | None =>
      {| page_keywordMap := page_keywordMap st;
         page_selectedKeywords := page_selectedKeywords st;
         page_translations := page_translations st;
         page_expandedL1Nodes := page_expandedL1Nodes st;
         page_generationModel := page_generationModel st;
         page_error := Some "No model selected." |}
  | Some model =>
      match generateKeywordMap with
      | inr result =>
          let renderableMap := transformToRenderableMap result in
          {| page_keywordMap := Some renderableMap;
             page_selectedKeywords := ∅;
             page_translations := ∅;
             page_expandedL1Nodes := Some (allExpanded renderableMap);
             page_generationModel := Some model;
             page_error := None |}
      | inl message =>
          {| page_keywordMap := None;
             page_selectedKeywords := ∅;
             page_translations := ∅;
             page_expandedL1Nodes := None;
             page_generationModel := page_generationModel st;
             page_error := Some message |}
      end
  end.

(** * Facts about strings *)

Module StrFacts.
Import Str.

Lemma append_nil_l (b : string) : "" +:+ b = b.
Proof. reflexivity. Qed.

Lemma append_cons c (a b : string) : String c a +:+ b = String c (a +:+ b).
Proof. reflexivity. Qed.

Lemma append_assoc (a b c : string) : (a +:+ b) +:+ c = a +:+ (b +:+ c).
Proof. induction a as [|x a IH]; rewrite ?append_nil_l, ?append_cons; congruence. Qed.

Lemma append_nil_r (a : string) : a +:+ "" = a.
Proof. induction a as [|x a IH]; rewrite ?append_nil_l, ?append_cons; congruence. Qed.

Lemma split_nonnil sep s : split sep s ≠ [].
Proof.
  destruct s as [|c s]; simpl; [done |].
  destruct (Ascii.eqb c sep); [done |]. by destruct (split sep s).
Qed.

Lemma split_no_sep sep s : occurs sep s = false → split sep s = [s].
Proof.
  induction s as [|c s IH]; simpl; [done |].
  intros [Hc Hs]%orb_false_iff. rewrite Hc, (IH Hs). done.
Qed.

Lemma split_app_sep sep p r :
  split sep (p +:+ String sep r) = split sep p ++ split sep r.
Proof.
  induction p as [|c p IH]; rewrite ?append_nil_l, ?append_cons; simpl.
  - by rewrite Ascii.eqb_refl.
  - destruct (Ascii.eqb c sep); [by rewrite IH |].
    rewrite IH. pose proof (split_nonnil sep p).
    by destruct (split sep p).
Qed.

Lemma join_split sep s : join (String sep "") (split sep s) = s.
Proof.
  unfold join. induction s as [|c s IH]; simpl; [done |].
  destruct (Ascii.eqb_spec c sep) as [->|Hne].
  - simpl. pose proof (split_nonnil sep s).
    destruct (split sep s) as [|q qs] eqn:E; [done |].
    simpl. by rewrite <- IH.
  - pose proof (split_nonnil sep s).
    destruct (split sep s) as [|q qs] eqn:E; [done |].
    simpl in *. destruct qs; simpl in *; by rewrite <- IH.
Qed.

Lemma split_inj sep s s' : split sep s = split sep s' → s = s'.
Proof.
  intros H. rewrite <- (join_split sep s), <- (join_split sep s'). by rewrite H.
Qed.

(** Numerals. *)

Lemma uint_no_dash d : occurs dash (NilEmpty.string_of_uint d) = false.
Proof. induction d; simpl; auto. Qed.

Lemma dec_no_dash n : occurs dash (dec n) = false.
Proof. apply uint_no_dash. Qed.

Lemma dec_inj n m : dec n = dec m → n = m.
Proof.
  unfold dec. intros H. apply Unsigned.to_uint_inj.
  assert (Some (Nat.to_uint n) = Some (Nat.to_uint m)) as [=] ; [|done].
  by rewrite <- !NilEmpty.usu, H.
Qed.

Lemma split_dec n : split dash (dec n) = [dec n].
Proof. apply split_no_sep, dec_no_dash. Qed.

Lemma truthy_app_r a b : truthy b = true → truthy (a +:+ b) = true.
Proof. destruct a; rewrite ?append_nil_l, ?append_cons; simpl; auto. Qed.

Lemma startsWith_refl s : startsWith s s = true.
Proof. unfold startsWith. induction s; simpl; [done |]. by destruct (ascii_dec _ _). Qed.

Lemma startsWith_app p r : startsWith (p +:+ r) p = true.
Proof.
  unfold startsWith. induction p as [|c p IH]; rewrite ?append_nil_l, ?append_cons; simpl.
  - by destruct r.
  - destruct (ascii_dec c c); [apply IH | done].
Qed.

Lemma startsWith_trans a b c :
  startsWith a b = true → startsWith b c = true → startsWith a c = true.
Proof.
  unfold startsWith. revert b c. induction a as [|x a IH]; intros b c.
  - destruct b; simpl; [|done]. by destruct c.
  - destruct b as [|y b]; simpl.
    + intros _. by destruct c.
    + destruct (ascii_dec y x) as [->|]; [|done]. intros Hab.
      destruct c as [|z c]; simpl; [done |].
      destruct (ascii_dec z x); [|done]. by apply IH.
Qed.

End StrFacts.

(** * Paths of identifiers *)

(** The path of an identifier: its [-]-separated segments. *)
Section paths.
Import Str StrFacts.

Lemma path_idL1 i : split dash (idL1 i) = ["l1"; dec i].
Proof.
  unfold idL1. change ("l1-" +:+ dec i) with ("l1" +:+ String dash (dec i)).
  by rewrite split_app_sep, split_dec.
Qed.

Lemma path_idL2 p j : split dash (idL2 p j) = split dash p ++ ["l2"; dec j].
Proof.
  unfold idL2. change ("-l2-" +:+ dec j) with (String dash ("l2" +:+ String dash (dec j))).
  by rewrite !split_app_sep, split_dec.
Qed.

Lemma path_idLsi p k : split dash (idLsi p k) = split dash p ++ ["lsi"; dec k].
Proof.
  unfold idLsi. change ("-lsi-" +:+ dec k) with (String dash ("lsi" +:+ String dash (dec k))).
  by rewrite !split_app_sep, split_dec.
Qed.

Lemma getParentId_idL1 i : getParentId (idL1 i) = None.
Proof. unfold getParentId. by rewrite path_idL1. Qed.

Lemma getParentId_of_parts s p parts :
  split dash s = split dash p ++ parts → length parts = 2 →
  getParentId s = Some p.
Proof.
  intros Hs Hlen. unfold getParentId. rewrite Hs, length_app, Hlen.
  pose proof (split_nonnil dash p) as Hne.
  destruct (split dash p) as [|q qs] eqn:E; [done |].
  replace (length (q :: qs) + 2 - 2) with (length (q :: qs)) by lia.
  rewrite take_app_length. simpl length.
  replace (S (length qs) + 2 <=? 2)%nat with false by (symmetry; apply Nat.leb_gt; lia).
  f_equal. rewrite <- E. apply (join_split dash).
Qed.

Lemma getParentId_idL2 p j : getParentId (idL2 p j) = Some p.
Proof. by eapply getParentId_of_parts; [apply path_idL2 |]. Qed.

Lemma getParentId_idLsi p k : getParentId (idLsi p k) = Some p.
Proof. by eapply getParentId_of_parts; [apply path_idLsi |]. Qed.

Lemma truthy_idL1 i : truthy (idL1 i) = true.
Proof. reflexivity. Qed.

Lemma truthy_idL2 p j : truthy (idL2 p j) = true.
Proof. by apply truthy_app_r. Qed.

End paths.

(** * The tree builder *)

Section builder.
Import Str StrFacts.

Lemma forallb_imap_lookup {A} (f : nat → A → bool) (l : list A) :
  forallb id (imap f l) = true ↔ ∀ i x, l !! i = Some x → f i x = true.
Proof.
  rewrite forallb_forall. split.
  - intros H i x Hx. apply (H (f i x)), list_elem_of_In.
    by apply elem_of_lookup_imap_2.
  - intros H b [i [x [-> Hx]]]%list_elem_of_In%elem_of_lookup_imap_1.
    by apply H.
Qed.

(** What [wellAddressed] says, position by position. *)
Lemma wellAddressed_spec (t : Tree) :
  wellAddressed t = true ↔
  ∀ i l1, t !! i = Some l1 →
    l1_id l1 = idL1 i ∧
    ∀ j l2, l1_children l1 !! j = Some l2 →
      l2_id l2 = idL2 (l1_id l1) j ∧
      ∀ k x, l2_lsi l2 !! k = Some x → lsi_id x = idLsi (l2_id l2) k.
Proof.
  unfold wellAddressed. rewrite forallb_imap_lookup. split.
  - intros H i l1 Hi.
    apply H, andb_true_iff in Hi as [H1%String.eqb_eq H2]. split; [done |].
    intros j l2 Hj. rewrite forallb_imap_lookup in H2.
    apply H2, andb_true_iff in Hj as [H3%String.eqb_eq H4]. split; [done |].
    intros k x Hk. rewrite forallb_imap_lookup in H4.
    by apply H4, String.eqb_eq in Hk.
  - intros H i l1 Hi. destruct (H i l1 Hi) as [H1 H2].
    apply andb_true_iff. split; [by apply String.eqb_eq |].
    apply forallb_imap_lookup. intros j l2 Hj. destruct (H2 j l2 Hj) as [H3 H4].
    apply andb_true_iff. split; [by apply String.eqb_eq |].
    apply forallb_imap_lookup. intros k x Hk. by apply String.eqb_eq, H4.
Qed.

Lemma transform_wellAddressed (map : KeywordMap) :
  wellAddressed (transformToRenderableMap map) = true.
Proof.
  apply wellAddressed_spec. intros i l1.
  unfold transformToRenderableMap.
  intros (r1 & _ & ->)%list_lookup_imap_Some. simpl. split; [done |].
  intros j l2 (r2 & _ & ->)%list_lookup_imap_Some. simpl. split; [done |].
  intros k x (tx & _ & ->)%list_lookup_imap_Some. simpl.
  unfold idLsi, idL2, idL1. by rewrite !append_assoc.
Qed.

End builder.

(** C8. In every tree the builder returns, the Level1 node at index [i]
    has the identifier [l1-{i}] and no parent; its child at index [j]
    has the identifier [{parentId}-l2-{j}], and [getParentId] gives the
    Level1 identifier back; the term at index [k] of that child has
    the identifier [{parentId}-lsi-{k}], and [getParentId] gives the
    Level2 identifier back. *)
Theorem tree_builder_ids (map : KeywordMap) (i : nat) (l1 : RenderLevel1Node) :
  transformToRenderableMap map !! i = Some l1 →
  l1_id l1 = "l1-" +:+ Str.dec i
  ∧ getParentId (l1_id l1) = None
  ∧ ∀ j l2, l1_children l1 !! j = Some l2 →
      l2_id l2 = l1_id l1 +:+ "-l2-" +:+ Str.dec j
      ∧ getParentId (l2_id l2) = Some (l1_id l1)
      ∧ ∀ k x, l2_lsi l2 !! k = Some x →
          lsi_id x = l2_id l2 +:+ "-lsi-" +:+ Str.dec k
          ∧ getParentId (lsi_id x) = Some (l2_id l2).
Proof.
  intros Hi.
  pose proof (proj1 (wellAddressed_spec _) (transform_wellAddressed map) i l1 Hi)
    as [H1 H2].
  split; [exact H1 |]. split; [rewrite H1; apply getParentId_idL1 |].
  intros j l2 Hj. destruct (H2 j l2 Hj) as [H3 H4].
  split; [exact H3 |]. split; [rewrite H3; apply getParentId_idL2 |].
  intros k x Hk. pose proof (H4 k x Hk) as H5.
  split; [exact H5 |]. rewrite H5. apply getParentId_idLsi.
Qed.

Lemma tree_builder_ids_witness :
  ∃ l1, transformToRenderableMap sampleMap !! 1 = Some l1
        ∧ l1_id l1 = "l1-1" ∧ getParentId (l1_id l1) = None.
Proof.
  eexists. split; [reflexivity |].
  destruct (tree_builder_ids sampleMap 1 _ eq_refl) as (H1 & H2 & _).
  split; [exact H1 | exact H2].
Defined.

(** * Selection maps *)

Section selection_maps.
Implicit Types (m : SelectedKeywords) (k x : string) (v : bool).

Lemma checked_insert m k v x :
  checked (<[k := v]> m) x = if bool_decide (x = k) then v else checked m x.
Proof.
  unfold checked. case_bool_decide as E.
  - subst. rewrite lookup_insert_eq. by destruct v.
  - by rewrite lookup_insert_ne.
Qed.

Lemma checked_delete m k x :
  checked (delete k m) x = if bool_decide (x = k) then false else checked m x.
Proof.
  unfold checked. case_bool_decide as E.
  - subst. by rewrite lookup_delete_eq.
  - by rewrite lookup_delete_ne.
Qed.

Lemma checked_empty x : checked ∅ x = false.
Proof. unfold checked. by rewrite lookup_empty. Qed.

Lemma checked_setAll ks v m x :
  checked (setAll ks v m) x = if bool_decide (x ∈ ks) then v else checked m x.
Proof.
  unfold setAll. revert m. induction ks as [|k ks IH]; intros m; cbn [foldl].
  - rewrite bool_decide_eq_false_2; [done | apply not_elem_of_nil].
  - rewrite IH, checked_insert.
    destruct (decide (x = k)) as [->|Hne].
    + rewrite (bool_decide_eq_true_2 (k = k)) by done.
      rewrite (bool_decide_eq_true_2 (k ∈ k :: ks)) by set_solver.
      by destruct (bool_decide _).
    + rewrite (bool_decide_eq_false_2 (x = k)) by done.
      destruct (decide (x ∈ ks)) as [Hin|Hin].
      * rewrite (bool_decide_eq_true_2 (x ∈ ks)) by done.
        by rewrite (bool_decide_eq_true_2 (x ∈ k :: ks)) by set_solver.
      * rewrite (bool_decide_eq_false_2 (x ∈ ks)) by done.
        by rewrite (bool_decide_eq_false_2 (x ∈ k :: ks)) by set_solver.
Qed.

Lemma checked_recompute p cs m x :
  checked (recompute p cs m) x
  = if bool_decide (x = p) then forallb (checked m) cs else checked m x.
Proof.
  unfold recompute. destruct (forallb (checked m) cs).
  - apply checked_insert.
  - apply checked_delete.
Qed.

Lemma lookup_onlyTrue m x :
  onlyTrue m !! x = if checked m x then Some true else None.
Proof.
  unfold onlyTrue, checked. destruct (m !! x) as [[|]|] eqn:E.
  - by apply map_lookup_filter_Some.
  - apply map_lookup_filter_None. right. intros b Hb. simpl. congruence.
  - apply map_lookup_filter_None. by left.
Qed.

Lemma checked_onlyTrue m x : checked (onlyTrue m) x = checked m x.
Proof. unfold checked at 1. rewrite lookup_onlyTrue. by destruct (checked m x). Qed.

Lemma onlyTrue_ext m m' :
  (∀ x, checked m x = checked m' x) → onlyTrue m = onlyTrue m'.
Proof. intros H. apply map_eq. intros x. by rewrite !lookup_onlyTrue, H. Qed.

Lemma forallb_ext_in {A} (f g : A → bool) (l : list A) :
  (∀ a, a ∈ l → f a = g a) → forallb f l = forallb g l.
Proof.
  induction l as [|a l IH]; intros H; simpl; [done |].
  rewrite (H a), IH; [done | |]; set_solver.
Qed.

Lemma forallb_fmap {A B} (f : B → bool) (g : A → B) (l : list A) :
  forallb f (g <$> l) = forallb (f ∘ g) l.
Proof.
  induction l as [|a l IH]; [done |].
  rewrite fmap_cons. cbn [forallb]. by rewrite IH.
Qed.

Lemma forallb_const_nonempty {A} (l : list A) (b : bool) :
  l ≠ [] → forallb (fun _ => b) l = b.
Proof.
  induction l as [|a l IH]; [done |]. intros _. simpl.
  destruct l; [by destruct b |]. rewrite IH; [by destruct b | done].
Qed.

End selection_maps.

(** * Node lookup *)

Section lookup.
Import Str StrFacts.

Lemma find_in_lsi_none id l : id ∉ (lsi_id <$> l) → find_in_lsi id l = None.
Proof.
  unfold find_in_lsi. induction l as [|a l IH]; simpl; [done |].
  intros H. destruct (String.eqb_spec (lsi_id a) id) as [E|E]; [set_solver |].
  apply IH. set_solver.
Qed.

Lemma find_in_lsi_app id l l' :
  find_in_lsi id (l ++ l') =
  match find_in_lsi id l with Some n => Some n | None => find_in_lsi id l' end.
Proof.
  unfold find_in_lsi. induction l as [|a l IH]; simpl; [done |].
  by destruct (String.eqb (lsi_id a) id).
Qed.

Lemma find_in_children_none id cs :
  id ∉ concat (l2_ids <$> cs) → find_in_children id cs = None.
Proof.
  induction cs as [|c cs IH]; simpl; [done |]. intros H.
  destruct (String.eqb_spec (l2_id c) id) as [E|E]; [set_solver |].
  rewrite find_in_lsi_none; [apply IH |]; unfold l2_ids in H; set_solver.
Qed.

Lemma find_in_children_app id cs cs' :
  find_in_children id (cs ++ cs') =
  match find_in_children id cs with
  | Some n => Some n
  | None => find_in_children id cs'
  end.
Proof.
  induction cs as [|c cs IH]; simpl; [done |].
  destruct (String.eqb (l2_id c) id); [done |].
  by destruct (find_in_lsi id (l2_lsi c)).
Qed.

Lemma find_in_tree_none id t : id ∉ tree_ids t → find_in_tree id t = None.
Proof.
  unfold tree_ids. induction t as [|a t IH]; simpl; [done |]. intros H.
  destruct (String.eqb_spec (l1_id a) id) as [E|E]; [set_solver |].
  rewrite find_in_children_none; [apply IH |]; unfold l1_ids in H; set_solver.
Qed.

Lemma find_in_tree_app id t t' :
  find_in_tree id (t ++ t') =
  match find_in_tree id t with Some n => Some n | None => find_in_tree id t' end.
Proof.
  induction t as [|a t IH]; simpl; [done |].
  destruct (String.eqb (l1_id a) id); [done |].
  by destruct (find_in_children id (l1_children a)).
Qed.

Lemma under_refl p : under p p.
Proof. unfold under. done. Qed.

Lemma under_trans p q x : under p q → under q x → under p x.
Proof. unfold under. by intros; etrans. Qed.

Lemma under_idL2 p j : under p (idL2 p j).
Proof. unfold under. rewrite path_idL2. by apply prefix_app_r. Qed.

Lemma under_idLsi p k : under p (idLsi p k).
Proof. unfold under. rewrite path_idLsi. by apply prefix_app_r. Qed.

Lemma prefix_same_length {A} (a b c : list A) :
  a `prefix_of` c → b `prefix_of` c → length a = length b → a = b.
Proof.
  intros [ra ->] [rb Hb] Hlen.
  apply (f_equal (take (length a))) in Hb.
  rewrite take_app_length in Hb. rewrite Hlen, take_app_length in Hb. done.
Qed.

Lemma under_idL1_inj i i' x : under (idL1 i) x → under (idL1 i') x → i = i'.
Proof.
  unfold under. rewrite !path_idL1. intros H H'.
  pose proof (prefix_same_length _ _ _ H H' eq_refl) as E.
  injection E as E. by apply dec_inj.
Qed.

Lemma under_idL2_inj p j j' x : under (idL2 p j) x → under (idL2 p j') x → j = j'.
Proof.
  unfold under. rewrite !path_idL2. intros H H'.
  assert (split dash p ++ ["l2"; dec j] = split dash p ++ ["l2"; dec j']) as E.
  { eapply prefix_same_length; [done | done |]. by rewrite !length_app. }
  apply app_inv_head in E. injection E as E. by apply dec_inj.
Qed.

Lemma under_idLsi_inj p k k' x : under (idLsi p k) x → under (idLsi p k') x → k = k'.
Proof.
  unfold under. rewrite !path_idLsi. intros H H'.
  assert (split dash p ++ ["lsi"; dec k] = split dash p ++ ["lsi"; dec k']) as E.
  { eapply prefix_same_length; [done | done |]. by rewrite !length_app. }
  apply app_inv_head in E. injection E as E. by apply dec_inj.
Qed.

Lemma not_under_idL2 p j : ¬ under (idL2 p j) p.
Proof.
  unfold under. rewrite path_idL2. intros H%prefix_length.
  rewrite length_app in H. simpl in H. lia.
Qed.

Lemma not_under_idLsi p k : ¬ under (idLsi p k) p.
Proof.
  unfold under. rewrite path_idLsi. intros H%prefix_length.
  rewrite length_app in H. simpl in H. lia.
Qed.

End lookup.

(** * Lookup in a well-addressed tree *)

Section addressed.
Import Str StrFacts.
Context (t : Tree) (Hwa : wellAddressed t = true).

Lemma elem_of_concat {A} (x : A) (ls : list (list A)) :
  x ∈ concat ls ↔ ∃ l, l ∈ ls ∧ x ∈ l.
Proof.
  rewrite list_elem_of_In, in_concat. split.
  - intros (l & Hl & Hx). exists l. by rewrite !list_elem_of_In.
  - intros (l & Hl & Hx). exists l. by rewrite <- !list_elem_of_In.
Qed.

Lemma wa_l1 i l1 : t !! i = Some l1 → l1_id l1 = idL1 i.
Proof. intros Hi. by apply (proj1 (wellAddressed_spec t) Hwa i l1 Hi). Qed.

Lemma wa_l2 i l1 j l2 :
  t !! i = Some l1 → l1_children l1 !! j = Some l2 → l2_id l2 = idL2 (l1_id l1) j.
Proof.
  intros Hi Hj.
  destruct (proj1 (wellAddressed_spec t) Hwa i l1 Hi) as [_ H]. by apply H.
Qed.

Lemma wa_lsi i l1 j l2 k x :
  t !! i = Some l1 → l1_children l1 !! j = Some l2 → l2_lsi l2 !! k = Some x →
  lsi_id x = idLsi (l2_id l2) k.
Proof.
  intros Hi Hj Hk.
  destruct (proj1 (wellAddressed_spec t) Hwa i l1 Hi) as [_ H].
  destruct (H j l2 Hj) as [_ H']. by apply H'.
Qed.

Lemma under_l2_ids i l1 j l2 y :
  t !! i = Some l1 → l1_children l1 !! j = Some l2 →
  y ∈ l2_ids l2 → under (l2_id l2) y.
Proof.
  intros Hi Hj. unfold l2_ids. rewrite elem_of_cons.
  intros [-> | (x & -> & [k Hk]%list_elem_of_lookup)%list_elem_of_fmap].
  - apply under_refl.
  - rewrite (wa_lsi _ _ _ _ _ _ Hi Hj Hk). apply under_idLsi.
Qed.

Lemma under_l1_ids i l1 y :
  t !! i = Some l1 → y ∈ l1_ids l1 → under (l1_id l1) y.
Proof.
  intros Hi. unfold l1_ids. rewrite elem_of_cons, elem_of_concat.
  intros [-> | (l & (l2 & -> & [j Hj]%list_elem_of_lookup)%list_elem_of_fmap & Hy)].
  - apply under_refl.
  - eapply under_trans; [| by eapply under_l2_ids].
    rewrite (wa_l2 _ _ _ _ Hi Hj). apply under_idL2.
Qed.

(** Identifiers of earlier subtrees are never under a later node. *)
Lemma skip_level1 i l1 x :
  t !! i = Some l1 → under (l1_id l1) x → x ∉ tree_ids (take i t).
Proof.
  intros Hi Hx. unfold tree_ids. rewrite elem_of_concat.
  intros (l & (l1' & -> & (i' & Hi' & Hlt)%elem_of_take)%list_elem_of_fmap & Hin).
  pose proof (under_l1_ids _ _ _ Hi' Hin) as Hx'.
  rewrite (wa_l1 _ _ Hi) in Hx. rewrite (wa_l1 _ _ Hi') in Hx'.
  pose proof (under_idL1_inj _ _ _ Hx Hx'). lia.
Qed.

Lemma skip_level2 i l1 j l2 x :
  t !! i = Some l1 → l1_children l1 !! j = Some l2 → under (l2_id l2) x →
  x ∉ concat (l2_ids <$> take j (l1_children l1)).
Proof.
  intros Hi Hj Hx. rewrite elem_of_concat.
  intros (l & (l2' & -> & (j' & Hj' & Hlt)%elem_of_take)%list_elem_of_fmap & Hin).
  pose proof (under_l2_ids _ _ _ _ _ Hi Hj' Hin) as Hx'.
  rewrite (wa_l2 _ _ _ _ Hi Hj) in Hx. rewrite (wa_l2 _ _ _ _ Hi Hj') in Hx'.
  pose proof (under_idL2_inj _ _ _ _ Hx Hx'). lia.
Qed.

Lemma skip_lsi i l1 j l2 k y :
  t !! i = Some l1 → l1_children l1 !! j = Some l2 → l2_lsi l2 !! k = Some y →
  lsi_id y ∉ (lsi_id <$> take k (l2_lsi l2)).
Proof.
  intros Hi Hj Hk.
  intros (y' & E & (k' & Hk' & Hlt)%elem_of_take)%list_elem_of_fmap.
  rewrite (wa_lsi _ _ _ _ _ _ Hi Hj Hk), (wa_lsi _ _ _ _ _ _ Hi Hj Hk') in E.
  assert (k = k') as ->; [| lia].
  apply (under_idLsi_inj (l2_id l2) k k' (idLsi (l2_id l2) k)); [apply under_refl |].
  rewrite E. apply under_refl.
Qed.

Lemma neq_of_not_under p x : ¬ under x p → String.eqb p x = false.
Proof.
  intros H. apply String.eqb_neq. intros ->. apply H, under_refl.
Qed.

Lemma find_level1 i l1 :
  t !! i = Some l1 → find_in_tree (l1_id l1) t = Some (NodeL1 l1).
Proof.
  intros Hi. rewrite <- (take_drop_middle t i l1 Hi) at 1.
  rewrite find_in_tree_app, find_in_tree_none
    by (by eapply skip_level1; [| apply under_refl]).
  simpl. by rewrite String.eqb_refl.
Qed.

Lemma find_level2 i l1 j l2 :
  t !! i = Some l1 → l1_children l1 !! j = Some l2 →
  find_in_tree (l2_id l2) t = Some (NodeL2 l2).
Proof.
  intros Hi Hj.
  assert (under (l1_id l1) (l2_id l2)) as Hu.
  { rewrite (wa_l2 _ _ _ _ Hi Hj). apply under_idL2. }
  rewrite <- (take_drop_middle t i l1 Hi) at 1.
  rewrite find_in_tree_app, find_in_tree_none by (by eapply skip_level1).
  simpl. rewrite neq_of_not_under
    by (rewrite (wa_l2 _ _ _ _ Hi Hj); apply not_under_idL2).
  rewrite <- (take_drop_middle (l1_children l1) j l2 Hj) at 1.
  rewrite find_in_children_app, find_in_children_none
    by (by eapply skip_level2; [| | apply under_refl]).
  simpl. by rewrite String.eqb_refl.
Qed.

Lemma find_lsi i l1 j l2 k y :
  t !! i = Some l1 → l1_children l1 !! j = Some l2 → l2_lsi l2 !! k = Some y →
  find_in_tree (lsi_id y) t = Some (NodeLsi y).
Proof.
  intros Hi Hj Hk.
  assert (under (l2_id l2) (lsi_id y)) as Hu2.
  { rewrite (wa_lsi _ _ _ _ _ _ Hi Hj Hk). apply under_idLsi. }
  assert (under (l1_id l1) (l2_id l2)) as Hu1.
  { rewrite (wa_l2 _ _ _ _ Hi Hj). apply under_idL2. }
  rewrite <- (take_drop_middle t i l1 Hi) at 1.
  rewrite find_in_tree_app, find_in_tree_none
    by (eapply skip_level1; [done | by eapply under_trans]).
  simpl. rewrite neq_of_not_under; last first.
  { intros H. eapply (not_under_idL2 (l1_id l1) j).
    rewrite <- (wa_l2 _ _ _ _ Hi Hj). by eapply under_trans. }
  rewrite <- (take_drop_middle (l1_children l1) j l2 Hj) at 1.
  rewrite find_in_children_app, find_in_children_none by (by eapply skip_level2).
  simpl. rewrite neq_of_not_under
    by (rewrite (wa_lsi _ _ _ _ _ _ Hi Hj Hk); apply not_under_idLsi).
  rewrite <- (take_drop_middle (l2_lsi l2) k y Hk) at 1.
  rewrite find_in_lsi_app, find_in_lsi_none by (by eapply skip_lsi).
  unfold find_in_lsi. simpl. by rewrite String.eqb_refl.
Qed.

Lemma parent_level1 i l1 : t !! i = Some l1 → getParentId (l1_id l1) = None.
Proof. intros Hi. rewrite (wa_l1 _ _ Hi). apply getParentId_idL1. Qed.

Lemma parent_level2 i l1 j l2 :
  t !! i = Some l1 → l1_children l1 !! j = Some l2 →
  getParentId (l2_id l2) = Some (l1_id l1).
Proof. intros Hi Hj. rewrite (wa_l2 _ _ _ _ Hi Hj). apply getParentId_idL2. Qed.

Lemma parent_lsi i l1 j l2 k y :
  t !! i = Some l1 → l1_children l1 !! j = Some l2 → l2_lsi l2 !! k = Some y →
  getParentId (lsi_id y) = Some (l2_id l2).
Proof.
  intros Hi Hj Hk. rewrite (wa_lsi _ _ _ _ _ _ Hi Hj Hk). apply getParentId_idLsi.
Qed.

Lemma truthy_level1 i l1 : t !! i = Some l1 → truthy (l1_id l1) = true.
Proof. intros Hi. by rewrite (wa_l1 _ _ Hi). Qed.

Lemma truthy_level2 i l1 j l2 :
  t !! i = Some l1 → l1_children l1 !! j = Some l2 → truthy (l2_id l2) = true.
Proof. intros Hi Hj. rewrite (wa_l2 _ _ _ _ Hi Hj). apply truthy_idL2. Qed.

End addressed.

(** * Closed forms of a toggle *)

Section toggles.
Import Str StrFacts.
Context (t : Tree) (Hwa : wellAddressed t = true).
Implicit Types (m prev : SelectedKeywords) (v : bool).

Lemma cascadeDown_unfold f km id v m :
  cascadeDown (S f) km id v m =
  match findNodeById km id with
  | None => Some m
  | Some (NodeL1 node) =>
      foldl (fun acc child =>
               acc ≫= fun sel =>
                 cascadeDown f km (l2_id child) v (<[l2_id child := v]> sel))
            (Some m) (l1_children node)
  | Some (NodeL2 node) =>
      Some (foldl (fun sel lsi => <[lsi_id lsi := v]> sel) m (l2_lsi node))
  | Some (NodeLsi _) => Some m
  end.
Proof. reflexivity. Qed.

Lemma cascadeUp_unfold f km id m :
  cascadeUp (S f) km id m =
  match getParentId id with
  | None => Some m
  | Some parentId =>
      if negb (truthy parentId) then Some m
      else
        match findNodeById km parentId with
        | None => Some m
        | Some parentNode =>
            if negb (isLevel1Node parentNode || isLevel2Node parentNode)
            then Some m
            else
              cascadeUp f km parentId
                (if forallb (fun s => checked m (node_id s)) (getChildren parentNode)
                 then <[parentId := true]> m
                 else delete parentId m)
        end
  end.
Proof. reflexivity. Qed.

Lemma setAll_app ks ks' v m : setAll (ks ++ ks') v m = setAll ks' v (setAll ks v m).
Proof. unfold setAll. by rewrite foldl_app. Qed.

Lemma setAll_cons k ks v m : setAll (k :: ks) v m = setAll ks v (<[k := v]> m).
Proof. reflexivity. Qed.

Lemma fold_insert_lsi v m (l : list RenderLsiNode) :
  foldl (fun sel lsi => <[lsi_id lsi := v]> sel) m l = setAll (lsi_id <$> l) v m.
Proof.
  unfold setAll. revert m. induction l as [|a l IH]; intros m; [done |].
  rewrite fmap_cons. cbn [foldl]. apply IH.
Qed.

Lemma siblings_level2 m (cs : list RenderLevel2Node) :
  forallb (fun s => checked m (node_id s)) (NodeL2 <$> cs)
  = forallb (checked m) (l2_id <$> cs).
Proof. rewrite !forallb_fmap. reflexivity. Qed.

Lemma siblings_lsi m (l : list RenderLsiNode) :
  forallb (fun s => checked m (node_id s)) (NodeLsi <$> l)
  = forallb (checked m) (lsi_id <$> l).
Proof. rewrite !forallb_fmap. reflexivity. Qed.

Lemma cascadeDown_level2 f i l1 j l2 v m :
  t !! i = Some l1 → l1_children l1 !! j = Some l2 →
  cascadeDown (S f) (Some t) (l2_id l2) v m = Some (setAll (lsi_id <$> l2_lsi l2) v m).
Proof.
  intros Hi Hj. rewrite cascadeDown_unfold. unfold findNodeById.
  rewrite (find_level2 t Hwa _ _ _ _ Hi Hj). by rewrite fold_insert_lsi.
Qed.

Lemma cascadeDown_children f i l1 v cs m :
  t !! i = Some l1 → cs ⊆ l1_children l1 →
  foldl (fun acc child =>
           acc ≫= fun sel =>
             cascadeDown (S f) (Some t) (l2_id child) v (<[l2_id child := v]> sel))
        (Some m) cs
  = Some (setAll (concat (l2_ids <$> cs)) v m).
Proof.
  intros Hi. revert m. induction cs as [|c cs IH]; intros m Hsub; [done |].
  rewrite fmap_cons. cbn [foldl concat]. rewrite setAll_app.
  assert (c ∈ l1_children l1) as [j Hj]%list_elem_of_lookup by set_solver.
  cbn [mbind option_bind]. rewrite (cascadeDown_level2 _ _ _ _ _ _ _ Hi Hj).
  rewrite IH by set_solver. done.
Qed.

Lemma cascadeDown_level1 f i l1 v m :
  t !! i = Some l1 →
  cascadeDown (S (S f)) (Some t) (l1_id l1) v m
  = Some (setAll (concat (l2_ids <$> l1_children l1)) v m).
Proof.
  intros Hi. rewrite cascadeDown_unfold. unfold findNodeById.
  rewrite (find_level1 t Hwa _ _ Hi). by eapply cascadeDown_children.
Qed.

Lemma cascadeDown_lsi f i l1 j l2 k y v m :
  t !! i = Some l1 → l1_children l1 !! j = Some l2 → l2_lsi l2 !! k = Some y →
  cascadeDown (S f) (Some t) (lsi_id y) v m = Some m.
Proof.
  intros Hi Hj Hk. rewrite cascadeDown_unfold. unfold findNodeById.
  by rewrite (find_lsi t Hwa _ _ _ _ _ _ Hi Hj Hk).
Qed.

Lemma cascadeUp_level1 f i l1 m :
  t !! i = Some l1 → cascadeUp (S f) (Some t) (l1_id l1) m = Some m.
Proof.
  intros Hi. rewrite cascadeUp_unfold. by rewrite (parent_level1 t Hwa _ _ Hi).
Qed.

Lemma cascadeUp_level2 f i l1 j l2 m :
  t !! i = Some l1 → l1_children l1 !! j = Some l2 →
  cascadeUp (S (S f)) (Some t) (l2_id l2) m
  = Some (recompute (l1_id l1) (l2_id <$> l1_children l1) m).
Proof.
  intros Hi Hj. rewrite cascadeUp_unfold.
  rewrite (parent_level2 t Hwa _ _ _ _ Hi Hj), (truthy_level1 t Hwa _ _ Hi).
  unfold findNodeById. rewrite (find_level1 t Hwa _ _ Hi).
  cbn [negb isLevel1Node orb getChildren].
  rewrite (cascadeUp_level1 _ _ _ _ Hi), siblings_level2. reflexivity.
Qed.

Lemma cascadeUp_lsi f i l1 j l2 k y m :
  t !! i = Some l1 → l1_children l1 !! j = Some l2 → l2_lsi l2 !! k = Some y →
  cascadeUp (S (S (S f))) (Some t) (lsi_id y) m
  = Some (recompute (l1_id l1) (l2_id <$> l1_children l1)
            (recompute (l2_id l2) (lsi_id <$> l2_lsi l2) m)).
Proof.
  intros Hi Hj Hk. rewrite cascadeUp_unfold.
  rewrite (parent_lsi t Hwa _ _ _ _ _ _ Hi Hj Hk), (truthy_level2 t Hwa _ _ _ _ Hi Hj).
  unfold findNodeById. rewrite (find_level2 t Hwa _ _ _ _ Hi Hj).
  cbn [negb isLevel1Node isLevel2Node orb getChildren].
  rewrite (cascadeUp_level2 _ _ _ _ _ _ Hi Hj), siblings_lsi. reflexivity.
Qed.

Lemma toggle_level1 fuel i l1 v prev :
  2 ≤ fuel → t !! i = Some l1 →
  handleSelectionChange fuel (Some t) (l1_id l1) v prev
  = Some (onlyTrue (setAll (l1_ids l1) v prev)).
Proof.
  intros Hf Hi. destruct fuel as [|[|f]]; [lia | lia |].
  unfold handleSelectionChange.
  rewrite (cascadeDown_level1 _ _ _ _ _ Hi). cbn [mbind option_bind].
  by rewrite (cascadeUp_level1 _ _ _ _ Hi).
Qed.

Lemma toggle_level2 fuel i l1 j l2 v prev :
  2 ≤ fuel → t !! i = Some l1 → l1_children l1 !! j = Some l2 →
  handleSelectionChange fuel (Some t) (l2_id l2) v prev
  = Some (onlyTrue (recompute (l1_id l1) (l2_id <$> l1_children l1)
                      (setAll (l2_ids l2) v prev))).
Proof.
  intros Hf Hi Hj. destruct fuel as [|[|f]]; [lia | lia |].
  unfold handleSelectionChange.
  rewrite (cascadeDown_level2 _ _ _ _ _ _ _ Hi Hj). cbn [mbind option_bind].
  by rewrite (cascadeUp_level2 _ _ _ _ _ _ Hi Hj).
Qed.

Lemma toggle_lsi fuel i l1 j l2 k y v prev :
  3 ≤ fuel → t !! i = Some l1 → l1_children l1 !! j = Some l2 →
  l2_lsi l2 !! k = Some y →
  handleSelectionChange fuel (Some t) (lsi_id y) v prev
  = Some (onlyTrue (recompute (l1_id l1) (l2_id <$> l1_children l1)
                      (recompute (l2_id l2) (lsi_id <$> l2_lsi l2)
                         (<[lsi_id y := v]> prev)))).
Proof.
  intros Hf Hi Hj Hk. destruct fuel as [|[|[|f]]]; [lia | lia | lia |].
  unfold handleSelectionChange.
  rewrite (cascadeDown_lsi _ _ _ _ _ _ _ _ _ Hi Hj Hk). cbn [mbind option_bind].
  by rewrite (cascadeUp_lsi _ _ _ _ _ _ _ _ Hi Hj Hk).
Qed.

End toggles.

(** * Fuel *)

Section fuel.
Implicit Types (m : SelectedKeywords) (v : bool).

Lemma fold_bind_none {A B} (f : A → B → option A) (l : list B) :
  foldl (fun acc b => acc ≫= fun a => f a b) None l = None.
Proof. induction l as [|b l IH]; [done | apply IH]. Qed.

Lemma cascadeDown_mono f km id v m s :
  cascadeDown f km id v m = Some s → cascadeDown (S f) km id v m = Some s.
Proof.
  revert id m s. induction f as [|f IH]; intros id m s; [done |].
  rewrite !(cascadeDown_unfold _ km id).
  destruct (findNodeById km id) as [[n|n|n]|]; try done.
  generalize (Some m). induction (l1_children n) as [|c cs IHcs]; intros acc; [done |].
  cbn [foldl]. destruct acc as [a|]; cbn [mbind option_bind].
  - destruct (cascadeDown f km (l2_id c) v (<[l2_id c:=v]> a)) as [a'|] eqn:E.
    + rewrite (IH _ _ _ E). apply IHcs.
    + intros H. exfalso. revert H.
      change (@None SelectedKeywords) with (@None SelectedKeywords ≫= @Some _).
      cbn [mbind option_bind]. by rewrite fold_bind_none.
  - by rewrite !fold_bind_none.
Qed.

Lemma cascadeUp_mono f km id m s :
  cascadeUp f km id m = Some s → cascadeUp (S f) km id m = Some s.
Proof.
  revert id m s. induction f as [|f IH]; intros id m s; [done |].
  rewrite !(cascadeUp_unfold _ km id).
  destruct (getParentId id) as [p|]; [|done].
  destruct (negb (Str.truthy p)); [done |].
  destruct (findNodeById km p) as [n|]; [|done].
  destruct (negb (isLevel1Node n || isLevel2Node n)); [done |].
  apply IH.
Qed.

Lemma handleSelectionChange_mono f f' km id v m s :
  f ≤ f' → handleSelectionChange f km id v m = Some s →
  handleSelectionChange f' km id v m = Some s.
Proof.
  induction 1 as [|f' _ IH]; [done |]. intros H. specialize (IH H).
  unfold handleSelectionChange in *.
  destruct (cascadeDown f' km id v (<[id:=v]> m)) as [s1|] eqn:E1; [|done].
  rewrite (cascadeDown_mono _ _ _ _ _ _ E1). cbn [mbind option_bind] in *.
  destruct (cascadeUp f' km id s1) as [s2|] eqn:E2; [|done].
  by rewrite (cascadeUp_mono _ _ _ _ _ E2).
Qed.

End fuel.

(** * The nodes of a tree *)

Section nodes.
Context (t : Tree).

Lemma elem_of_l2_ids (l2 : RenderLevel2Node) x :
  x ∈ l2_ids l2 ↔ x = l2_id l2 ∨ ∃ k y, l2_lsi l2 !! k = Some y ∧ x = lsi_id y.
Proof.
  unfold l2_ids. rewrite elem_of_cons, list_elem_of_fmap.
  split; (intros [?|H]; [by left | right]).
  - destruct H as (y & -> & [k Hk]%list_elem_of_lookup). eauto.
  - destruct H as (k & y & Hk & ->). exists y. split; [done |].
    apply list_elem_of_lookup. eauto.
Qed.

Lemma elem_of_l1_ids (l1 : RenderLevel1Node) x :
  x ∈ l1_ids l1 ↔
  x = l1_id l1 ∨ ∃ j l2, l1_children l1 !! j = Some l2 ∧ x ∈ l2_ids l2.
Proof.
  unfold l1_ids. rewrite elem_of_cons, elem_of_concat.
  split; (intros [?|H]; [by left | right]).
  - destruct H as (l & (l2 & -> & [j Hj]%list_elem_of_lookup)%list_elem_of_fmap & Hx).
    eauto.
  - destruct H as (j & l2 & Hj & Hx). exists (l2_ids l2). split; [|done].
    apply list_elem_of_fmap. exists l2. split; [done |].
    apply list_elem_of_lookup. eauto.
Qed.

Lemma elem_of_tree_ids x :
  x ∈ tree_ids t ↔ ∃ i l1, t !! i = Some l1 ∧ x ∈ l1_ids l1.
Proof.
  unfold tree_ids. rewrite elem_of_concat. split.
  - intros (l & (l1 & -> & [i Hi]%list_elem_of_lookup)%list_elem_of_fmap & Hx). eauto.
  - intros (i & l1 & Hi & Hx). exists (l1_ids l1). split; [|done].
    apply list_elem_of_fmap. exists l1. split; [done |].
    apply list_elem_of_lookup. eauto.
Qed.

(** A node of the tree is a Level1 node, a Level2 node or a term. *)
Lemma tree_ids_cases x :
  x ∈ tree_ids t →
  (∃ i l1, t !! i = Some l1 ∧ x = l1_id l1)
  ∨ (∃ i l1 j l2, t !! i = Some l1 ∧ l1_children l1 !! j = Some l2 ∧ x = l2_id l2)
  ∨ (∃ i l1 j l2 k y, t !! i = Some l1 ∧ l1_children l1 !! j = Some l2
                      ∧ l2_lsi l2 !! k = Some y ∧ x = lsi_id y).
Proof.
  intros (i & l1 & Hi & [->|(j & l2 & Hj & [->|(k & y & Hk & ->)]%elem_of_l2_ids)]
            %elem_of_l1_ids)%elem_of_tree_ids.
  - left. eauto.
  - right. left. eauto 10.
  - right. right. eauto 10.
Qed.

End nodes.

(** * Properties of the selection state manager *)

Section selection.
Import Str StrFacts.
Context (t : Tree) (Hwa : wellAddressed t = true).
Implicit Types (m s prev : SelectedKeywords) (v : bool).

Lemma lookup_onlyTrue_true m x : checked m x = true → onlyTrue m !! x = Some true.
Proof. intros H. by rewrite lookup_onlyTrue, H. Qed.

Lemma lookup_onlyTrue_false m x : checked m x = false → onlyTrue m !! x = None.
Proof. intros H. by rewrite lookup_onlyTrue, H. Qed.

Lemma checked_setAll_in ks v m x : x ∈ ks → checked (setAll ks v m) x = v.
Proof. intros H. by rewrite checked_setAll, bool_decide_eq_true_2. Qed.

Lemma checked_setAll_notin ks v m x : x ∉ ks → checked (setAll ks v m) x = checked m x.
Proof. intros H. by rewrite checked_setAll, bool_decide_eq_false_2. Qed.

Lemma checked_recompute_eq p cs m :
  checked (recompute p cs m) p = forallb (checked m) cs.
Proof. by rewrite checked_recompute, bool_decide_eq_true_2. Qed.

Lemma checked_recompute_ne p cs m x :
  x ≠ p → checked (recompute p cs m) x = checked m x.
Proof. intros H. by rewrite checked_recompute, bool_decide_eq_false_2. Qed.

End selection.

(** C4. Toggling a Level1 node of a well-addressed tree to [true]
    returns a selection that holds the node, each of its Level2
    children and each of their terms; toggling it to [false] returns a
    selection that holds none of them. *)
Theorem toggle_level1_cascades_down (t : Tree) (i : nat) (l1 : RenderLevel1Node)
    (prev : SelectedKeywords) (fuel : nat) :
  wellAddressed t = true → t !! i = Some l1 → 2 ≤ fuel →
  (∃ next, handleSelectionChange fuel (Some t) (l1_id l1) true prev = Some next
     ∧ next !! l1_id l1 = Some true
     ∧ ∀ l2, l2 ∈ l1_children l1 →
         next !! l2_id l2 = Some true
         ∧ ∀ y, y ∈ l2_lsi l2 → next !! lsi_id y = Some true)
  ∧ (∃ next, handleSelectionChange fuel (Some t) (l1_id l1) false prev = Some next
     ∧ next !! l1_id l1 = None
     ∧ ∀ l2, l2 ∈ l1_children l1 →
         next !! l2_id l2 = None
         ∧ ∀ y, y ∈ l2_lsi l2 → next !! lsi_id y = None).
Proof.
  intros Hwa Hi Hf.
  assert (∀ v, ∃ next,
    handleSelectionChange fuel (Some t) (l1_id l1) v prev = Some next
    ∧ ∀ d, d ∈ l1_ids l1 → next !! d = if v then Some true else None) as H.
  { intros v. eexists. split; [by eapply toggle_level1 |]. intros d Hd.
    rewrite lookup_onlyTrue, checked_setAll_in by done. by destruct v. }
  assert (∀ l2, l2 ∈ l1_children l1 → l2_id l2 ∈ l1_ids l1) as H2.
  { intros l2 [j Hj]%list_elem_of_lookup. apply elem_of_l1_ids. right.
    exists j, l2. split; [done |]. apply elem_of_l2_ids. by left. }
  assert (∀ l2 y, l2 ∈ l1_children l1 → y ∈ l2_lsi l2 → lsi_id y ∈ l1_ids l1) as H3.
  { intros l2 y [j Hj]%list_elem_of_lookup [k Hk]%list_elem_of_lookup.
    apply elem_of_l1_ids. right. exists j, l2. split; [done |].
    apply elem_of_l2_ids. right. eauto. }
  split.
  - destruct (H true) as (next & Hn & Hd). exists next. split; [done |].
    split; [apply Hd, elem_of_l1_ids; by left |].
    intros l2 Hl2. split; [by apply Hd, H2 |]. intros y Hy. by eapply Hd, H3.
  - destruct (H false) as (next & Hn & Hd). exists next. split; [done |].
    split; [apply Hd, elem_of_l1_ids; by left |].
    intros l2 Hl2. split; [by apply Hd, H2 |]. intros y Hy. by eapply Hd, H3.
Qed.

Lemma toggle_level1_cascades_down_witness :
  ∃ next,
    handleSelectionChange 3 (Some sampleTree) "l1-0" true ∅ = Some next
    ∧ next !! "l1-0" = Some true.
Proof.
  destruct (toggle_level1_cascades_down sampleTree 0 _ ∅ 3
              eq_refl eq_refl ltac:(lia)) as [(next & Hn & Hl & _) _].
  exists next. split; [exact Hn | exact Hl].
Defined.

(** * Distinct identifiers *)

Section distinct.
Import Str StrFacts.
Context (t : Tree) (Hwa : wellAddressed t = true).

Lemma ne_of_under q x p : under q x → ¬ under q p → x ≠ p.
Proof. intros Hx Hp ->. by apply Hp. Qed.

Lemma child_under i l1 c :
  t !! i = Some l1 → c ∈ (l2_id <$> l1_children l1) →
  ∃ j, c = idL2 (l1_id l1) j.
Proof.
  intros Hi (l2 & -> & [j Hj]%list_elem_of_lookup)%list_elem_of_fmap.
  exists j. by eapply wa_l2.
Qed.

Lemma term_under i l1 j l2 c :
  t !! i = Some l1 → l1_children l1 !! j = Some l2 →
  c ∈ (lsi_id <$> l2_lsi l2) → ∃ k, c = idLsi (l2_id l2) k.
Proof.
  intros Hi Hj (y & -> & [k Hk]%list_elem_of_lookup)%list_elem_of_fmap.
  exists k. by eapply wa_lsi.
Qed.

Lemma child_ne_parent i l1 c :
  t !! i = Some l1 → c ∈ (l2_id <$> l1_children l1) → c ≠ l1_id l1.
Proof.
  intros Hi Hc. destruct (child_under _ _ _ Hi Hc) as [j ->].
  eapply ne_of_under; [apply under_refl | apply not_under_idL2].
Qed.

Lemma term_ne_parent i l1 j l2 c :
  t !! i = Some l1 → l1_children l1 !! j = Some l2 →
  c ∈ (lsi_id <$> l2_lsi l2) → c ≠ l2_id l2.
Proof.
  intros Hi Hj Hc. destruct (term_under _ _ _ _ _ Hi Hj Hc) as [k ->].
  eapply ne_of_under; [apply under_refl | apply not_under_idLsi].
Qed.

Lemma term_ne_grandparent i l1 j l2 c :
  t !! i = Some l1 → l1_children l1 !! j = Some l2 →
  c ∈ (lsi_id <$> l2_lsi l2) → c ≠ l1_id l1.
Proof.
  intros Hi Hj Hc. destruct (term_under _ _ _ _ _ Hi Hj Hc) as [k ->].
  rewrite (wa_l2 t Hwa _ _ _ _ Hi Hj).
  eapply ne_of_under; [apply under_idLsi | apply not_under_idL2].
Qed.

Lemma level2_ne_level1 i l1 j l2 :
  t !! i = Some l1 → l1_children l1 !! j = Some l2 → l2_id l2 ≠ l1_id l1.
Proof.
  intros Hi Hj. eapply child_ne_parent; [done |].
  apply list_elem_of_fmap. exists l2. split; [done |]. apply list_elem_of_lookup. eauto.
Qed.

End distinct.

(** * Idempotence *)

Section idempotence.
Context (t : Tree) (Hwa : wellAddressed t = true).
Implicit Types (s : SelectedKeywords) (v : bool).

Lemma idem_level1 ks v s :
  onlyTrue (setAll ks v (onlyTrue (setAll ks v s))) = onlyTrue (setAll ks v s).
Proof.
  apply onlyTrue_ext. intros x. rewrite !checked_setAll.
  case_bool_decide as Hx; [done |].
  by rewrite checked_onlyTrue, checked_setAll_notin.
Qed.

Lemma idem_level2 p cs ks v s :
  (∀ c, c ∈ cs → c ≠ p) →
  let next := onlyTrue (recompute p cs (setAll ks v s)) in
  onlyTrue (recompute p cs (setAll ks v next)) = next.
Proof.
  intros Hcs next. apply onlyTrue_ext.
  assert (∀ y, y ≠ p →
    checked (setAll ks v next) y = checked (setAll ks v s) y) as Hsub.
  { intros y Hy. rewrite !checked_setAll. case_bool_decide as Hin; [done |].
    unfold next.
    by rewrite checked_onlyTrue, checked_recompute_ne, checked_setAll_notin. }
  intros x. rewrite !checked_recompute. case_bool_decide as Hx.
  - apply forallb_ext_in. intros c Hc. by apply Hsub, Hcs.
  - by apply Hsub.
Qed.

Lemma idem_lsi p1 cs1 p2 cs2 y0 v s :
  (∀ c, c ∈ cs1 → c ≠ p1) →
  (∀ c, c ∈ cs2 → c ≠ p1 ∧ c ≠ p2) →
  let next := onlyTrue (recompute p1 cs1 (recompute p2 cs2 (<[y0 := v]> s))) in
  onlyTrue (recompute p1 cs1 (recompute p2 cs2 (<[y0 := v]> next))) = next.
Proof.
  intros Hcs1 Hcs2 next. apply onlyTrue_ext.
  assert (∀ x, x ≠ p1 → x ≠ p2 →
    checked (<[y0 := v]> next) x = checked (<[y0 := v]> s) x) as Ha.
  { intros x H1 H2. rewrite !checked_insert. case_bool_decide as Hx; [done |].
    unfold next.
    rewrite checked_onlyTrue, !checked_recompute_ne, checked_insert by done.
    by rewrite bool_decide_eq_false_2. }
  assert (∀ x, x ≠ p1 →
    checked (recompute p2 cs2 (<[y0 := v]> next)) x
    = checked (recompute p2 cs2 (<[y0 := v]> s)) x) as Hb.
  { intros x H1. rewrite !checked_recompute. case_bool_decide as Hx.
    - apply forallb_ext_in. intros c Hc. by apply Ha; apply Hcs2.
    - by apply Ha. }
  intros x. rewrite !(checked_recompute p1). case_bool_decide as Hx.
  - apply forallb_ext_in. intros c Hc. by apply Hb, Hcs1.
  - by apply Hb.
Qed.

End idempotence.

(** C5. In a well-addressed tree, toggling a node to a state and then
    toggling the same node to the same state again returns the
    selection the first toggle returned, whatever the selection was
    before. *)
Theorem toggle_idempotent (t : Tree) (id : string) (v : bool)
    (s : SelectedKeywords) (fuel : nat) :
  wellAddressed t = true → id ∈ tree_ids t → 3 ≤ fuel →
  ∃ next, handleSelectionChange fuel (Some t) id v s = Some next
          ∧ handleSelectionChange fuel (Some t) id v next = Some next.
Proof.
  intros Hwa Hid Hf.
  destruct (tree_ids_cases t id Hid)
    as [(i & l1 & Hi & ->)
       |[(i & l1 & j & l2 & Hi & Hj & ->)
        |(i & l1 & j & l2 & k & y & Hi & Hj & Hk & ->)]].
  - eexists. split; [eapply toggle_level1; [done | lia | done] |].
    rewrite (toggle_level1 t Hwa fuel i l1) by (done || lia).
    f_equal. apply idem_level1.
  - eexists. split; [eapply toggle_level2; [done | lia | done | done] |].
    rewrite (toggle_level2 t Hwa fuel i l1 j l2) by (done || lia).
    f_equal. apply idem_level2. intros c Hc. by eapply child_ne_parent.
  - eexists. split; [eapply toggle_lsi; [done | lia | done | done | done] |].
    rewrite (toggle_lsi t Hwa fuel i l1 j l2 k y) by (done || lia).
    f_equal. apply idem_lsi.
    + intros c Hc. by eapply child_ne_parent.
    + intros c Hc. split; [by eapply term_ne_grandparent | by eapply term_ne_parent].
Qed.

Lemma toggle_idempotent_witness :
  ∃ next,
    handleSelectionChange 3 (Some sampleTree) "l1-0-l2-0-lsi-1" true ∅ = Some next
    ∧ handleSelectionChange 3 (Some sampleTree) "l1-0-l2-0-lsi-1" true next = Some next.
Proof.
  apply (toggle_idempotent sampleTree "l1-0-l2-0-lsi-1" true ∅ 3 eq_refl).
  - vm_compute. repeat constructor.
  - lia.
Defined.

(** * Upward consistency *)

Section consistency.
Import Str StrFacts.
Context (t : Tree) (Hwa : wellAddressed t = true).
Implicit Types (s : SelectedKeywords) (v : bool) (c : string → bool).

Lemma consistentReading_ext c c' :
  (∀ x, c x = c' x) → consistentReading t c → consistentReading t c'.
Proof.
  intros E H i l1 Hi. destruct (H i l1 Hi) as [H1 H2]. split.
  - intros Hne. rewrite <- E, (H1 Hne). by apply forallb_ext_in.
  - intros j l2 Hj Hne. rewrite <- E, (H2 j l2 Hj Hne). by apply forallb_ext_in.
Qed.

Lemma consistentReading_empty : consistentReading t (checked ∅).
Proof.
  assert (∀ l : list string, l ≠ [] → forallb (checked ∅) l = false) as H.
  { intros l Hl. rewrite (forallb_ext_in _ (fun _ => false)).
    - by apply forallb_const_nonempty.
    - intros a _. apply checked_empty. }
  intros i l1 Hi. split.
  - intros Hne. rewrite checked_empty, H; [done |]. by destruct (l1_children l1).
  - intros j l2 Hj Hne. rewrite checked_empty, H; [done |]. by destruct (l2_lsi l2).
Qed.

(** Where the identifiers of a node live. *)

Lemma level2_under i l1 j l2 :
  t !! i = Some l1 → l1_children l1 !! j = Some l2 → under (l1_id l1) (l2_id l2).
Proof. intros Hi Hj. rewrite (wa_l2 t Hwa _ _ _ _ Hi Hj). apply under_idL2. Qed.

Lemma children_under i l1 x :
  t !! i = Some l1 → x ∈ (l2_id <$> l1_children l1) → under (l1_id l1) x.
Proof.
  intros Hi Hx. destruct (child_under t Hwa _ _ _ Hi Hx) as [j ->]. apply under_idL2.
Qed.

Lemma terms_under i l1 j l2 x :
  t !! i = Some l1 → l1_children l1 !! j = Some l2 →
  x ∈ (lsi_id <$> l2_lsi l2) → under (l2_id l2) x.
Proof.
  intros Hi Hj Hx. destruct (term_under t Hwa _ _ _ _ _ Hi Hj Hx) as [k ->].
  apply under_idLsi.
Qed.

Lemma other_level1 i l1 i0 n1 x :
  t !! i = Some l1 → t !! i0 = Some n1 → i ≠ i0 →
  under (l1_id l1) x → ¬ under (l1_id n1) x.
Proof.
  intros Hi Hi0 Hne Hx Hx'.
  rewrite (wa_l1 t Hwa _ _ Hi) in Hx. rewrite (wa_l1 t Hwa _ _ Hi0) in Hx'.
  by pose proof (under_idL1_inj _ _ _ Hx Hx').
Qed.

Lemma other_level2 i l1 j l2 j0 n2 x :
  t !! i = Some l1 → l1_children l1 !! j = Some l2 →
  l1_children l1 !! j0 = Some n2 → j ≠ j0 →
  under (l2_id l2) x → ¬ under (l2_id n2) x.
Proof.
  intros Hi Hj Hj0 Hne Hx Hx'.
  rewrite (wa_l2 t Hwa _ _ _ _ Hi Hj) in Hx.
  rewrite (wa_l2 t Hwa _ _ _ _ Hi Hj0) in Hx'.
  by pose proof (under_idL2_inj _ _ _ _ Hx Hx').
Qed.

Lemma under_level2_ne_level1 i l1 j l2 x :
  t !! i = Some l1 → l1_children l1 !! j = Some l2 →
  under (l2_id l2) x → x ≠ l1_id l1.
Proof.
  intros Hi Hj Hx. eapply ne_of_under; [done |].
  rewrite (wa_l2 t Hwa _ _ _ _ Hi Hj). apply not_under_idL2.
Qed.

(** A parent none of whose entries is written keeps its equation. *)
Lemma unwritten (W : string → Prop) c c' p cs :
  (∀ x, ¬ W x → c' x = c x) →
  ¬ W p → (∀ x, x ∈ cs → ¬ W x) →
  c p = forallb c cs → c' p = forallb c' cs.
Proof.
  intros Hc Hp Hcs E. rewrite (Hc p Hp), E.
  apply forallb_ext_in. intros x Hx. symmetry. by apply Hc, Hcs.
Qed.

Lemma all_written c v cs :
  cs ≠ [] → (∀ x, x ∈ cs → c x = v) → forallb c cs = v.
Proof.
  intros Hne H. rewrite (forallb_ext_in _ (fun _ => v)) by done.
  by apply forallb_const_nonempty.
Qed.

Lemma fmap_nonempty {A B} (f : A → B) (l : list A) : l ≠ [] → f <$> l ≠ [].
Proof. by destruct l. Qed.

Lemma lookup_same {A} (l : list A) i x y : l !! i = Some x → l !! i = Some y → x = y.
Proof. congruence. Qed.

(** The toggle of a Level1 node. *)
Lemma consistent_level1 i0 n1 v c c' :
  t !! i0 = Some n1 → consistentReading t c →
  (∀ x, c' x = if bool_decide (x ∈ l1_ids n1) then v else c x) →
  consistentReading t c'.
Proof.
  intros Hi0 Hc Hc' i l1 Hi. destruct (Hc i l1 Hi) as [H1 H2].
  set (W := fun x => x ∈ l1_ids n1).
  assert (∀ x, ¬ W x → c' x = c x) as HW.
  { intros x Hx. by rewrite Hc', bool_decide_eq_false_2. }
  assert (∀ x, W x → c' x = v) as HW'.
  { intros x Hx. by rewrite Hc', bool_decide_eq_true_2. }
  destruct (decide (i = i0)) as [->|Hne].
  - assert (l1 = n1) as -> by congruence. split.
    + intros Hcs. rewrite HW' by (apply elem_of_l1_ids; by left).
      symmetry. apply all_written; [by apply fmap_nonempty |].
      intros x (l2 & -> & [j Hj]%list_elem_of_lookup)%list_elem_of_fmap.
      apply HW', elem_of_l1_ids. right. exists j, l2. split; [done |].
      apply elem_of_l2_ids. by left.
    + intros j l2 Hj Hl.
      assert (∀ x, x ∈ l2_ids l2 → W x) as Hsub.
      { intros x Hx. apply elem_of_l1_ids. right. eauto. }
      rewrite HW' by (apply Hsub, elem_of_l2_ids; by left).
      symmetry. apply all_written; [by apply fmap_nonempty |].
      intros x (y & -> & [k Hk]%list_elem_of_lookup)%list_elem_of_fmap.
      apply HW', Hsub, elem_of_l2_ids. right. eauto.
  - assert (∀ x, under (l1_id l1) x → ¬ W x) as Hout.
    { intros x Hx Hin. eapply other_level1; [exact Hi | exact Hi0 | done | done |].
      by eapply under_l1_ids. }
    split.
    + intros Hcs. apply (unwritten W c c'); [done | | | by apply H1].
      * apply Hout, under_refl.
      * intros x Hx. by eapply Hout, children_under.
    + intros j l2 Hj Hl. apply (unwritten W c c'); [done | | | by eapply H2].
      * by eapply Hout, level2_under.
      * intros x Hx. apply Hout. eapply under_trans; [by eapply level2_under |].
        by eapply terms_under.
Qed.

(** Toggles of a Level2 node or of a term write the Level1 ancestor and
    entries under the Level2 node; every other parent keeps its
    equation. *)
Lemma consistent_elsewhere i0 n1 j0 n2 c c' :
  t !! i0 = Some n1 → l1_children n1 !! j0 = Some n2 →
  (∀ x, x ≠ l1_id n1 → ¬ under (l2_id n2) x → c' x = c x) →
  consistentReading t c →
  ∀ i l1, t !! i = Some l1 →
    (i ≠ i0 → l1_children l1 ≠ [] →
     c' (l1_id l1) = forallb c' (l2_id <$> l1_children l1))
    ∧ ∀ j l2, l1_children l1 !! j = Some l2 → i ≠ i0 ∨ j ≠ j0 → l2_lsi l2 ≠ [] →
        c' (l2_id l2) = forallb c' (lsi_id <$> l2_lsi l2).
Proof.
  intros Hi0 Hj0 Hc' Hc i l1 Hi. destruct (Hc i l1 Hi) as [H1 H2].
  set (W := fun x => x = l1_id n1 ∨ under (l2_id n2) x).
  assert (∀ x, ¬ W x → c' x = c x) as HW.
  { intros x Hx. apply Hc'; intros H; apply Hx; [by left | by right]. }
  assert (i ≠ i0 → ∀ x, under (l1_id l1) x → ¬ W x) as Hout1.
  { intros Hne x Hx [->|Hu].
    - eapply other_level1; [exact Hi | exact Hi0 | done | done | apply under_refl].
    - eapply other_level1; [exact Hi | exact Hi0 | done | done |].
      eapply under_trans; [by eapply level2_under | done]. }
  split.
  - intros Hne Hcs. apply (unwritten W c c'); [done | | | by apply H1].
    + apply Hout1; [done | apply under_refl].
    + intros x Hx. apply Hout1; [done |]. by eapply children_under.
  - intros j l2 Hj Hne Hl.
    assert (∀ x, under (l2_id l2) x → ¬ W x) as Hout2.
    { intros x Hx. destruct (decide (i = i0)) as [->|Hne1].
      - assert (l1 = n1) as -> by congruence.
        assert (j ≠ j0) as Hne2 by (by destruct Hne). intros [->|Hu].
        + exact (under_level2_ne_level1 _ _ _ _ _ Hi Hj Hx eq_refl).
        + exact (other_level2 _ _ _ _ _ _ _ Hi Hj Hj0 Hne2 Hx Hu).
      - apply Hout1; [done |]. eapply under_trans; [by eapply level2_under | done]. }
    apply (unwritten W c c'); [done | | | by eapply H2].
    + apply Hout2, under_refl.
    + intros x Hx. by eapply Hout2, terms_under.
Qed.

(** The toggle of a Level2 node. *)
Lemma consistent_level2 i0 n1 j0 n2 v c c1 c' :
  t !! i0 = Some n1 → l1_children n1 !! j0 = Some n2 →
  consistentReading t c →
  (∀ x, c1 x = if bool_decide (x ∈ l2_ids n2) then v else c x) →
  (∀ x, c' x = if bool_decide (x = l1_id n1)
               then forallb c1 (l2_id <$> l1_children n1) else c1 x) →
  consistentReading t c'.
Proof.
  intros Hi0 Hj0 Hc Hc1 Hc'.
  assert (∀ x, x ≠ l1_id n1 → c' x = c1 x) as Hne1.
  { intros x Hx. by rewrite Hc', bool_decide_eq_false_2. }
  assert (∀ x, x ∈ l2_ids n2 → c' x = v) as Hin.
  { intros x Hx. rewrite Hne1, Hc1, bool_decide_eq_true_2; [done | done |].
    eapply under_level2_ne_level1; [done | done |]. by eapply under_l2_ids. }
  assert (∀ x, x ≠ l1_id n1 → ¬ under (l2_id n2) x → c' x = c x) as Hother.
  { intros x Hx Hu. rewrite Hne1, Hc1, bool_decide_eq_false_2; [done | | done].
    intros H. by eapply Hu, under_l2_ids. }
  intros i l1 Hi.
  destruct (consistent_elsewhere _ _ _ _ _ _ Hi0 Hj0 Hother Hc i l1 Hi) as [E1 E2].
  split.
  - intros Hcs. destruct (decide (i = i0)) as [->|Hne]; [|by apply E1].
    assert (l1 = n1) as -> by congruence.
    rewrite Hc', bool_decide_eq_true_2 by done.
    apply forallb_ext_in. intros x Hx. symmetry. apply Hne1.
    by eapply child_ne_parent.
  - intros j l2 Hj Hl.
    destruct (decide (i = i0)) as [->|Hne]; [|eapply E2; eauto].
    assert (l1 = n1) as -> by congruence.
    destruct (decide (j = j0)) as [->|Hne]; [|eapply E2; eauto].
    assert (l2 = n2) as -> by congruence.
    rewrite Hin by (apply elem_of_l2_ids; by left).
    symmetry. apply all_written; [by apply fmap_nonempty |].
    intros x (y & -> & [k Hk]%list_elem_of_lookup)%list_elem_of_fmap.
    apply Hin, elem_of_l2_ids. right. eauto.
Qed.

(** The toggle of a term. *)
Lemma consistent_lsi i0 n1 j0 n2 k0 y0 v c c1 c2 c' :
  t !! i0 = Some n1 → l1_children n1 !! j0 = Some n2 → l2_lsi n2 !! k0 = Some y0 →
  consistentReading t c →
  (∀ x, c1 x = if bool_decide (x = lsi_id y0) then v else c x) →
  (∀ x, c2 x = if bool_decide (x = l2_id n2)
               then forallb c1 (lsi_id <$> l2_lsi n2) else c1 x) →
  (∀ x, c' x = if bool_decide (x = l1_id n1)
               then forallb c2 (l2_id <$> l1_children n1) else c2 x) →
  consistentReading t c'.
Proof.
  intros Hi0 Hj0 Hk0 Hc Hc1 Hc2 Hc'.
  assert (∀ x, x ≠ l1_id n1 → c' x = c2 x) as Hne1.
  { intros x Hx. by rewrite Hc', bool_decide_eq_false_2. }
  assert (∀ x, x ≠ l2_id n2 → c2 x = c1 x) as Hne2.
  { intros x Hx. by rewrite Hc2, bool_decide_eq_false_2. }
  assert (under (l2_id n2) (lsi_id y0)) as Hy0.
  { eapply terms_under; [done | done |]. apply list_elem_of_fmap. exists y0.
    split; [done |]. apply list_elem_of_lookup. eauto. }
  assert (∀ x, x ≠ l1_id n1 → ¬ under (l2_id n2) x → c' x = c x) as Hother.
  { intros x Hx Hu. rewrite Hne1, Hne2, Hc1, bool_decide_eq_false_2; [done | | | done].
    - intros ->. by apply Hu.
    - intros ->. apply Hu, under_refl. }
  intros i l1 Hi.
  destruct (consistent_elsewhere _ _ _ _ _ _ Hi0 Hj0 Hother Hc i l1 Hi) as [E1 E2].
  split.
  - intros Hcs. destruct (decide (i = i0)) as [->|Hne]; [|by apply E1].
    assert (l1 = n1) as -> by congruence.
    rewrite Hc', bool_decide_eq_true_2 by done.
    apply forallb_ext_in. intros x Hx. symmetry. apply Hne1.
    by eapply child_ne_parent.
  - intros j l2 Hj Hl.
    destruct (decide (i = i0)) as [->|Hne]; [|eapply E2; eauto].
    assert (l1 = n1) as -> by congruence.
    destruct (decide (j = j0)) as [->|Hne]; [|eapply E2; eauto].
    assert (l2 = n2) as -> by congruence.
    rewrite Hne1 by (by eapply level2_ne_level1).
    rewrite Hc2, bool_decide_eq_true_2 by done.
    apply forallb_ext_in. intros x Hx. symmetry.
    rewrite Hne1 by (by eapply term_ne_grandparent).
    apply Hne2. by eapply term_ne_parent.
Qed.

End consistency.

Section reachable_sets.
Context (t : Tree) (Hwa : wellAddressed t = true).
Implicit Types (s prev next : SelectedKeywords) (v : bool).

Lemma sparse_onlyTrue m : sparse (onlyTrue m).
Proof.
  intros k b. rewrite lookup_onlyTrue. destruct (checked m k); congruence.
Qed.

Lemma present_checked s x : sparse s → (present s x ↔ checked s x = true).
Proof.
  intros Hs. unfold present, checked. split.
  - intros [b Hb]. rewrite Hb. by rewrite (Hs _ _ Hb).
  - destruct (s !! x) as [[|]|]; [eauto | done | done].
Qed.

(** A toggle that returns keeps the parents with children consistent. *)
Lemma toggle_consistent fuel id v prev next :
  consistentReading t (checked prev) → id ∈ tree_ids t →
  handleSelectionChange fuel (Some t) id v prev = Some next →
  consistentReading t (checked next) ∧ sparse next.
Proof.
  intros Hc Hid Hnext.
  apply (handleSelectionChange_mono fuel (fuel + 3)) in Hnext; [|lia].
  destruct (tree_ids_cases t id Hid)
    as [(i & l1 & Hi & ->)
       |[(i & l1 & j & l2 & Hi & Hj & ->)
        |(i & l1 & j & l2 & k & y & Hi & Hj & Hk & ->)]].
  - rewrite (toggle_level1 t Hwa _ i l1) in Hnext by (done || lia).
    assert (next = onlyTrue (setAll (l1_ids l1) v prev)) as -> by congruence.
    split; [|apply sparse_onlyTrue].
    eapply (consistent_level1 t Hwa i l1 v); [exact Hi | exact Hc |].
    intros x. rewrite checked_onlyTrue. apply checked_setAll.
  - rewrite (toggle_level2 t Hwa _ i l1 j l2) in Hnext by (done || lia).
    assert (next = onlyTrue (recompute (l1_id l1) (l2_id <$> l1_children l1)
                               (setAll (l2_ids l2) v prev))) as -> by congruence.
    split; [|apply sparse_onlyTrue].
    eapply (consistent_level2 t Hwa i l1 j l2 v); [exact Hi | exact Hj | exact Hc | |].
    + intros x. apply checked_setAll.
    + intros x. rewrite checked_onlyTrue. apply checked_recompute.
  - rewrite (toggle_lsi t Hwa _ i l1 j l2 k y) in Hnext by (done || lia).
    assert (next = onlyTrue (recompute (l1_id l1) (l2_id <$> l1_children l1)
                               (recompute (l2_id l2) (lsi_id <$> l2_lsi l2)
                                  (<[lsi_id y := v]> prev)))) as -> by congruence.
    split; [|apply sparse_onlyTrue].
    eapply (consistent_lsi t Hwa i l1 j l2 k y v);
      [exact Hi | exact Hj | exact Hk | exact Hc | | |].
    + intros x. apply checked_insert.
    + intros x. apply checked_recompute.
    + intros x. rewrite checked_onlyTrue. apply checked_recompute.
Qed.

Lemma toggle_returns fuel id v prev :
  id ∈ tree_ids t → 3 ≤ fuel →
  is_Some (handleSelectionChange fuel (Some t) id v prev).
Proof.
  intros Hid Hf.
  destruct (tree_ids_cases t id Hid)
    as [(i & l1 & Hi & ->)
       |[(i & l1 & j & l2 & Hi & Hj & ->)
        |(i & l1 & j & l2 & k & y & Hi & Hj & Hk & ->)]].
  - rewrite (toggle_level1 t Hwa _ i l1) by (done || lia). eauto.
  - rewrite (toggle_level2 t Hwa _ i l1 j l2) by (done || lia). eauto.
  - rewrite (toggle_lsi t Hwa _ i l1 j l2 k y) by (done || lia). eauto.
Qed.

Lemma reachable_consistent s :
  reachable t s → consistentReading t (checked s) ∧ sparse s.
Proof.
  induction 1 as [|fuel id v prev next _ [IH _] Hid Hnext].
  - split; [apply consistentReading_empty |]. intros k b. by rewrite lookup_empty.
  - by eapply toggle_consistent.
Qed.

Lemma forallb_elem {A} (f : A → bool) (l : list A) :
  forallb f l = true ↔ ∀ x, x ∈ l → f x = true.
Proof.
  rewrite forallb_forall. split; intros H x Hx; apply H; by apply list_elem_of_In.
Qed.

Lemma consistent_with_children s :
  consistentReading t (checked s) → sparse s → upwardConsistentWithChildren t s.
Proof.
  intros Hc Hs l1 [i Hi]%list_elem_of_lookup. destruct (Hc i l1 Hi) as [H1 H2]. split.
  - intros Hne. rewrite present_checked, (H1 Hne), forallb_elem by done. split.
    + intros H l2 Hl2. apply present_checked; [done |]. apply H.
      by apply list_elem_of_fmap_2.
    + intros H x (l2 & -> & Hl2)%list_elem_of_fmap.
      apply present_checked; [done |]. by apply H.
  - intros l2 [j Hj]%list_elem_of_lookup Hne.
    rewrite present_checked, (H2 j l2 Hj Hne), forallb_elem by done. split.
    + intros H y Hy. apply present_checked; [done |]. apply H.
      by apply list_elem_of_fmap_2.
    + intros H x (y & -> & Hy)%list_elem_of_fmap.
      apply present_checked; [done |]. by apply H.
Qed.

End reachable_sets.

(** * Nodes without children *)

Section addresses.
Import Str StrFacts.
Context (t : Tree) (Hwa : wellAddressed t = true).

(** The segments of the identifiers of a well-addressed tree. *)

Lemma split_level1 i l1 :
  t !! i = Some l1 → split dash (l1_id l1) = ["l1"; dec i].
Proof. intros Hi. rewrite (wa_l1 t Hwa _ _ Hi). apply path_idL1. Qed.

Lemma split_level2 i l1 j l2 :
  t !! i = Some l1 → l1_children l1 !! j = Some l2 →
  split dash (l2_id l2) = ["l1"; dec i; "l2"; dec j].
Proof.
  intros Hi Hj. by rewrite (wa_l2 t Hwa _ _ _ _ Hi Hj), path_idL2, (split_level1 i l1).
Qed.

Lemma split_lsi i l1 j l2 k y :
  t !! i = Some l1 → l1_children l1 !! j = Some l2 → l2_lsi l2 !! k = Some y →
  split dash (lsi_id y) = ["l1"; dec i; "l2"; dec j; "lsi"; dec k].
Proof.
  intros Hi Hj Hk.
  by rewrite (wa_lsi t Hwa _ _ _ _ _ _ Hi Hj Hk), path_idLsi, (split_level2 i l1 j l2).
Qed.

(** A toggle reads a Level2 node without terms as the toggle of the
    node or of its parent set it, and as before after any other
    toggle. *)
Lemma childless_level2 fuel id v prev next i l1 j l2 :
  t !! i = Some l1 → l1_children l1 !! j = Some l2 → l2_lsi l2 = [] →
  id ∈ tree_ids t →
  handleSelectionChange fuel (Some t) id v prev = Some next →
  (id = l2_id l2 ∨ id = l1_id l1 → checked next (l2_id l2) = v)
  ∧ (id ≠ l2_id l2 → id ≠ l1_id l1 → checked next (l2_id l2) = checked prev (l2_id l2)).
Proof.
  intros Hi Hj Hnone Hid Hnext.
  pose proof (split_level1 i l1 Hi) as S1.
  pose proof (split_level2 i l1 j l2 Hi Hj) as S2.
  apply (handleSelectionChange_mono fuel (fuel + 3)) in Hnext; [|lia].
  destruct (tree_ids_cases t id Hid)
    as [(i' & l1' & Hi' & ->)
       |[(i' & l1' & j' & l2' & Hi' & Hj' & ->)
        |(i' & l1' & j' & l2' & k' & y & Hi' & Hj' & Hk' & ->)]].
  - pose proof (split_level1 i' l1' Hi') as S1'.
    rewrite (toggle_level1 t Hwa _ i' l1') in Hnext by (done || lia).
    assert (next = onlyTrue (setAll (l1_ids l1') v prev)) as -> by congruence.
    rewrite checked_onlyTrue, checked_setAll. split.
    + intros [E|E]; [rewrite E, S2 in S1'; discriminate S1' |].
      rewrite E, S1 in S1'. injection S1' as ->%dec_inj.
      assert (l1' = l1) as -> by congruence.
      assert (l2_id l2 ∈ l1_ids l1) as Hin.
      { apply elem_of_l1_ids. right. exists j, l2. split; [done |].
        apply elem_of_l2_ids. by left. }
      by rewrite bool_decide_eq_true_2.
    + intros _ Hne.
      assert (l2_id l2 ∉ l1_ids l1') as Hout.
      { intros [E|(j0 & l0 & Hj0 & [E|(k0 & y0 & Hk0 & E)]%elem_of_l2_ids)]%elem_of_l1_ids.
        - rewrite <- E, S2 in S1'. discriminate S1'.
        - pose proof (split_level2 i' l1' j0 l0 Hi' Hj0) as S0.
          rewrite <- E, S2 in S0. injection S0 as ->%dec_inj _.
          destruct Hne. congruence.
        - pose proof (split_lsi i' l1' j0 l0 k0 y0 Hi' Hj0 Hk0) as S0.
          rewrite <- E, S2 in S0. discriminate S0. }
      by rewrite bool_decide_eq_false_2.
  - pose proof (split_level1 i' l1' Hi') as S1'.
    pose proof (split_level2 i' l1' j' l2' Hi' Hj') as S2'.
    rewrite (toggle_level2 t Hwa _ i' l1' j' l2') in Hnext by (done || lia).
    assert (next = onlyTrue (recompute (l1_id l1') (l2_id <$> l1_children l1')
                      (setAll (l2_ids l2') v prev))) as -> by congruence.
    rewrite checked_onlyTrue, checked_recompute_ne, checked_setAll
      by (intros E; rewrite E, S1' in S2; discriminate S2).
    split.
    + intros [E|E]; [|rewrite E, S1 in S2'; discriminate S2'].
      assert (l2_id l2 ∈ l2_ids l2') as Hin
        by (rewrite <- E; apply elem_of_l2_ids; by left).
      by rewrite bool_decide_eq_true_2.
    + intros Hne _.
      assert (l2_id l2 ∉ l2_ids l2') as Hout.
      { intros [E|(k0 & y0 & Hk0 & E)]%elem_of_l2_ids; [congruence |].
        pose proof (split_lsi i' l1' j' l2' k0 y0 Hi' Hj' Hk0) as S0.
        rewrite <- E, S2 in S0. discriminate S0. }
      by rewrite bool_decide_eq_false_2.
  - pose proof (split_level1 i' l1' Hi') as S1'.
    pose proof (split_level2 i' l1' j' l2' Hi' Hj') as S2'.
    pose proof (split_lsi i' l1' j' l2' k' y Hi' Hj' Hk') as S3'.
    rewrite (toggle_lsi t Hwa _ i' l1' j' l2' k' y) in Hnext by (done || lia).
    assert (next = onlyTrue (recompute (l1_id l1') (l2_id <$> l1_children l1')
                      (recompute (l2_id l2') (lsi_id <$> l2_lsi l2')
                         (<[lsi_id y := v]> prev)))) as -> by congruence.
    assert (l2_id l2 ≠ l2_id l2') as Hother.
    { intros E. rewrite E, S2' in S2. injection S2 as ->%dec_inj ->%dec_inj.
      assert (l1' = l1) as -> by congruence.
      assert (l2' = l2) as -> by congruence.
      by rewrite Hnone in Hk'. }
    rewrite checked_onlyTrue, (checked_recompute_ne (l1_id l1')),
      (checked_recompute_ne (l2_id l2')), checked_insert
      by (done || (intros E; rewrite E, S1' in S2; discriminate S2)).
    rewrite bool_decide_eq_false_2 by (intros E; rewrite E, S3' in S2; discriminate S2).
    split; [|done].
    intros [E|E]; [rewrite E, S2 in S3' | rewrite E, S1 in S3']; discriminate S3'.
Qed.

(** The same for a Level1 node without children. *)
Lemma childless_level1 fuel id v prev next i l1 :
  t !! i = Some l1 → l1_children l1 = [] → id ∈ tree_ids t →
  handleSelectionChange fuel (Some t) id v prev = Some next →
  (id = l1_id l1 → checked next (l1_id l1) = v)
  ∧ (id ≠ l1_id l1 → checked next (l1_id l1) = checked prev (l1_id l1)).
Proof.
  intros Hi Hnone Hid Hnext.
  pose proof (split_level1 i l1 Hi) as S1.
  apply (handleSelectionChange_mono fuel (fuel + 3)) in Hnext; [|lia].
  destruct (tree_ids_cases t id Hid)
    as [(i' & l1' & Hi' & ->)
       |[(i' & l1' & j' & l2' & Hi' & Hj' & ->)
        |(i' & l1' & j' & l2' & k' & y & Hi' & Hj' & Hk' & ->)]].
  - pose proof (split_level1 i' l1' Hi') as S1'.
    rewrite (toggle_level1 t Hwa _ i' l1') in Hnext by (done || lia).
    assert (next = onlyTrue (setAll (l1_ids l1') v prev)) as -> by congruence.
    rewrite checked_onlyTrue, checked_setAll. split.
    + intros E.
      assert (l1_id l1 ∈ l1_ids l1') as Hin
        by (rewrite <- E; apply elem_of_l1_ids; by left).
      by rewrite bool_decide_eq_true_2.
    + intros Hne.
      assert (l1_id l1 ∉ l1_ids l1') as Hout.
      { intros [E|(j0 & l0 & Hj0 & [E|(k0 & y0 & Hk0 & E)]%elem_of_l2_ids)]%elem_of_l1_ids.
        - congruence.
        - pose proof (split_level2 i' l1' j0 l0 Hi' Hj0) as S0.
          rewrite <- E, S1 in S0. discriminate S0.
        - pose proof (split_lsi i' l1' j0 l0 k0 y0 Hi' Hj0 Hk0) as S0.
          rewrite <- E, S1 in S0. discriminate S0. }
      by rewrite bool_decide_eq_false_2.
  - pose proof (split_level1 i' l1' Hi') as S1'.
    pose proof (split_level2 i' l1' j' l2' Hi' Hj') as S2'.
    assert (l1_id l1 ≠ l1_id l1') as Hother.
    { intros E. rewrite E, S1' in S1. injection S1 as ->%dec_inj.
      assert (l1' = l1) as -> by congruence. by rewrite Hnone in Hj'. }
    rewrite (toggle_level2 t Hwa _ i' l1' j' l2') in Hnext by (done || lia).
    assert (next = onlyTrue (recompute (l1_id l1') (l2_id <$> l1_children l1')
                      (setAll (l2_ids l2') v prev))) as -> by congruence.
    rewrite checked_onlyTrue, checked_recompute_ne, checked_setAll by done.
    assert (l1_id l1 ∉ l2_ids l2') as Hout.
    { intros [E|(k0 & y0 & Hk0 & E)]%elem_of_l2_ids.
      - rewrite E, S2' in S1. discriminate S1.
      - pose proof (split_lsi i' l1' j' l2' k0 y0 Hi' Hj' Hk0) as S0.
        rewrite <- E, S1 in S0. discriminate S0. }
    rewrite bool_decide_eq_false_2 by done.
    split; [|done]. intros E. rewrite E, S1 in S2'. discriminate S2'.
  - pose proof (split_level1 i' l1' Hi') as S1'.
    pose proof (split_level2 i' l1' j' l2' Hi' Hj') as S2'.
    pose proof (split_lsi i' l1' j' l2' k' y Hi' Hj' Hk') as S3'.
    assert (l1_id l1 ≠ l1_id l1') as Hother.
    { intros E. rewrite E, S1' in S1. injection S1 as ->%dec_inj.
      assert (l1' = l1) as -> by congruence. by rewrite Hnone in Hj'. }
    rewrite (toggle_lsi t Hwa _ i' l1' j' l2' k' y) in Hnext by (done || lia).
    assert (next = onlyTrue (recompute (l1_id l1') (l2_id <$> l1_children l1')
                      (recompute (l2_id l2') (lsi_id <$> l2_lsi l2')
                         (<[lsi_id y := v]> prev)))) as -> by congruence.
    rewrite checked_onlyTrue, (checked_recompute_ne (l1_id l1')),
      (checked_recompute_ne (l2_id l2')), checked_insert
      by (done || (intros E; rewrite E, S2' in S1; discriminate S1)).
    rewrite bool_decide_eq_false_2 by (intros E; rewrite E, S3' in S1; discriminate S1).
    split; [|done]. intros E. rewrite E, S1 in S3'. discriminate S3'.
Qed.

End addresses.

(** C3, as the code has it. After a toggle of a node of a
    well-addressed tree, applied to a selection reachable from the empty
    one, every Level2 node with at least one term is present in the
    selection exactly when all its terms are, and every Level1 node
    with at least one child exactly when all its children are. A node
    without children is present or absent as its own toggle or the
    downward cascade from its parent last set it: a toggle of the node,
    or of the Level1 node above a Level2 node without terms, makes it
    present exactly when the new state is [true], and any other toggle
    leaves it as it was. *)
Theorem upward_consistency_with_children (t : Tree) (prev : SelectedKeywords)
    (id : string) (v : bool) (fuel : nat) :
  wellAddressed t = true → reachable t prev → id ∈ tree_ids t → 3 ≤ fuel →
  ∃ next, handleSelectionChange fuel (Some t) id v prev = Some next
          ∧ upwardConsistentWithChildren t next
          ∧ (∀ l1 l2, l1 ∈ t → l2 ∈ l1_children l1 → l2_lsi l2 = [] →
               (id = l2_id l2 ∨ id = l1_id l1 →
                (present next (l2_id l2) ↔ v = true))
               ∧ (id ≠ l2_id l2 → id ≠ l1_id l1 →
                  (present next (l2_id l2) ↔ present prev (l2_id l2))))
          ∧ (∀ l1, l1 ∈ t → l1_children l1 = [] →
               (id = l1_id l1 → (present next (l1_id l1) ↔ v = true))
               ∧ (id ≠ l1_id l1 →
                  (present next (l1_id l1) ↔ present prev (l1_id l1)))).
Proof.
  intros Hwa Hr Hid Hf.
  destruct (toggle_returns t Hwa fuel id v prev Hid Hf) as [next Hnext].
  exists next. split; [done |].
  destruct (reachable_consistent t Hwa prev Hr) as [Hc Hsp].
  destruct (toggle_consistent t Hwa fuel id v prev next Hc Hid Hnext) as [Hc' Hs].
  split; [by apply consistent_with_children |]. split.
  - intros l1 l2 [i Hi]%list_elem_of_lookup [j Hj]%list_elem_of_lookup Hnone.
    destruct (childless_level2 t Hwa fuel id v prev next i l1 j l2
                Hi Hj Hnone Hid Hnext) as [Hset Hkeep].
    rewrite !present_checked by done. split.
    + intros E. rewrite (Hset E). by destruct v.
    + intros E2 E1. by rewrite (Hkeep E2 E1).
  - intros l1 [i Hi]%list_elem_of_lookup Hnone.
    destruct (childless_level1 t Hwa fuel id v prev next i l1 Hi Hnone Hid Hnext)
      as [Hset Hkeep].
    rewrite !present_checked by done. split.
    + intros E. rewrite (Hset E). by destruct v.
    + intros E. by rewrite (Hkeep E).
Qed.

Lemma upward_consistency_with_children_witness :
  ∃ next,
    handleSelectionChange 3 (Some sampleTree) "l1-0-l2-0-lsi-0" true ∅ = Some next
    ∧ upwardConsistentWithChildren sampleTree next.
Proof.
  destruct (upward_consistency_with_children sampleTree ∅ "l1-0-l2-0-lsi-0" true 3
              eq_refl (reachable_init sampleTree)) as (next & Hnext & Hup & _).
  - vm_compute. repeat constructor.
  - lia.
  - exists next. split; [exact Hnext | exact Hup].
Defined.

(** C3, as stated, fails for a node without children: after selecting
    one term of the first Level2 node of the sample tree, its sibling
    without terms is absent although all of its (no) terms are present. *)
Lemma upward_consistency_counterexample :
  ∃ next,
    handleSelectionChange 3 (Some sampleTree) "l1-0-l2-0-lsi-0" true ∅ = Some next
    ∧ ¬ upwardConsistent sampleTree next.
Proof.
  eexists. split; [vm_compute; reflexivity |].
  intros H.
  destruct (sampleTree !! 0) as [l1|] eqn:E1; [|discriminate E1].
  destruct (l1_children l1 !! 1) as [l2|] eqn:E2;
    [|vm_compute in E1; injection E1 as <-; discriminate E2].
  vm_compute in E1. injection E1 as <-.
  vm_compute in E2. injection E2 as <-.
  destruct (H _ ltac:(apply list_elem_of_here)) as [_ H2].
  destruct (H2 _ ltac:(apply list_elem_of_further, list_elem_of_here)) as [_ H3].
  destruct H3 as [b Hb].
  - intros y Hy. by apply elem_of_nil in Hy.
  - vm_compute in Hb. discriminate Hb.
Qed.

(** * Augmentation merge *)

Section merge.
Import Str StrFacts.
Implicit Types (n : RenderLevel2Node) (newLsis : list string).

Lemma survivors_code n newLsis :
  List.filter
    (fun nl => negb (bool_decide
                       (nl ∈ (list_to_set (lsi_text <$> l2_lsi n) : gset string))))
    newLsis
  = survivors n newLsis.
Proof.
  unfold survivors. apply filter_ext. intros c. f_equal.
  apply bool_decide_ext. apply elem_of_list_to_set.
Qed.

Lemma mergeLsi_terms n newLsis :
  l2_lsi (mergeLsi n newLsis)
  = ((fun l => {| lsi_id := lsi_id l; lsi_text := lsi_text l; lsi_isNew := Some false |})
       <$> l2_lsi n)
    ++ imap (fun index text =>
               {| lsi_id := idLsi (l2_id n) (length (l2_lsi n) + index);
                  lsi_text := text;
                  lsi_isNew := Some true |})
            (survivors n newLsis).
Proof. unfold mergeLsi. cbn [l2_lsi]. by rewrite survivors_code. Qed.

Lemma mergeLsi_texts n newLsis :
  lsi_text <$> l2_lsi (mergeLsi n newLsis)
  = (lsi_text <$> l2_lsi n) ++ survivors n newLsis.
Proof.
  rewrite mergeLsi_terms, fmap_app. f_equal.
  - rewrite <- list_fmap_compose. by apply list_fmap_ext.
  - apply list_eq. intros k. rewrite list_lookup_fmap, list_lookup_imap.
    by destruct (survivors n newLsis !! k).
Qed.

Lemma elem_of_survivors n newLsis c :
  c ∈ survivors n newLsis ↔ c ∈ newLsis ∧ c ∉ (lsi_text <$> l2_lsi n).
Proof.
  unfold survivors. rewrite list_elem_of_In, filter_In, <- list_elem_of_In.
  rewrite negb_true_iff, bool_decide_eq_false. tauto.
Qed.

Lemma NoDup_List_filter {A} (f : A → bool) (l : list A) :
  NoDup l → NoDup (List.filter f l).
Proof.
  induction 1 as [|x l Hx Hl IH]; simpl; [constructor |].
  destruct (f x); [|done]. constructor; [|done].
  rewrite list_elem_of_In, filter_In, <- list_elem_of_In. tauto.
Qed.

Lemma mergeIntoMap_at t i l1 j n newLsis :
  t !! i = Some l1 → l1_children l1 !! j = Some n →
  level2At (mergeIntoMap (l1_id l1) (l2_id n) newLsis (Some t)) i j
  = Some (mergeLsi n newLsis).
Proof.
  intros Hi Hj. unfold level2At, mergeIntoMap. cbn [mbind option_bind].
  rewrite list_lookup_fmap, Hi. cbn [fmap option_fmap option_map mbind option_bind].
  rewrite String.eqb_refl. cbn [negb l1_children].
  rewrite list_lookup_fmap, Hj. cbn [fmap option_fmap option_map].
  by rewrite String.eqb_refl.
Qed.

Lemma find_child_some (cs : list RenderLevel2Node) j n :
  cs !! j = Some n →
  is_Some (List.find (fun c => String.eqb (l2_id c) (l2_id n)) cs).
Proof.
  revert j. induction cs as [|c cs IH]; intros j Hj; [done |]. simpl.
  destruct (String.eqb (l2_id c) (l2_id n)) eqn:E; [eauto |].
  destruct j as [|j]; [|by eapply IH].
  injection Hj as ->. by rewrite String.eqb_refl in E.
Qed.

End merge.

(** C6, as the code has it. When the answer [newLsis] of the generation
    service is merged into the Level2 node [n] at position [(i, j)] of
    the tree, the node there becomes one in which: every term of [n]
    is kept at its place with its identifier and text and with
    [isNew = false]; the candidates that are not the text of a term of
    [n] follow in their order, the [k]-th of them with the identifier
    [{parentId}-lsi-{existingCount + k}] and [isNew = true]; a
    candidate that is the text of a term of [n] is not appended; and if
    the texts of [n] are pairwise distinct and the candidates are
    pairwise distinct too, the texts of the merged node are pairwise
    distinct. *)
Theorem augmentation_merge (t : Tree) (i j : nat) (l1 : RenderLevel1Node)
    (n : RenderLevel2Node) (newLsis : list string) :
  t !! i = Some l1 → l1_children l1 !! j = Some n →
  ∃ n',
    level2At (handleGenerateLsi (Some t) true l1 (l2_id n) newLsis (Some t)) i j
      = Some n'
    ∧ length (l2_lsi n') = length (l2_lsi n) + length (survivors n newLsis)
    ∧ (∀ k y, l2_lsi n !! k = Some y →
         l2_lsi n' !! k
         = Some {| lsi_id := lsi_id y; lsi_text := lsi_text y; lsi_isNew := Some false |})
    ∧ (∀ k c, survivors n newLsis !! k = Some c →
         l2_lsi n' !! (length (l2_lsi n) + k)
         = Some {| lsi_id := l2_id n +:+ "-lsi-" +:+ Str.dec (length (l2_lsi n) + k);
                   lsi_text := c;
                   lsi_isNew := Some true |})
    ∧ (∀ c, c ∈ survivors n newLsis ↔ c ∈ newLsis ∧ c ∉ (lsi_text <$> l2_lsi n))
    ∧ (NoDup (lsi_text <$> l2_lsi n) → NoDup newLsis →
       NoDup (lsi_text <$> l2_lsi n')).
Proof.
  intros Hi Hj. exists (mergeLsi n newLsis). split.
  { unfold handleGenerateLsi.
    destruct (find_child_some _ _ _ Hj) as [c ->]. by apply mergeIntoMap_at. }
  rewrite mergeLsi_texts, mergeLsi_terms. split; [|split; [|split; [|split]]].
  - by rewrite length_app, length_fmap, length_imap.
  - intros k y Hk. rewrite lookup_app_l by (rewrite length_fmap; by eapply lookup_lt_Some).
    by rewrite list_lookup_fmap, Hk.
  - intros k c Hk.
    replace (length (l2_lsi n)) with
      (length ((fun l => {| lsi_id := lsi_id l; lsi_text := lsi_text l;
                            lsi_isNew := Some false |}) <$> l2_lsi n)) at 1
      by apply length_fmap.
    rewrite lookup_app_r by lia. rewrite Nat.add_comm, Nat.add_sub.
    by rewrite list_lookup_imap, Hk.
  - apply elem_of_survivors.
  - intros Hn Hc. apply NoDup_app. split; [done |]. split.
    + intros c Hin Hs. by apply elem_of_survivors in Hs as [_ Hs].
    + by apply NoDup_List_filter.
Qed.

Lemma augmentation_merge_witness :
  ∃ n',
    level2At (handleGenerateLsi (Some sampleTree) true
                {| l1_id := "l1-1"; l1_keyword := "B"; l1_type := "对比型";
                   l1_pageType := "Hub/Category Pages";
                   l1_children :=
                     [ {| l2_id := "l1-1-l2-0"; l2_keyword := "B1";
                          l2_type := "决策型 (Decision)";
                          l2_lsi := [ {| lsi_id := "l1-1-l2-0-lsi-0"; lsi_text := "u";
                                         lsi_isNew := None |} ] |} ] |}
                "l1-1-l2-0" ["u"; "w"] (Some sampleTree)) 1 0 = Some n'
    ∧ length (l2_lsi n') = 2.
Proof.
  destruct (augmentation_merge sampleTree 1 0 _ _ ["u"; "w"] eq_refl eq_refl)
    as (n' & Hn & Hlen & _).
  exists n'. split; [exact Hn | exact Hlen].
Defined.

(** C6, as stated, fails when the candidates repeat a text: both copies
    are appended. *)
Lemma augmentation_merge_counterexample :
  ∃ l1 n n',
    sampleTree !! 0 = Some l1 ∧ l1_children l1 !! 1 = Some n
    ∧ NoDup (lsi_text <$> l2_lsi n)
    ∧ level2At (handleGenerateLsi (Some sampleTree) true l1 (l2_id n) ["x"; "x"]
                  (Some sampleTree)) 0 1 = Some n'
    ∧ ¬ NoDup (lsi_text <$> l2_lsi n').
Proof.
  do 3 eexists. split; [reflexivity |]. split; [reflexivity |].
  split; [constructor |]. split; [vm_compute; reflexivity |].
  vm_compute. intros H. apply NoDup_cons in H as [H _]. apply H. constructor.
Qed.

(** * Filter view *)

Section filter.

Lemma filteredKeywordMap_noFilters (km : option Tree) :
  filteredKeywordMap km noFilters = km.
Proof. by destruct km. Qed.

(** A filtered view is a part of the tree: each of its Level1 nodes is
    a Level1 node of the tree with some of its children. *)
Lemma filteredKeywordMap_part (m m' : Tree) (f : FilterState) l1' :
  filteredKeywordMap (Some m) f = Some m' → l1' ∈ m' →
  ∃ l1, l1 ∈ m ∧ l1_id l1' = l1_id l1 ∧ l1_keyword l1' = l1_keyword l1
        ∧ l1_type l1' = l1_type l1 ∧ l1_pageType l1' = l1_pageType l1
        ∧ ∀ l2, l2 ∈ l1_children l1' → l2 ∈ l1_children l1.
Proof.
  unfold filteredKeywordMap.
  destruct (negb _ && negb _ && negb _).
  - intros [= <-] Hin. exists l1'. by repeat split.
  - intros [= <-]. rewrite list_elem_of_In, filter_In, <- list_elem_of_In.
    intros [(l1 & -> & Hl1)%list_elem_of_fmap _]. exists l1. cbn.
    repeat split; try done.
    intros l2. destruct (Str.truthy (userBehavior f)); [|done].
    rewrite list_elem_of_In, filter_In, <- list_elem_of_In. tauto.
Qed.

End filter.

(** ** The filter over the store *)

Section store.
Import Heap.
Implicit Types (h : Store) (f : FilterState).

Lemma alloc_spec o h h' l :
  alloc o h = (h', l) → h ⊆ h' ∧ h' !! l = Some o.
Proof.
  unfold alloc. intros [= <- <-]. split; [|by rewrite lookup_insert_eq].
  apply insert_subseteq, not_elem_of_dom, is_fresh.
Qed.

Lemma reprLevel2s_mono h h' cs l2s :
  h ⊆ h' → reprLevel2s h cs l2s → reprLevel2s h' cs l2s.
Proof.
  intros Hsub H. unfold reprLevel2s. eapply Forall2_impl; [exact H |].
  intros l node Hl. cbn beta in *. by apply (lookup_weaken h h').
Qed.

Lemma reprLevel1_mono h h' l l1 :
  h ⊆ h' → reprLevel1 h l l1 → reprLevel1 h' l l1.
Proof.
  intros Hsub (c & cs & Hl & Hc & Hcs). exists c, cs.
  split; [by eapply (lookup_weaken h h') |]. split; [by eapply (lookup_weaken h h') |].
  by eapply reprLevel2s_mono.
Qed.

Lemma reprTree_mono h h' l t :
  h ⊆ h' → reprTree h l t → reprTree h' l t.
Proof.
  intros Hsub (ls & Hl & Hls). exists ls. split; [by apply (lookup_weaken h h') |].
  eapply Forall2_impl; [exact Hls |]. intros. by eapply reprLevel1_mono.
Qed.

Lemma keepStage_spec ub h cs l2s :
  reprLevel2s h cs l2s →
  ∃ kept, keepStage ub h cs = Some kept
          ∧ reprLevel2s h kept
              (List.filter (fun l2 => Str.startsWith (l2_type l2) ub) l2s).
Proof.
  unfold reprLevel2s. induction 1 as [|l node cs l2s Hl _ (kept & Hk & IH)].
  - exists []. split; [done | constructor].
  - cbn [keepStage List.filter]. rewrite Hl, Hk.
    destruct (Str.startsWith (l2_type node) ub); eexists; (split; [done |]);
      [by constructor | done].
Qed.

(** The copy the callback of [map] makes stands for the node with the
    children the stage criterion keeps. *)
Lemma copyLevel1_spec f h l l1 :
  reprLevel1 h l l1 →
  ∃ h' copy,
    copyLevel1 (userBehavior f) h l = Some (h', copy) ∧ h ⊆ h'
    ∧ reprLevel1 h' copy
        {| l1_id := l1_id l1; l1_keyword := l1_keyword l1;
           l1_type := l1_type l1; l1_pageType := l1_pageType l1;
           l1_children :=
             if Str.truthy (userBehavior f)
             then List.filter
                    (fun l2 => Str.startsWith (l2_type l2) (userBehavior f))
                    (l1_children l1)
             else l1_children l1 |}.
Proof.
  intros (c & cs & Hl & Hc & Hcs). unfold copyLevel1. rewrite Hl.
  destruct (Str.truthy (userBehavior f)).
  - rewrite Hc. destruct (keepStage_spec (userBehavior f) h cs _ Hcs) as (kept & -> & Hk).
    destruct (alloc (Arr kept) h) as [h1 c'] eqn:E1.
    destruct (alloc_spec _ _ _ _ E1) as [Hsub1 Hc'].
    destruct (alloc (L1 _ _ _ _ c') h1) as [h2 copy] eqn:E2.
    destruct (alloc_spec _ _ _ _ E2) as [Hsub2 Hcopy].
    exists h2, copy. split; [done |]. split; [by etrans |].
    exists c', kept. split; [done |]. split; [by apply (lookup_weaken h1 h2) |].
    eapply reprLevel2s_mono; [|exact Hk]. by etrans.
  - destruct (alloc (L1 _ _ _ _ c) h) as [h1 copy] eqn:E1.
    destruct (alloc_spec _ _ _ _ E1) as [Hsub1 Hcopy].
    exists h1, copy. split; [done |]. split; [done |].
    exists c, cs. split; [done |]. split; [by apply (lookup_weaken h h1) |].
    by eapply reprLevel2s_mono.
Qed.

Lemma mapLevel1_spec f h ls t :
  Forall2 (reprLevel1 h) ls t →
  ∃ h' copies,
    mapLevel1 (userBehavior f) h ls = Some (h', copies) ∧ h ⊆ h'
    ∧ Forall2 (reprLevel1 h') copies
        ((fun l1 =>
            {| l1_id := l1_id l1; l1_keyword := l1_keyword l1;
               l1_type := l1_type l1; l1_pageType := l1_pageType l1;
               l1_children :=
                 if Str.truthy (userBehavior f)
                 then List.filter
                        (fun l2 => Str.startsWith (l2_type l2) (userBehavior f))
                        (l1_children l1)
                 else l1_children l1 |}) <$> t).
Proof.
  intros H. revert h H. revert ls. induction t as [|l1 t IH]; intros ls h H.
  - apply Forall2_nil_inv_r in H as ->. exists h, []. split; [done |].
    split; [done | constructor].
  - apply Forall2_cons_inv_r in H as (l & ls' & Hl & Hls & ->).
    cbn [mapLevel1]. destruct (copyLevel1_spec f h l l1 Hl) as (h1 & copy & -> & Hsub1 & Hcopy).
    destruct (IH ls' h1) as (h2 & copies & -> & Hsub2 & Hcopies).
    { eapply Forall2_impl; [exact Hls |]. intros. by eapply reprLevel1_mono. }
    exists h2, (copy :: copies). split; [done |]. split; [by etrans |].
    rewrite fmap_cons. constructor; [by eapply reprLevel1_mono | done].
Qed.

Lemma keepLevel1_spec f h ls (t : Tree) :
  Forall2 (reprLevel1 h) ls t →
  ∃ kept,
    keepLevel1 (category f) (pageType f) h ls = Some kept
    ∧ Forall2 (reprLevel1 h) kept
        (List.filter
           (fun l1 =>
              let categoryMatch :=
                negb (Str.truthy (category f))
                || String.eqb (l1_type l1) (category f) in
              let pageTypeMatch :=
                negb (Str.truthy (pageType f))
                || bool_decide (PAGE_TYPE_MAP !! l1_pageType l1 = Some (pageType f)) in
              let hasChildren := (0 <? length (l1_children l1))%nat in
              categoryMatch && pageTypeMatch && hasChildren)
           t).
Proof.
  induction 1 as [|l l1 ls t Hl _ (kept & Hk & IH)].
  - exists []. split; [done | constructor].
  - cbn [keepLevel1 List.filter]. pose proof Hl as (c & cs & Hl1 & Hc & Hcs).
    rewrite Hl1, Hc, Hk. cbn zeta.
    rewrite (Forall2_length _ _ _ Hcs).
    destruct (_ && _ && _); eexists; (split; [done |]); [by constructor | done].
Qed.

End store.

(** C7. Applying the filter writes to no object there is: the run of
    [filteredKeywordMap] under any criteria, over a store that holds the
    tree, leaves every object of the store as it was, the objects of the
    tree and the selection among them, and returns a reference to new
    objects that stand for the filtered view; the tree still reads as
    before; and applying the empty criteria afterwards returns the tree
    itself. *)
Theorem filter_non_mutation (h : Heap.Store) (keywordMap : nat) (t : Tree)
    (criteria : FilterState) :
  Heap.reprTree h keywordMap t →
  ∃ h' r,
    Heap.filteredKeywordMap h (Some keywordMap) criteria = Some (h', r)
    ∧ (∀ l o, h !! l = Some o → h' !! l = Some o)
    ∧ Heap.reprView h' r (filteredKeywordMap (Some t) criteria)
    ∧ Heap.reprTree h' keywordMap t
    ∧ Heap.filteredKeywordMap h' (Some keywordMap) noFilters
      = Some (h', Some keywordMap).
Proof.
  intros Ht. unfold Heap.filteredKeywordMap, filteredKeywordMap.
  destruct (negb _ && negb _ && negb _) eqn:Ef.
  { exists h, (Some keywordMap). by repeat split. }
  destruct Ht as (ls & Hkm & Hls). rewrite Hkm.
  destruct (mapLevel1_spec criteria h ls t Hls) as (h1 & copies & -> & Hsub1 & Hcopies).
  destruct (Heap.alloc (Heap.Arr copies) h1) as [h2 mapped] eqn:E2.
  destruct (alloc_spec _ _ _ _ E2) as [Hsub2 _].
  eapply Forall2_impl in Hcopies; [|intros l l1; apply (reprLevel1_mono h1 h2 l l1 Hsub2)].
  destruct (keepLevel1_spec criteria h2 copies _ Hcopies) as (kept & -> & Hkept).
  destruct (Heap.alloc (Heap.Arr kept) h2) as [h3 result] eqn:E3.
  destruct (alloc_spec _ _ _ _ E3) as [Hsub3 Hresult].
  assert (h ⊆ h3) as Hsub by (etrans; [exact Hsub1 |]; by etrans).
  exists h3, (Some result). split; [done |]. split; [|split; [|split; [|done]]].
  - intros l o Hl. by eapply lookup_weaken.
  - cbn [Heap.reprView]. exists kept. split; [done |].
    eapply Forall2_impl; [exact Hkept |].
    intros l l1. apply (reprLevel1_mono h2 h3 l l1 Hsub3).
  - apply (reprTree_mono h h3); [done |]. by exists ls.
Qed.

Lemma filter_non_mutation_witness :
  ∃ h' r,
    Heap.filteredKeywordMap Heap.sampleStore (Some 3)
      {| category := ""; pageType := ""; userBehavior := "决策型" |} = Some (h', r)
    ∧ ∀ l o, Heap.sampleStore !! l = Some o → h' !! l = Some o.
Proof.
  destruct (filter_non_mutation Heap.sampleStore 3 Heap.sampleStored
              {| category := ""; pageType := ""; userBehavior := "决策型" |})
    as (h' & r & Hrun & Hkept & _).
  - exists [2]. split; [reflexivity |].
    constructor; [|constructor]. exists 1, [0]. split; [reflexivity |].
    split; [reflexivity |]. constructor; [reflexivity | constructor].
  - exists h', r. split; [exact Hrun | exact Hkept].
Defined.

(** * Pruning *)

Section pruning.
Import Str StrFacts.
Context (t : Tree) (Hwa : wellAddressed t = true).
Implicit Types (sel : SelectedKeywords).

Lemma no_key_starts sel id k :
  someKeyStartsWith sel id = false → checked sel k = true → startsWith k id = false.
Proof.
  unfold someKeyStartsWith, checked. intros Hn Hk.
  destruct (sel !! k) as [[|]|] eqn:E; try done.
  destruct (startsWith k id) eqn:Es; [|done].
  assert (existsb (fun key => startsWith key id) (map_to_list sel).*1 = true) as Hex.
  { apply existsb_exists. exists k. split; [|done].
    apply list_elem_of_In, list_elem_of_fmap. exists (k, true). split; [done |].
    by apply elem_of_map_to_list. }
  congruence.
Qed.

Lemma filter_nil_of_all_false {A} (f : A → bool) (l : list A) :
  (∀ x, x ∈ l → f x = false) → List.filter f l = [].
Proof.
  induction l as [|a l IH]; intros H; simpl; [done |].
  rewrite (H a) by set_solver. apply IH. set_solver.
Qed.

Lemma omap_nil_of_all_none {A B} (f : A → option B) (l : list A) :
  (∀ x, x ∈ l → f x = None) → omap f l = [].
Proof.
  induction l as [|a l IH]; intros H; simpl; [done |].
  rewrite (H a) by set_solver. apply IH. set_solver.
Qed.

Lemma retainLevel2_none sel l2 q :
  (∀ x, x ∈ l2_ids l2 → startsWith x q = true) →
  someKeyStartsWith sel q = false → retainLevel2 sel l2 = None.
Proof.
  intros Hq Hn. unfold retainLevel2, retainTerms.
  assert (∀ x, x ∈ l2_ids l2 → checked sel x = false) as Hc.
  { intros x Hx. destruct (checked sel x) eqn:E; [|done].
    pose proof (no_key_starts _ _ _ Hn E) as H. by rewrite Hq in H. }
  rewrite Hc by (apply elem_of_l2_ids; by left).
  rewrite filter_nil_of_all_false; [done |].
  intros y [k Hk]%list_elem_of_lookup. apply Hc, elem_of_l2_ids. right. eauto.
Qed.

Lemma retainLevel1_none sel l1 :
  (∀ x, x ∈ l1_ids l1 → startsWith x (l1_id l1) = true) →
  someKeyStartsWith sel (l1_id l1) = false → retainLevel1 sel l1 = None.
Proof.
  intros Hq Hn. unfold retainLevel1.
  destruct (checked sel (l1_id l1)) eqn:E.
  { pose proof (no_key_starts _ _ _ Hn E) as H. by rewrite startsWith_refl in H. }
  rewrite omap_nil_of_all_none; [done |].
  intros l2 [j Hj]%list_elem_of_lookup. eapply retainLevel2_none; [|done].
  intros x Hx. apply Hq, elem_of_l1_ids. right. eauto.
Qed.

(** The identifiers of a subtree start with the identifier of its root. *)
Lemma l2_ids_start i l1 j l2 x :
  t !! i = Some l1 → l1_children l1 !! j = Some l2 →
  x ∈ l2_ids l2 → startsWith x (l2_id l2) = true.
Proof.
  intros Hi Hj [->|(k & y & Hk & ->)]%elem_of_l2_ids.
  - apply startsWith_refl.
  - rewrite (wa_lsi t Hwa _ _ _ _ _ _ Hi Hj Hk). apply startsWith_app.
Qed.

Lemma l1_ids_start i l1 x :
  t !! i = Some l1 → x ∈ l1_ids l1 → startsWith x (l1_id l1) = true.
Proof.
  intros Hi [->|(j & l2 & Hj & Hx)]%elem_of_l1_ids.
  - apply startsWith_refl.
  - eapply startsWith_trans; [by eapply l2_ids_start |].
    rewrite (wa_l2 t Hwa _ _ _ _ Hi Hj). apply startsWith_app.
Qed.

Lemma pruneLevel2_retain sel acc l2 :
  (someKeyStartsWith sel (l2_id l2) = false → retainLevel2 sel l2 = None) →
  (pruneLevel2 sel acc l2).1 = acc.1 ++ option_list (retainLevel2 sel l2).
Proof.
  intros Hg. destruct acc as [cs ids]. unfold pruneLevel2.
  destruct (someKeyStartsWith sel (l2_id l2)) eqn:E; cbn [negb].
  - unfold retainLevel2, retainTerms.
    destruct (checked sel (l2_id l2) || _); cbn; [done | by rewrite List.app_nil_r].
  - rewrite (Hg eq_refl). cbn. by rewrite List.app_nil_r.
Qed.

Lemma omap_cons_list {A B} (f : A → option B) (a : A) (l : list A) :
  omap f (a :: l) = option_list (f a) ++ omap f l.
Proof. cbn. by destruct (f a). Qed.

Lemma fold_pruneLevel2 sel cs acc :
  (∀ l2, l2 ∈ cs → someKeyStartsWith sel (l2_id l2) = false → retainLevel2 sel l2 = None) →
  (foldl (pruneLevel2 sel) acc cs).1 = acc.1 ++ omap (retainLevel2 sel) cs.
Proof.
  revert acc. induction cs as [|c cs IH]; intros acc Hg.
  - cbn. by rewrite List.app_nil_r.
  - cbn [foldl]. rewrite IH by (intros; apply Hg; set_solver).
    rewrite pruneLevel2_retain by (apply Hg; set_solver).
    by rewrite omap_cons_list, List.app_assoc.
Qed.

Lemma pruneLevel1_retain sel acc l1 :
  (∀ l2, l2 ∈ l1_children l1 →
     someKeyStartsWith sel (l2_id l2) = false → retainLevel2 sel l2 = None) →
  (someKeyStartsWith sel (l1_id l1) = false → retainLevel1 sel l1 = None) →
  (pruneLevel1 sel acc l1).1 = acc.1 ++ option_list (retainLevel1 sel l1).
Proof.
  intros Hg2 Hg1. destruct acc as [hs ids]. unfold pruneLevel1.
  destruct (someKeyStartsWith sel (l1_id l1)) eqn:E; cbn [negb].
  - pose proof (fold_pruneLevel2 sel (l1_children l1) ([], ids) Hg2) as Hf.
    destruct (foldl (pruneLevel2 sel) ([], ids) (l1_children l1)) as [cs ids'].
    cbn in Hf. subst cs. unfold retainLevel1.
    destruct (checked sel (l1_id l1) || _); cbn; [done | by rewrite List.app_nil_r].
  - rewrite (Hg1 eq_refl). cbn. by rewrite List.app_nil_r.
Qed.

Lemma fold_pruneLevel1 sel ls acc :
  (∀ l1, l1 ∈ ls →
     (∀ l2, l2 ∈ l1_children l1 →
        someKeyStartsWith sel (l2_id l2) = false → retainLevel2 sel l2 = None)
     ∧ (someKeyStartsWith sel (l1_id l1) = false → retainLevel1 sel l1 = None)) →
  (foldl (pruneLevel1 sel) acc ls).1 = acc.1 ++ omap (retainLevel1 sel) ls.
Proof.
  revert acc. induction ls as [|l ls IH]; intros acc Hg.
  - cbn. by rewrite List.app_nil_r.
  - cbn [foldl]. rewrite IH by (intros; apply Hg; set_solver).
    destruct (Hg l ltac:(set_solver)) as [Hg2 Hg1].
    rewrite pruneLevel1_retain by done.
    by rewrite omap_cons_list, List.app_assoc.
Qed.

(** The code prunes as the specification says. *)
Lemma pruneHierarchy_spec sel :
  (pruneHierarchy (Some t) sel).1 = prunedAsSpecified sel t.
Proof.
  unfold pruneHierarchy, prunedAsSpecified. cbn [default].
  rewrite fold_pruneLevel1; [done |].
  intros l1 [i Hi]%list_elem_of_lookup. split.
  - intros l2 [j Hj]%list_elem_of_lookup. apply retainLevel2_none.
    intros x Hx. by eapply l2_ids_start.
  - apply retainLevel1_none. intros x Hx. by eapply l1_ids_start.
Qed.

End pruning.

Section retained.
Import Str StrFacts.
Context (t : Tree) (Hwa : wellAddressed t = true).
Implicit Types (sel : SelectedKeywords).

Lemma level1_unique l1 l1' :
  l1 ∈ t → l1' ∈ t → l1_id l1 = l1_id l1' → l1 = l1'.
Proof.
  intros [i Hi]%list_elem_of_lookup [i' Hi']%list_elem_of_lookup E.
  assert (i = i') as ->; [|congruence].
  destruct (decide (i = i')) as [|Hne]; [done |]. exfalso.
  eapply (other_level1 t Hwa i l1 i' l1'); [done | done | done | apply under_refl |].
  rewrite E. apply under_refl.
Qed.

Lemma level2_unique l1 l1' l2 l2' :
  l1 ∈ t → l1' ∈ t → l2 ∈ l1_children l1 → l2' ∈ l1_children l1' →
  l2_id l2 = l2_id l2' → l1 = l1' ∧ l2 = l2'.
Proof.
  intros [i Hi]%list_elem_of_lookup [i' Hi']%list_elem_of_lookup
         [j Hj]%list_elem_of_lookup [j' Hj']%list_elem_of_lookup E.
  assert (i = i') as ->.
  { destruct (decide (i = i')) as [|Hne]; [done |]. exfalso.
    eapply (other_level1 t Hwa i l1 i' l1'); [done | done | done | |].
    - by eapply level2_under.
    - rewrite E. by eapply level2_under. }
  assert (l1 = l1') as <- by congruence. split; [done |].
  assert (j = j') as ->; [|congruence].
  destruct (decide (j = j')) as [|Hne]; [done |]. exfalso.
  eapply (other_level2 t Hwa _ l1 j l2 j' l2'); [done | done | done | done | |].
  - apply under_refl.
  - rewrite E. apply under_refl.
Qed.

Lemma retainTerms_elem sel l2 e :
  e ∈ retainTerms sel l2 ↔
  ∃ y, y ∈ l2_lsi l2 ∧ checked sel (lsi_id y) = true
       ∧ e = {| saved_lsi_id := lsi_id y; saved_lsi_text := lsi_text y |}.
Proof.
  unfold retainTerms. rewrite list_elem_of_fmap. split.
  - intros (y & -> & Hy). apply list_elem_of_In, filter_In in Hy as [Hy Hc].
    exists y. by rewrite list_elem_of_In.
  - intros (y & Hy & Hc & ->). exists y. split; [done |].
    apply list_elem_of_In, filter_In. by rewrite <- list_elem_of_In.
Qed.

Lemma length_pos_elem {A} (l : list A) : (0 <? length l)%nat = true ↔ ∃ x, x ∈ l.
Proof.
  rewrite Nat.ltb_lt. destruct l as [|a l]; simpl.
  - split; [lia | intros [x Hx]; by apply elem_of_nil in Hx].
  - split; [intros _; exists a; constructor | lia].
Qed.

Lemma retainLevel2_some sel l2 s2 :
  retainLevel2 sel l2 = Some s2 ↔
  (checked sel (l2_id l2) = true ∨ ∃ y, y ∈ l2_lsi l2 ∧ checked sel (lsi_id y) = true)
  ∧ s2 = {| s2_id := l2_id l2; s2_keyword := l2_keyword l2;
            s2_type := l2_type l2; s2_lsi := retainTerms sel l2 |}.
Proof.
  unfold retainLevel2.
  destruct (checked sel (l2_id l2) || (0 <? length (retainTerms sel l2))%nat) eqn:E.
  - apply orb_true_iff in E. split.
    + intros [= <-]. split; [|done]. destruct E as [E|E]; [by left | right].
      apply length_pos_elem in E as [e (y & Hy & Hc & _)%retainTerms_elem]. eauto.
    + by intros [_ ->].
  - apply orb_false_iff in E as [E1 E2]. split; [done |].
    intros [[H|(y & Hy & Hc)] _]; [congruence |].
    assert ((0 <? length (retainTerms sel l2))%nat = true); [|congruence].
    apply length_pos_elem. eexists. apply retainTerms_elem. eauto.
Qed.

Lemma retainLevel1_some sel l1 s1 :
  retainLevel1 sel l1 = Some s1 ↔
  (checked sel (l1_id l1) = true
   ∨ ∃ l2, l2 ∈ l1_children l1 ∧ is_Some (retainLevel2 sel l2))
  ∧ s1 = {| s1_id := l1_id l1; s1_keyword := l1_keyword l1;
            s1_type := l1_type l1; s1_pageType := l1_pageType l1;
            s1_children := omap (retainLevel2 sel) (l1_children l1) |}.
Proof.
  unfold retainLevel1.
  destruct (checked sel (l1_id l1)
            || (0 <? length (omap (retainLevel2 sel) (l1_children l1)))%nat) eqn:E.
  - apply orb_true_iff in E. split.
    + intros [= <-]. split; [|done]. destruct E as [E|E]; [by left | right].
      apply length_pos_elem in E as [s2 (l2 & Hl2 & Hs2)%list_elem_of_omap]. eauto.
    + by intros [_ ->].
  - apply orb_false_iff in E as [E1 E2]. split; [done |].
    intros [[H|(l2 & Hl2 & [s2 Hs2])] _]; [congruence |].
    assert ((0 <? length (omap (retainLevel2 sel) (l1_children l1)))%nat = true);
      [|congruence].
    apply length_pos_elem. exists s2. apply list_elem_of_omap. eauto.
Qed.

Lemma holdsTerm_spec sel l1 l2 y :
  l1 ∈ t → l2 ∈ l1_children l1 → y ∈ l2_lsi l2 →
  holdsTerm (prunedAsSpecified sel t) (lsi_id y) ↔ checked sel (lsi_id y) = true.
Proof.
  intros Hl1 Hl2 Hy. unfold holdsTerm, prunedAsSpecified. split.
  - intros (s1 & s2 & e & (l1' & _ & [_ ->]%retainLevel1_some)%list_elem_of_omap
              & Hs2 & He & E).
    cbn in Hs2. apply list_elem_of_omap in Hs2 as (l2' & _ & [_ ->]%retainLevel2_some).
    cbn in He. apply retainTerms_elem in He as (y' & _ & Hc & ->). cbn in E.
    by rewrite <- E.
  - intros Hc.
    assert (∃ s2, retainLevel2 sel l2 = Some s2) as [s2 Hs2].
    { eexists. apply retainLevel2_some. split; [|done]. right. eauto. }
    assert (∃ s1, retainLevel1 sel l1 = Some s1) as [s1 Hs1].
    { eexists. apply retainLevel1_some. split; [|done]. right. eauto. }
    exists s1, s2, {| saved_lsi_id := lsi_id y; saved_lsi_text := lsi_text y |}.
    split; [apply list_elem_of_omap; eauto |].
    apply retainLevel1_some in Hs1 as [_ ->]. cbn.
    split; [apply list_elem_of_omap; eauto |].
    apply retainLevel2_some in Hs2 as [_ ->]. cbn.
    split; [|done]. apply retainTerms_elem. eauto.
Qed.

Lemma holdsLevel2_spec sel l1 l2 :
  l1 ∈ t → l2 ∈ l1_children l1 →
  holdsLevel2 (prunedAsSpecified sel t) (l2_id l2) ↔
  checked sel (l2_id l2) = true
  ∨ ∃ y, y ∈ l2_lsi l2 ∧ holdsTerm (prunedAsSpecified sel t) (lsi_id y).
Proof.
  intros Hl1 Hl2.
  assert (holdsLevel2 (prunedAsSpecified sel t) (l2_id l2)
          ↔ is_Some (retainLevel2 sel l2)) as ->.
  { unfold holdsLevel2, prunedAsSpecified. split.
    - intros (s1 & s2 & (l1' & Hl1' & [_ ->]%retainLevel1_some)%list_elem_of_omap
                & Hs2 & E).
      cbn in Hs2. apply list_elem_of_omap in Hs2 as (l2' & Hl2' & Hs2).
      pose proof Hs2 as [_ ->]%retainLevel2_some. cbn in E.
      destruct (level2_unique l1' l1 l2' l2) as [_ ->]; eauto.
    - intros [s2 Hs2].
      assert (∃ s1, retainLevel1 sel l1 = Some s1) as [s1 Hs1].
      { eexists. apply retainLevel1_some. split; [|done]. right. eauto. }
      exists s1, s2. split; [apply list_elem_of_omap; eauto |].
      apply retainLevel1_some in Hs1 as [_ ->]. cbn.
      split; [apply list_elem_of_omap; eauto |].
      by apply retainLevel2_some in Hs2 as [_ ->]. }
  split.
  - intros [s2 [[H|(y & Hy & Hc)] _]%retainLevel2_some]; [by left | right].
    exists y. split; [done |]. by apply (holdsTerm_spec sel l1 l2 y).
  - intros H. eexists. apply retainLevel2_some. split; [|done].
    destruct H as [H|(y & Hy & Hc)]; [by left | right].
    exists y. split; [done |]. by apply (holdsTerm_spec sel l1 l2 y).
Qed.

Lemma holdsLevel1_spec sel l1 :
  l1 ∈ t →
  holdsLevel1 (prunedAsSpecified sel t) (l1_id l1) ↔
  checked sel (l1_id l1) = true
  ∨ ∃ l2, l2 ∈ l1_children l1 ∧ holdsLevel2 (prunedAsSpecified sel t) (l2_id l2).
Proof.
  intros Hl1.
  assert (∀ l2, l2 ∈ l1_children l1 →
    holdsLevel2 (prunedAsSpecified sel t) (l2_id l2)
    ↔ is_Some (retainLevel2 sel l2)) as H2.
  { intros l2 Hl2. rewrite holdsLevel2_spec by done. split.
    - intros H. eexists. apply retainLevel2_some. split; [|done].
      destruct H as [H|(y & Hy & Hc)]; [by left | right].
      exists y. split; [done |]. by apply (holdsTerm_spec sel l1 l2 y).
    - intros [s2 [[H|(y & Hy & Hc)] _]%retainLevel2_some]; [by left | right].
      exists y. split; [done |]. by apply (holdsTerm_spec sel l1 l2 y). }
  assert (holdsLevel1 (prunedAsSpecified sel t) (l1_id l1)
          ↔ is_Some (retainLevel1 sel l1)) as ->.
  { unfold holdsLevel1, prunedAsSpecified. split.
    - intros (s1 & (l1' & Hl1' & Hs1)%list_elem_of_omap & E).
      pose proof Hs1 as [_ ->]%retainLevel1_some. cbn in E.
      rewrite <- (level1_unique l1' l1); eauto.
    - intros [s1 Hs1]. exists s1. split; [apply list_elem_of_omap; eauto |].
      by apply retainLevel1_some in Hs1 as [_ ->]. }
  split.
  - intros [s1 [[H|(l2 & Hl2 & Hs)] _]%retainLevel1_some]; [by left | right].
    exists l2. split; [done |]. by apply H2.
  - intros H. eexists. apply retainLevel1_some. split; [|done].
    destruct H as [H|(l2 & Hl2 & Hs)]; [by left | right].
    exists l2. split; [done |]. by apply H2.
Qed.

End retained.

(** * The save handler *)

Section save.
Import Str StrFacts.
Implicit Types (st : SaveState) (be : Backend) (sp : KeywordSubProject).

Lemma saveUnderParent_inserts st be parent done sp u :
  InsertIntoKeywordLibrary sp u ∈ saveUnderParent st be parent done →
  InsertIntoKeywordLibrary sp u ∈ done ∨ recordOf st parent sp.
Proof.
  unfold saveUnderParent, recordOf.
  destruct (truthy (trim (subProjectName st))) eqn:E1; cbn [negb orb].
  2:{ rewrite elem_of_app, list_elem_of_singleton. intros [?|?]; [by left | done]. }
  destruct (truthy parent) eqn:E2; cbn [negb].
  2:{ rewrite elem_of_app, list_elem_of_singleton. intros [?|?]; [by left | done]. }
  destruct (pruneHierarchy (keywordMap st) (selectedKeywords st)) as [hs ids] eqn:E3.
  destruct (length hs =? 0)%nat eqn:E4.
  { rewrite elem_of_app, list_elem_of_singleton. intros [?|?]; [by left | done]. }
  assert (hs ≠ []) as Hne by (intros ->; by cbn in E4).
  destruct (insertSubProject be _); rewrite elem_of_app;
    (intros [?|Hin]; [by left | right]);
    repeat (apply elem_of_cons in Hin as [Hin|Hin]; try discriminate Hin);
    try (by apply elem_of_nil in Hin); injection Hin as -> _; cbn; done.
Qed.

Lemma handleSaveSubProject_inserts st be sp u :
  InsertIntoKeywordLibrary sp u ∈ handleSaveSubProject st be →
  recordOf st (sp_parentProjectId sp) sp
  ∧ (parentProjectId st = "create_new" ∨ sp_parentProjectId sp = parentProjectId st).
Proof.
  unfold handleSaveSubProject.
  destruct (connected st); cbn [negb]; [|by intros ?%elem_of_nil].
  destruct (String.eqb_spec (parentProjectId st) "create_new") as [E|E].
  - destruct (truthy (trim (newParentProjectName st))); cbn [negb].
    2:{ intros Hin. apply list_elem_of_singleton in Hin. discriminate Hin. }
    destruct (insertProject be (newProjectOf st)) as [dataId|message].
    + intros [Hin|Hr]%saveUnderParent_inserts.
      * apply list_elem_of_singleton in Hin. discriminate Hin.
      * pose proof Hr as (_ & _ & _ & -> & _). split; [done | by left].
    + intros Hin.
      repeat (apply elem_of_cons in Hin as [Hin|Hin]; try discriminate Hin).
      by apply elem_of_nil in Hin.
  - intros [Hin|Hr]%saveUnderParent_inserts; [by apply elem_of_nil in Hin |].
    pose proof Hr as (_ & _ & _ & -> & _). split; [done | by right].
Qed.

End save.

(** C2. For every save of a well-addressed tree, the hierarchy of the
    record handed to the persistence service is the tree pruned as
    specified: it holds a Level1 node exactly when the node is selected
    or it holds one of the node's Level2 children; it holds a Level2
    node exactly when the node is selected or it holds one of the
    node's terms; it holds a term exactly when the term is selected.
    In the scenario (Level1 A with A1, two of three terms selected, and
    A2, nothing selected) the record holds A, under it A1 only, and
    under A1 the two selected terms only. *)
Theorem pruning_on_save :
  (∀ (st : SaveState) (be : Backend) (sp : KeywordSubProject) (u : string) (t : Tree),
     keywordMap st = Some t → wellAddressed t = true →
     InsertIntoKeywordLibrary sp u ∈ handleSaveSubProject st be →
     let out := sp_keywords sp in
     let sel := selectedKeywords st in
     out = prunedAsSpecified sel t
     ∧ ∀ l1, l1 ∈ t →
         (holdsLevel1 out (l1_id l1) ↔
          checked sel (l1_id l1) = true
          ∨ ∃ l2, l2 ∈ l1_children l1 ∧ holdsLevel2 out (l2_id l2))
         ∧ ∀ l2, l2 ∈ l1_children l1 →
             (holdsLevel2 out (l2_id l2) ↔
              checked sel (l2_id l2) = true
              ∨ ∃ y, y ∈ l2_lsi l2 ∧ holdsTerm out (lsi_id y))
             ∧ ∀ y, y ∈ l2_lsi l2 →
                 (holdsTerm out (lsi_id y) ↔ checked sel (lsi_id y) = true))
  ∧ (∃ sp,
       written okBackend (handleSaveSubProject (scenarioSave "A" []) okBackend) = [sp]
       ∧ sp_keywords sp =
         [ {| s1_id := "l1-0"; s1_keyword := "A"; s1_type := "引流型";
              s1_pageType := "文章类";
              s1_children :=
                [ {| s2_id := "l1-0-l2-0"; s2_keyword := "A1";
                     s2_type := "认知型 (Awareness)";
                     s2_lsi :=
                       [ {| saved_lsi_id := "l1-0-l2-0-lsi-0"; saved_lsi_text := "t0" |};
                         {| saved_lsi_id := "l1-0-l2-0-lsi-2"; saved_lsi_text := "t2" |} ]
                  |} ] |} ]).
Proof.
  split.
  - intros st be sp u t Ht Hwa Hin out sel.
    destruct (handleSaveSubProject_inserts st be sp u Hin)
      as [(_ & _ & _ & _ & Hk & _) _].
    assert (out = prunedAsSpecified sel t) as ->.
    { unfold out. rewrite Hk, Ht. by apply pruneHierarchy_spec. }
    split; [done |]. intros l1 Hl1. split; [by apply holdsLevel1_spec |].
    intros l2 Hl2. split; [by eapply holdsLevel2_spec |].
    intros y Hy. by eapply holdsTerm_spec.
  - eexists. split; vm_compute; reflexivity.
Qed.

Lemma pruning_on_save_witness :
  ∃ sp,
    InsertIntoKeywordLibrary sp "user-1"
      ∈ handleSaveSubProject (scenarioSave "A" []) okBackend
    ∧ sp_keywords sp = prunedAsSpecified scenarioSelection scenarioTree.
Proof.
  eexists. split; [vm_compute; apply list_elem_of_here |].
  refine (proj1 (proj1 pruning_on_save (scenarioSave "A" []) okBackend _ "user-1"
                   scenarioTree eq_refl eq_refl _)).
  vm_compute. apply list_elem_of_here.
Defined.

(** * The saved record *)

Section record.
Import Str StrFacts.
Implicit Types (sel : SelectedKeywords) (ids : list string).

Lemma elem_of_set_add x a ids : x ∈ set_add a ids ↔ x = a ∨ x ∈ ids.
Proof.
  unfold set_add. case_bool_decide as H.
  - split; [by right | intros [-> | ?]; done].
  - rewrite elem_of_app, list_elem_of_singleton. tauto.
Qed.

Lemma elem_of_fold_set_add x ids (kept : list RenderLsiNode) :
  x ∈ foldl (fun s lsi => set_add (lsi_id lsi) s) ids kept
  ↔ x ∈ ids ∨ x ∈ (lsi_id <$> kept).
Proof.
  revert ids. induction kept as [|y kept IH]; intros ids.
  - cbn. split; [by left | intros [?|H]; [done | by apply elem_of_nil in H]].
  - cbn [foldl]. rewrite IH, elem_of_set_add, fmap_cons, elem_of_cons. tauto.
Qed.

Lemma savedChildIds_snoc cs s2 :
  savedChildIds (cs ++ [s2])
  = savedChildIds cs ++ s2_id s2 :: (saved_lsi_id <$> s2_lsi s2).
Proof.
  unfold savedChildIds. rewrite fmap_app, concat_app. cbn.
  by rewrite List.app_nil_r.
Qed.

Lemma savedIds_snoc out s1 :
  savedIds (out ++ [s1])
  = savedIds out ++ s1_id s1 :: savedChildIds (s1_children s1).
Proof.
  unfold savedIds. rewrite fmap_app, concat_app. cbn.
  by rewrite List.app_nil_r.
Qed.

Lemma length_zero_nil {A} (l : list A) : (0 <? length l)%nat = false → l = [].
Proof. destruct l; [done |]. intros H. cbn in H. discriminate H. Qed.

(** The identifiers [pruneLevel2] adds belong to the node it pushes. *)
Lemma pruneLevel2_ids sel ids0 acc l2 :
  (∀ x, x ∈ acc.2 → x ∈ ids0 ∨ x ∈ savedChildIds acc.1) →
  ∀ x, x ∈ (pruneLevel2 sel acc l2).2 →
       x ∈ ids0 ∨ x ∈ savedChildIds (pruneLevel2 sel acc l2).1.
Proof.
  destruct acc as [cs ids]. intros Hacc x. unfold pruneLevel2.
  destruct (negb (someKeyStartsWith sel (l2_id l2))); [apply Hacc |].
  set (kept := List.filter (fun lsi => checked sel (lsi_id lsi)) (l2_lsi l2)).
  destruct (checked sel (l2_id l2)
            || (0 <? length ((fun lsi => {| saved_lsi_id := lsi_id lsi;
                                            saved_lsi_text := lsi_text lsi |})
                               <$> kept))%nat) eqn:E; cbn [fst snd].
  - rewrite elem_of_set_add, elem_of_fold_set_add, savedChildIds_snoc.
    cbn [s2_id s2_lsi]. rewrite elem_of_app, elem_of_cons.
    rewrite <- list_fmap_compose.
    intros [-> | [Hx|Hx]]; [by right; right; left | | by right; right; right].
    destruct (Hacc x Hx); [by left | by right; left].
  - apply orb_false_iff in E as [_ E]. apply length_zero_nil in E.
    apply fmap_nil_inv in E. rewrite elem_of_fold_set_add, E.
    intros [Hx|Hx]; [by apply Hacc | by apply elem_of_nil in Hx].
Qed.

Lemma fold_pruneLevel2_ids sel ids0 cs acc :
  (∀ x, x ∈ acc.2 → x ∈ ids0 ∨ x ∈ savedChildIds acc.1) →
  ∀ x, x ∈ (foldl (pruneLevel2 sel) acc cs).2 →
       x ∈ ids0 ∨ x ∈ savedChildIds (foldl (pruneLevel2 sel) acc cs).1.
Proof.
  revert acc. induction cs as [|c cs IH]; intros acc Hacc; [done |].
  cbn [foldl]. apply IH. by apply pruneLevel2_ids.
Qed.

Lemma pruneLevel1_ids sel acc l1 :
  (∀ x, x ∈ acc.2 → x ∈ savedIds acc.1) →
  ∀ x, x ∈ (pruneLevel1 sel acc l1).2 → x ∈ savedIds (pruneLevel1 sel acc l1).1.
Proof.
  destruct acc as [hs ids]. intros Hacc x. unfold pruneLevel1.
  destruct (negb (someKeyStartsWith sel (l1_id l1))); [apply Hacc |].
  pose proof (fold_pruneLevel2_ids sel ids (l1_children l1) ([], ids)) as Hf.
  destruct (foldl (pruneLevel2 sel) ([], ids) (l1_children l1)) as [cs ids'].
  cbn [fst snd] in Hf. specialize (Hf ltac:(by left)).
  destruct (checked sel (l1_id l1) || (0 <? length cs)%nat) eqn:E; cbn [fst snd].
  - rewrite elem_of_set_add, savedIds_snoc. cbn [s1_id s1_children].
    rewrite elem_of_app, elem_of_cons.
    intros [-> | Hx]; [by right; left |].
    destruct (Hf x Hx) as [H|H]; [left; by apply Hacc | by right; right].
  - apply orb_false_iff in E as [_ E]. apply length_zero_nil in E. subst cs.
    intros Hx. destruct (Hf x Hx) as [H|H]; [by apply Hacc | by apply elem_of_nil in H].
Qed.

Lemma pruneHierarchy_ids km sel x :
  x ∈ (pruneHierarchy km sel).2 → x ∈ savedIds (pruneHierarchy km sel).1.
Proof.
  unfold pruneHierarchy.
  assert (∀ ls acc, (∀ x, x ∈ acc.2 → x ∈ savedIds acc.1) →
    ∀ x, x ∈ (foldl (pruneLevel1 sel) acc ls).2 →
         x ∈ savedIds (foldl (pruneLevel1 sel) acc ls).1) as H.
  { induction ls as [|l ls IH]; intros acc Hacc; [done |].
    cbn [foldl]. apply IH. by apply pruneLevel1_ids. }
  apply H. cbn. intros y Hy. by apply elem_of_nil in Hy.
Qed.

Lemma restrictTranslations_lookup ids (tr : gmap string string) k v :
  restrictTranslations ids tr !! k = Some v → k ∈ ids ∧ tr !! k = Some v.
Proof.
  unfold restrictTranslations.
  assert (∀ acc : gmap string string,
    foldl (fun savedTranslations nodeId =>
             match tr !! nodeId with
             | Some t => if truthy t then <[nodeId := t]> savedTranslations
                         else savedTranslations
             | None => savedTranslations
             end) acc ids !! k = Some v →
    acc !! k = Some v ∨ (k ∈ ids ∧ tr !! k = Some v)) as H.
  { induction ids as [|a ids IH]; intros acc; [by left |].
    cbn [foldl]. intros [Hacc|[Hin Hk]]%IH; [|right; split; [by right | done]].
    destruct (tr !! a) as [ta|] eqn:Ea; [|by left].
    destruct (truthy ta); [|by left].
    destruct (decide (a = k)) as [-> | Hne].
    - rewrite lookup_insert_eq in Hacc. right. split; [by left | congruence].
    - rewrite lookup_insert_ne in Hacc by done. by left. }
  intros [Hk|Hk]%H; [by rewrite lookup_empty in Hk | done].
Qed.

(** Where the terms of a pruned hierarchy come from. *)
Lemma pruneLevel2_terms sel acc l2 s2 :
  s2 ∈ (pruneLevel2 sel acc l2).1 → s2 ∈ acc.1 ∨ s2_lsi s2 = retainTerms sel l2.
Proof.
  destruct acc as [cs ids]. unfold pruneLevel2.
  destruct (negb (someKeyStartsWith sel (l2_id l2))); [by left |].
  destruct (checked sel (l2_id l2) || _); cbn [fst]; [|by left].
  rewrite elem_of_app, list_elem_of_singleton. intros [? | ->]; [by left | by right].
Qed.

Lemma fold_pruneLevel2_terms sel cs acc s2 :
  s2 ∈ (foldl (pruneLevel2 sel) acc cs).1 →
  s2 ∈ acc.1 ∨ ∃ l2, l2 ∈ cs ∧ s2_lsi s2 = retainTerms sel l2.
Proof.
  revert acc. induction cs as [|c cs IH]; intros acc; [by left |].
  cbn [foldl]. intros [[H|H]%pruneLevel2_terms|(l2 & Hl2 & H)]%IH.
  - by left.
  - right. exists c. split; [by left | done].
  - right. exists l2. split; [by right | done].
Qed.

Lemma pruneLevel1_terms sel acc l1 s1 :
  s1 ∈ (pruneLevel1 sel acc l1).1 →
  s1 ∈ acc.1
  ∨ ∀ s2, s2 ∈ s1_children s1 →
          ∃ l2, l2 ∈ l1_children l1 ∧ s2_lsi s2 = retainTerms sel l2.
Proof.
  destruct acc as [hs ids]. unfold pruneLevel1.
  destruct (negb (someKeyStartsWith sel (l1_id l1))); [by left |].
  pose proof (fold_pruneLevel2_terms sel (l1_children l1) ([], ids)) as Hf.
  destruct (foldl (pruneLevel2 sel) ([], ids) (l1_children l1)) as [cs ids'].
  cbn [fst] in Hf.
  destruct (checked sel (l1_id l1) || _); cbn [fst]; [|by left].
  rewrite elem_of_app, list_elem_of_singleton. intros [? | ->]; [by left | right].
  cbn [s1_children]. intros s2 [H|H]%Hf; [by apply elem_of_nil in H | done].
Qed.

Lemma pruneHierarchy_terms km sel s1 s2 e :
  s1 ∈ (pruneHierarchy km sel).1 → s2 ∈ s1_children s1 → e ∈ s2_lsi s2 →
  ∃ l1 l2 y, l1 ∈ default [] km ∧ l2 ∈ l1_children l1 ∧ y ∈ l2_lsi l2
             ∧ checked sel (lsi_id y) = true
             ∧ e = {| saved_lsi_id := lsi_id y; saved_lsi_text := lsi_text y |}.
Proof.
  unfold pruneHierarchy. intros Hs1 Hs2 He.
  assert (∀ ls acc, s1 ∈ (foldl (pruneLevel1 sel) acc ls).1 →
    s1 ∈ acc.1
    ∨ ∃ l1, l1 ∈ ls ∧ ∀ s2, s2 ∈ s1_children s1 →
        ∃ l2, l2 ∈ l1_children l1 ∧ s2_lsi s2 = retainTerms sel l2) as H.
  { induction ls as [|l ls IH]; intros acc; [by left |].
    cbn [foldl]. intros [[H|H]%pruneLevel1_terms|(l1 & Hl1 & H)]%IH.
    - by left.
    - right. exists l. split; [by left | done].
    - right. exists l1. split; [by right | done]. }
  destruct (H _ _ Hs1) as [Hn|(l1 & Hl1 & Hc)]; [by apply elem_of_nil in Hn |].
  destruct (Hc s2 Hs2) as (l2 & Hl2 & E). rewrite E in He.
  apply retainTerms_elem in He as (y & Hy & Hsel & ->).
  exists l1, l2, y. done.
Qed.

End record.

(** C10. In every record a save hands to the persistence service, each
    term entry of the pruned hierarchy is the pair of the identifier
    and the text of a selected term of the tree (a [SavedLsiNode] has
    these two fields and no [isNew]), and each entry of the saved
    translations is an entry of the overlay whose key is an identifier
    of the pruned hierarchy. *)
Theorem saved_record_shape (st : SaveState) (be : Backend)
    (sp : KeywordSubProject) (u : string) :
  InsertIntoKeywordLibrary sp u ∈ handleSaveSubProject st be →
  (∀ s1 s2 e, s1 ∈ sp_keywords sp → s2 ∈ s1_children s1 → e ∈ s2_lsi s2 →
     ∃ l1 l2 y, l1 ∈ default [] (keywordMap st) ∧ l2 ∈ l1_children l1
                ∧ y ∈ l2_lsi l2 ∧ checked (selectedKeywords st) (lsi_id y) = true
                ∧ e = {| saved_lsi_id := lsi_id y; saved_lsi_text := lsi_text y |})
  ∧ (∀ k v, sp_translations sp !! k = Some v →
       k ∈ savedIds (sp_keywords sp) ∧ translations st !! k = Some v).
Proof.
  intros Hin.
  destruct (handleSaveSubProject_inserts st be sp u Hin)
    as [(_ & _ & _ & _ & Hk & _ & Ht) _].
  split.
  - intros s1 s2 e Hs1 Hs2 He. rewrite Hk in Hs1.
    by eapply pruneHierarchy_terms.
  - intros k v Hkv. rewrite Ht in Hkv.
    apply restrictTranslations_lookup in Hkv as [Hid Htr].
    split; [|done]. rewrite Hk. by apply pruneHierarchy_ids.
Qed.

Lemma saved_record_shape_witness :
  ∃ sp,
    InsertIntoKeywordLibrary sp "user-1"
      ∈ handleSaveSubProject (scenarioSave "A" []) okBackend
    ∧ ∀ k v, sp_translations sp !! k = Some v →
        k ∈ savedIds (sp_keywords sp)
        ∧ translations (scenarioSave "A" []) !! k = Some v.
Proof.
  eexists. split; [vm_compute; apply list_elem_of_here |].
  refine (proj2 (saved_record_shape (scenarioSave "A" []) okBackend _ "user-1" _)).
  vm_compute. apply list_elem_of_here.
Defined.

(** * Version naming *)

Section naming.
Import Str StrFacts.

Lemma existsb_elem {A} (f : A → bool) (l : list A) :
  existsb f l = true ↔ ∃ x, x ∈ l ∧ f x = true.
Proof.
  rewrite existsb_exists. split; intros (x & Hx & Hf); exists x;
    (split; [by apply list_elem_of_In | done]).
Qed.

Lemma versionedName_cases (lib : list KeywordSubProject) parent sub :
  let name := trim sub in
  let baseName := baseNameOf name in
  let lineage :=
    List.filter
      (fun old => String.eqb (sp_parentProjectId old) parent
                  && String.eqb (baseNameOf (sp_name old)) baseName) lib in
  ((∃ old, old ∈ lineage ∧ sp_name old = name) →
   versionedName lib parent sub
   = baseName +:+ " (Version " +:+ dec (length lineage + 1) +:+ ")")
  ∧ ((∀ old, old ∈ lineage → sp_name old ≠ name) →
     versionedName lib parent sub = name).
Proof.
  intros name baseName lineage. unfold versionedName.
  fold name. fold baseName. fold lineage.
  destruct (existsb (fun sp => String.eqb (sp_name sp) name) lineage) eqn:E.
  - split; [done |]. intros Hno.
    apply existsb_elem in E as (old & Hold & Heq%String.eqb_eq).
    by destruct (Hno old Hold).
  - split; [|done]. intros (old & Hold & Heq).
    assert (existsb (fun sp => String.eqb (sp_name sp) name) lineage = true);
      [|congruence].
    apply existsb_elem. exists old. split; [done |]. by apply String.eqb_eq.
Qed.

End naming.

(** C1, as the code has it. The name typed into the form is trimmed
    first. For every record a save hands to the persistence service:
    with the lineage being the saved sub-projects under the parent of
    the record whose name, stripped of a trailing [ (Version N)] and
    trimmed, is the base name of the trimmed name, the stored name is
    [{baseName} (Version {lineageSize + 1})] if a member of the lineage
    has exactly the trimmed name, and the trimmed name otherwise. Three
    successive saves of [Bedding Keywords] into an empty library store
    [Bedding Keywords], [Bedding Keywords (Version 2)] and
    [Bedding Keywords (Version 3)]. *)
Theorem version_naming :
  (∀ (st : SaveState) (be : Backend) (sp : KeywordSubProject) (u : string),
     InsertIntoKeywordLibrary sp u ∈ handleSaveSubProject st be →
     let name := Str.trim (subProjectName st) in
     let baseName := baseNameOf name in
     let lineage :=
       List.filter
         (fun old => String.eqb (sp_parentProjectId old) (sp_parentProjectId sp)
                     && String.eqb (baseNameOf (sp_name old)) baseName)
         (keywordLibrary st) in
     ((∃ old, old ∈ lineage ∧ sp_name old = name) →
      sp_name sp
      = baseName +:+ " (Version " +:+ Str.dec (length lineage + 1) +:+ ")")
     ∧ ((∀ old, old ∈ lineage → sp_name old ≠ name) → sp_name sp = name))
  ∧ sp_name <$> libraryAfter3
    = ["Bedding Keywords"; "Bedding Keywords (Version 2)";
       "Bedding Keywords (Version 3)"].
Proof.
  split; [|vm_compute; reflexivity].
  intros st be sp u Hin.
  destruct (handleSaveSubProject_inserts st be sp u Hin)
    as [(_ & _ & -> & _) _].
  apply versionedName_cases.
Qed.

Lemma version_naming_witness :
  ∃ sp,
    InsertIntoKeywordLibrary sp "user-1"
      ∈ handleSaveSubProject (scenarioSave "Bedding Keywords" libraryAfter1) okBackend
    ∧ sp_name sp = "Bedding Keywords (Version 2)".
Proof.
  eexists. split; [vm_compute; apply list_elem_of_here |].
  refine (proj1 (proj1 version_naming
                   (scenarioSave "Bedding Keywords" libraryAfter1) okBackend _ "user-1" _)
                _).
  - vm_compute. apply list_elem_of_here.
  - eexists. split; [vm_compute; apply list_elem_of_here | reflexivity].
Defined.

(** C1, as stated, fails for a name with surrounding white space: no
    saved sub-project has the requested name, and the name is not
    stored unchanged. *)
Lemma version_naming_counterexample :
  ∃ sp,
    keywordLibrary (scenarioSave "Bedding Keywords " []) = []
    ∧ handleSaveSubProject (scenarioSave "Bedding Keywords " []) okBackend
      = [InsertIntoKeywordLibrary sp "user-1"; FetchData; ResetSaveForm;
         Alert "子项目保存成功！"]
    ∧ sp_name sp = "Bedding Keywords"
    ∧ sp_name sp ≠ subProjectName (scenarioSave "Bedding Keywords " []).
Proof.
  eexists. split; [reflexivity |]. split; [vm_compute; reflexivity |].
  split; [reflexivity | discriminate].
Qed.

(** * Validation *)

Section validation.
Import Str StrFacts.
Implicit Types (st : SaveState) (be : Backend).



Lemma saveUnderParent_blocked st be parent done :
  trim (subProjectName st) = "" ∨ parent = "" →
  saveUnderParent st be parent done
  = done ++ [Alert "请输入子项目名称并选择一个母项目。"].
Proof.
  unfold saveUnderParent. intros [H|H].
  - by rewrite H.
  - rewrite H. cbn [truthy negb]. by rewrite orb_true_r.
Qed.

End validation.





(** * Trees stay well addressed *)

Section preserved.
Import Str StrFacts.

Lemma mergeLsi_addressed (n : RenderLevel2Node) (newLsis : list string) :
  (∀ k x, l2_lsi n !! k = Some x → lsi_id x = idLsi (l2_id n) k) →
  ∀ k x, l2_lsi (mergeLsi n newLsis) !! k = Some x →
         lsi_id x = idLsi (l2_id (mergeLsi n newLsis)) k.
Proof.
  intros Hn k x. rewrite mergeLsi_terms. cbn [mergeLsi l2_id].
  rewrite lookup_app_Some, length_fmap, list_lookup_fmap.
  intros [Hk | [Hle Hk]].
  - destruct (l2_lsi n !! k) as [y|] eqn:E; [|done].
    injection Hk as <-. cbn. by apply Hn.
  - apply list_lookup_imap_Some in Hk as (c & _ & ->). cbn.
    f_equal. lia.
Qed.

(** The augmentation merge keeps the identifiers path-encoded. *)
Lemma mergeIntoMap_wellAddressed (t : Tree) (level1NodeId level2NodeId : string)
    (newLsis : list string) :
  wellAddressed t = true →
  ∃ t', mergeIntoMap level1NodeId level2NodeId newLsis (Some t) = Some t'
        ∧ wellAddressed t' = true.
Proof.
  intros Hwa. eexists. split; [reflexivity |].
  pose proof (proj1 (wellAddressed_spec t) Hwa) as H.
  apply wellAddressed_spec. intros i l1'.
  rewrite list_lookup_fmap. destruct (t !! i) as [l1|] eqn:Hi; [|done].
  intros [= <-]. destruct (H i l1 Hi) as [H1 H2].
  destruct (negb (String.eqb (l1_id l1) level1NodeId)); [by split |].
  cbn [l1_id l1_children]. split; [done |].
  intros j l2'. rewrite list_lookup_fmap.
  destruct (l1_children l1 !! j) as [l2|] eqn:Hj; [|done].
  intros [= <-]. destruct (H2 j l2 Hj) as [H3 H4].
  destruct (negb (String.eqb (l2_id l2) level2NodeId)); [by split |].
  split; [done |]. by apply mergeLsi_addressed.
Qed.

End preserved.

(** * Reachable selections *)

Section reachable_keys.
Import Str StrFacts.
Context (t : Tree) (Hwa : wellAddressed t = true).
Implicit Types (s prev next : SelectedKeywords) (v : bool).

Lemma sparse_onlyTrue_id s : sparse s → onlyTrue s = s.
Proof.
  intros Hs. apply map_eq. intros x. rewrite lookup_onlyTrue. unfold checked.
  destruct (s !! x) as [b|] eqn:E; [|done]. by rewrite (Hs _ _ E).
Qed.

Lemma checked_key s x : sparse s → checked s x = true ↔ is_Some (s !! x).
Proof. intros Hs. symmetry. by apply present_checked. Qed.

Lemma level1_in_tree i l1 : t !! i = Some l1 → l1_id l1 ∈ tree_ids t.
Proof.
  intros Hi. apply elem_of_tree_ids. exists i, l1. split; [done |].
  apply elem_of_l1_ids. by left.
Qed.

Lemma level2_in_tree i l1 j l2 :
  t !! i = Some l1 → l1_children l1 !! j = Some l2 → l2_id l2 ∈ tree_ids t.
Proof.
  intros Hi Hj. apply elem_of_tree_ids. exists i, l1. split; [done |].
  apply elem_of_l1_ids. right. exists j, l2. split; [done |].
  apply elem_of_l2_ids. by left.
Qed.

Lemma term_in_tree i l1 j l2 k y :
  t !! i = Some l1 → l1_children l1 !! j = Some l2 → l2_lsi l2 !! k = Some y →
  lsi_id y ∈ tree_ids t.
Proof.
  intros Hi Hj Hk. apply elem_of_tree_ids. exists i, l1. split; [done |].
  apply elem_of_l1_ids. right. exists j, l2. split; [done |].
  apply elem_of_l2_ids. right. eauto.
Qed.

Lemma l1_ids_in_tree i l1 x : t !! i = Some l1 → x ∈ l1_ids l1 → x ∈ tree_ids t.
Proof. intros Hi Hx. apply elem_of_tree_ids. eauto. Qed.

Lemma l2_ids_in_tree i l1 j l2 x :
  t !! i = Some l1 → l1_children l1 !! j = Some l2 → x ∈ l2_ids l2 →
  x ∈ tree_ids t.
Proof.
  intros Hi Hj Hx. eapply l1_ids_in_tree; [done |].
  apply elem_of_l1_ids. right. eauto.
Qed.

(** What a toggle can select: entries of the tree, or what was selected. *)
Lemma toggle_keys fuel id v prev next x :
  id ∈ tree_ids t →
  handleSelectionChange fuel (Some t) id v prev = Some next →
  checked next x = true → x ∈ tree_ids t ∨ checked prev x = true.
Proof.
  intros Hid Hnext.
  apply (handleSelectionChange_mono fuel (fuel + 3)) in Hnext; [|lia].
  destruct (tree_ids_cases t id Hid)
    as [(i & l1 & Hi & ->)
       |[(i & l1 & j & l2 & Hi & Hj & ->)
        |(i & l1 & j & l2 & k & y & Hi & Hj & Hk & ->)]].
  - rewrite (toggle_level1 t Hwa _ i l1) in Hnext by (done || lia).
    assert (next = onlyTrue (setAll (l1_ids l1) v prev)) as -> by congruence.
    rewrite checked_onlyTrue, checked_setAll. case_bool_decide as Hx; [|by right].
    intros _. left. by eapply l1_ids_in_tree.
  - rewrite (toggle_level2 t Hwa _ i l1 j l2) in Hnext by (done || lia).
    assert (next = onlyTrue (recompute (l1_id l1) (l2_id <$> l1_children l1)
                               (setAll (l2_ids l2) v prev))) as -> by congruence.
    rewrite checked_onlyTrue, checked_recompute.
    case_bool_decide as Hx; [subst; intros _; left; by eapply level1_in_tree |].
    rewrite checked_setAll. case_bool_decide as Hx2; [|by right].
    intros _. left. by eapply l2_ids_in_tree.
  - rewrite (toggle_lsi t Hwa _ i l1 j l2 k y) in Hnext by (done || lia).
    assert (next = onlyTrue (recompute (l1_id l1) (l2_id <$> l1_children l1)
                               (recompute (l2_id l2) (lsi_id <$> l2_lsi l2)
                                  (<[lsi_id y := v]> prev)))) as -> by congruence.
    rewrite checked_onlyTrue, checked_recompute.
    case_bool_decide as Hx; [subst; intros _; left; by eapply level1_in_tree |].
    rewrite checked_recompute.
    case_bool_decide as Hx2; [subst; intros _; left; by eapply level2_in_tree |].
    rewrite checked_insert.
    case_bool_decide as Hx3; [subst; intros _; left; by eapply term_in_tree |].
    by right.
Qed.

Lemma reachable_keys_in_tree s x :
  reachable t s → checked s x = true → x ∈ tree_ids t.
Proof.
  induction 1 as [|fuel id v prev next _ IH Hid Hnext].
  - by rewrite checked_empty.
  - intros Hx. destruct (toggle_keys _ _ _ _ _ _ Hid Hnext Hx); [done | by apply IH].
Qed.

End reachable_keys.

(** X1. A selection reachable by toggles over a well-addressed tree
    holds no [false] entry, and each of its keys is the identifier of a
    node of the tree. *)
Theorem reachable_selection_keys (t : Tree) (s : SelectedKeywords)
    (k : string) (b : bool) :
  wellAddressed t = true → reachable t s → s !! k = Some b →
  b = true ∧ k ∈ tree_ids t.
Proof.
  intros Hwa Hr Hk.
  destruct (reachable_consistent t Hwa s Hr) as [_ Hs].
  pose proof (Hs _ _ Hk) as ->. split; [done |].
  eapply reachable_keys_in_tree; [done | done |].
  unfold checked. by rewrite Hk.
Qed.

Lemma reachable_selection_keys_witness :
  "l1-0-l2-0-lsi-1" ∈ tree_ids sampleTree.
Proof.
  refine (proj2 (reachable_selection_keys sampleTree sampleSelected
                   "l1-0-l2-0-lsi-1" true eq_refl _ _)).
  - apply (reachable_toggle sampleTree 3 "l1-0-l2-0-lsi-1" true ∅ sampleSelected).
    + apply reachable_init.
    + vm_compute. repeat constructor.
    + vm_compute. reflexivity.
  - vm_compute. reflexivity.
Defined.

(** * Toggles: frame and undo *)

Section toggle_frame.
Import Str StrFacts.
Context (t : Tree) (Hwa : wellAddressed t = true).
Implicit Types (s prev next : SelectedKeywords) (v : bool).

Lemma sparse_lookup_eq s s' x :
  sparse s → sparse s' → checked s x = checked s' x → s !! x = s' !! x.
Proof.
  intros Hs Hs'. unfold checked.
  destruct (s !! x) as [b|] eqn:E, (s' !! x) as [b'|] eqn:E'; try done.
  - by rewrite (Hs _ _ E), (Hs' _ _ E').
  - rewrite (Hs _ _ E). done.
  - rewrite (Hs' _ _ E'). done.
Qed.

(** A toggle of a node in the subtree of the Level1 node [l1] writes
    nothing outside that subtree. *)
Lemma toggle_outside fuel i l1 id v prev next x :
  t !! i = Some l1 → id ∈ l1_ids l1 →
  handleSelectionChange fuel (Some t) id v prev = Some next →
  ¬ under (l1_id l1) x → checked next x = checked prev x.
Proof.
  intros Hi Hid Hnext Hx.
  apply (handleSelectionChange_mono fuel (fuel + 3)) in Hnext; [|lia].
  apply elem_of_l1_ids in Hid
    as [->|(j & l2 & Hj & [->|(k & y & Hk & ->)]%elem_of_l2_ids)].
  - rewrite (toggle_level1 t Hwa _ i l1) in Hnext by (done || lia).
    assert (next = onlyTrue (setAll (l1_ids l1) v prev)) as -> by congruence.
    rewrite checked_onlyTrue, checked_setAll_notin; [done |].
    intros Hin. by eapply Hx, under_l1_ids.
  - rewrite (toggle_level2 t Hwa _ i l1 j l2) in Hnext by (done || lia).
    assert (next = onlyTrue (recompute (l1_id l1) (l2_id <$> l1_children l1)
                               (setAll (l2_ids l2) v prev))) as -> by congruence.
    rewrite checked_onlyTrue, checked_recompute_ne, checked_setAll_notin; [done | |].
    + intros Hin. apply Hx. eapply under_trans; [by eapply level2_under |].
      by eapply under_l2_ids.
    + intros ->. apply Hx, under_refl.
  - rewrite (toggle_lsi t Hwa _ i l1 j l2 k y) in Hnext by (done || lia).
    assert (next = onlyTrue (recompute (l1_id l1) (l2_id <$> l1_children l1)
                               (recompute (l2_id l2) (lsi_id <$> l2_lsi l2)
                                  (<[lsi_id y := v]> prev)))) as -> by congruence.
    assert (under (l1_id l1) (l2_id l2)) as Hu2 by (by eapply level2_under).
    assert (under (l2_id l2) (lsi_id y)) as Hu3.
    { rewrite (wa_lsi t Hwa _ _ _ _ _ _ Hi Hj Hk). apply under_idLsi. }
    rewrite checked_onlyTrue, !checked_recompute_ne, checked_insert.
    + rewrite bool_decide_eq_false_2; [done |].
      intros ->. apply Hx. by eapply under_trans.
    + intros ->. by apply Hx.
    + intros ->. apply Hx, under_refl.
Qed.

(** Toggling a term to the other state and back. *)
Lemma undo_lsi p1 cs1 p2 cs2 y0 v s :
  sparse s → checked s y0 = v →
  p1 ≠ p2 → y0 ≠ p1 → y0 ≠ p2 →
  (∀ c, c ∈ cs1 → c ≠ p1) →
  (∀ c, c ∈ cs2 → c ≠ p1 ∧ c ≠ p2) →
  checked s p2 = forallb (checked s) cs2 →
  checked s p1 = forallb (checked s) cs1 →
  let s1 := onlyTrue (recompute p1 cs1 (recompute p2 cs2 (<[y0 := negb v]> s))) in
  onlyTrue (recompute p1 cs1 (recompute p2 cs2 (<[y0 := v]> s1))) = s.
Proof.
  intros Hs Hy H12 Hy1 Hy2 Hcs1 Hcs2 E2 E1 s1.
  transitivity (onlyTrue s); [|by apply sparse_onlyTrue_id]. apply onlyTrue_ext.
  assert (∀ x, x ≠ p1 → x ≠ p2 → checked (<[y0 := v]> s1) x = checked s x) as Ha.
  { intros x H1 H2. rewrite checked_insert. case_bool_decide as Hx; [by subst |].
    unfold s1.
    rewrite checked_onlyTrue, !checked_recompute_ne, checked_insert by done.
    by rewrite bool_decide_eq_false_2. }
  assert (∀ x, x ≠ p1 →
    checked (recompute p2 cs2 (<[y0 := v]> s1)) x = checked s x) as Hb.
  { intros x H1. rewrite checked_recompute. case_bool_decide as Hx.
    - subst x. rewrite E2. apply forallb_ext_in. intros c Hc. by apply Ha; apply Hcs2.
    - by apply Ha. }
  intros x. rewrite checked_recompute. case_bool_decide as Hx.
  - subst x. rewrite E1. apply forallb_ext_in. intros c Hc. by apply Hb, Hcs1.
  - by apply Hb.
Qed.

Lemma toggleTerm_undo fuel s i l1 j l2 k y :
  reachable t s → 3 ≤ fuel →
  t !! i = Some l1 → l1_children l1 !! j = Some l2 → l2_lsi l2 !! k = Some y →
  ∃ s1, toggleTerm fuel (Some t) y s = Some s1
        ∧ toggleTerm fuel (Some t) y s1 = Some s.
Proof.
  intros Hr Hf Hi Hj Hk.
  destruct (reachable_consistent t Hwa s Hr) as [Hc Hs].
  destruct (Hc i l1 Hi) as [H1 H2].
  assert (lsi_id y ∈ (lsi_id <$> l2_lsi l2)) as Hy.
  { apply list_elem_of_fmap. exists y. split; [done |]. apply list_elem_of_lookup. eauto. }
  assert (l2_id l2 ∈ (l2_id <$> l1_children l1)) as Hl2.
  { apply list_elem_of_fmap. exists l2. split; [done |]. apply list_elem_of_lookup. eauto. }
  assert (lsi_id y ≠ l1_id l1) as Hy1 by (by eapply term_ne_grandparent).
  assert (lsi_id y ≠ l2_id l2) as Hy2 by (by eapply term_ne_parent).
  assert (l2_id l2 ≠ l1_id l1) as H21 by (by eapply level2_ne_level1).
  unfold toggleTerm. eexists. split; [by eapply toggle_lsi |].
  rewrite (toggle_lsi t Hwa fuel i l1 j l2 k y) by (done || lia).
  rewrite checked_onlyTrue, !checked_recompute_ne, checked_insert by done.
  rewrite bool_decide_eq_true_2 by done. rewrite negb_involutive.
  f_equal. apply (undo_lsi _ _ _ _ _ (checked s (lsi_id y)) s); try done.
  - intros c Hin. by eapply child_ne_parent.
  - intros c Hin. split; [by eapply term_ne_grandparent | by eapply term_ne_parent].
  - apply (H2 j l2 Hj). intros E. by rewrite E in Hk.
  - apply H1. intros E. by rewrite E in Hj.
Qed.

End toggle_frame.

(** X2. A toggle of a node under one Level1 node of a well-addressed
    tree changes no entry of the selection under any other Level1 node. *)
Theorem toggle_leaves_other_subtrees (t : Tree) (prev next : SelectedKeywords)
    (fuel i i' : nat) (l1 l1' : RenderLevel1Node) (id x : string) (v : bool) :
  wellAddressed t = true → sparse prev →
  t !! i = Some l1 → id ∈ l1_ids l1 →
  handleSelectionChange fuel (Some t) id v prev = Some next →
  t !! i' = Some l1' → i' ≠ i → x ∈ l1_ids l1' →
  next !! x = prev !! x.
Proof.
  intros Hwa Hs Hi Hid Hnext Hi' Hne Hx.
  assert (sparse next) as Hs'.
  { unfold handleSelectionChange in Hnext.
    destruct (cascadeDown _ _ _ _ _) as [s1|]; [|done]. cbn in Hnext.
    destruct (cascadeUp _ _ _ _) as [s2|]; [|done]. cbn in Hnext.
    injection Hnext as <-. apply sparse_onlyTrue. }
  apply sparse_lookup_eq; [done | done |].
  eapply (toggle_outside t Hwa); [exact Hi | exact Hid | exact Hnext |].
  eapply other_level1; [done | exact Hi' | exact Hi | done |].
  by eapply under_l1_ids.
Qed.

Lemma toggle_leaves_other_subtrees_witness :
  sampleSelected !! "l1-1-l2-0" = (∅ : SelectedKeywords) !! "l1-1-l2-0".
Proof.
  refine (toggle_leaves_other_subtrees sampleTree ∅ sampleSelected 3 0 1 _ _
            "l1-0-l2-0-lsi-1" "l1-1-l2-0" true eq_refl _ eq_refl _ _ eq_refl _ _).
  - intros k b Hk. by rewrite lookup_empty in Hk.
  - vm_compute. repeat constructor.
  - vm_compute. reflexivity.
  - lia.
  - vm_compute. repeat constructor.
Defined.

(** X3. Clicking a term of a well-addressed tree and clicking it again
    gives back the selection one started from, for every selection
    reachable by toggles. *)
Theorem term_toggle_undo (t : Tree) (s : SelectedKeywords) (fuel i j k : nat)
    (l1 : RenderLevel1Node) (l2 : RenderLevel2Node) (y : RenderLsiNode) :
  wellAddressed t = true → reachable t s → 3 ≤ fuel →
  t !! i = Some l1 → l1_children l1 !! j = Some l2 → l2_lsi l2 !! k = Some y →
  ∃ s1, toggleTerm fuel (Some t) y s = Some s1
        ∧ toggleTerm fuel (Some t) y s1 = Some s.
Proof. intros Hwa. by apply toggleTerm_undo. Qed.

Lemma term_toggle_undo_witness :
  ∃ s1,
    toggleTerm 3 (Some sampleTree)
      {| lsi_id := "l1-0-l2-0-lsi-0"; lsi_text := "x"; lsi_isNew := None |} ∅
    = Some s1
    ∧ toggleTerm 3 (Some sampleTree)
        {| lsi_id := "l1-0-l2-0-lsi-0"; lsi_text := "x"; lsi_isNew := None |} s1
      = Some ∅.
Proof.
  refine (term_toggle_undo sampleTree ∅ 3 0 0 0 _ _ _ eq_refl
            (reachable_init _) _ eq_refl eq_refl eq_refl).
  lia.
Defined.

(** * The checkboxes *)

Section checkboxes.
Import Str StrFacts.
Context (t : Tree) (Hwa : wellAddressed t = true).
Implicit Types (s : SelectedKeywords).

Lemma length_filter_all {A} (f : A → bool) (l : list A) :
  (length (List.filter f l) =? length l)%nat = forallb f l.
Proof.
  induction l as [|a l IH]; [done |]. cbn [List.filter forallb].
  pose proof (filter_length_le f l) as Hle.
  destruct (f a); cbn [length andb].
  - exact IH.
  - apply Nat.eqb_neq. lia.
Qed.

Lemma length_filter_pos {A} (f : A → bool) (l : list A) :
  (0 <? length (List.filter f l))%nat = true ↔ ∃ x, x ∈ l ∧ f x = true.
Proof.
  rewrite length_pos_elem. split.
  - intros [x Hx]. apply list_elem_of_In, filter_In in Hx as [Hx Hf].
    exists x. by rewrite list_elem_of_In.
  - intros (x & Hx & Hf). exists x. apply list_elem_of_In, filter_In.
    by rewrite <- list_elem_of_In.
Qed.

Lemma length_filter_lt {A} (f : A → bool) (l : list A) :
  (length (List.filter f l) <? length l)%nat = true ↔ ∃ x, x ∈ l ∧ f x = false.
Proof.
  rewrite Nat.ltb_lt. induction l as [|a l IH]; cbn [List.filter length].
  - split; [lia | intros (x & Hx & _); by apply elem_of_nil in Hx].
  - pose proof (filter_length_le f l) as Hle.
    destruct (f a) eqn:E; cbn [length].
    + rewrite <- Nat.succ_lt_mono, IH. split.
      * intros (x & Hx & Hf). exists x. split; [by right | done].
      * intros (x & [->|Hx]%elem_of_cons & Hf); [congruence | eauto].
    + split; [|lia]. intros _. exists a. split; [by left | done].
Qed.

(** The two flags a node with children is shown with. *)
Lemma counted_flags s (ids : list string) :
  let n := length (List.filter (checked s) ids) in
  (n =? length ids)%nat = forallb (checked s) ids
  ∧ ((0 <? n)%nat && (n <? length ids)%nat = true ↔
     (∃ x, x ∈ ids ∧ checked s x = true) ∧ (∃ x, x ∈ ids ∧ checked s x = false)).
Proof.
  intros n. subst n. split; [apply length_filter_all |].
  by rewrite andb_true_iff, length_filter_pos, length_filter_lt.
Qed.

Lemma level2_reads s i l1 j l2 :
  reachable t s → t !! i = Some l1 → l1_children l1 !! j = Some l2 →
  isChecked (level2Checkbox s l2) = checked s (l2_id l2).
Proof.
  intros Hr Hi Hj. destruct (reachable_consistent t Hwa s Hr) as [Hc _].
  destruct (Hc i l1 Hi) as [_ H2]. unfold level2Checkbox.
  destruct (length (lsi_id <$> l2_lsi l2) =? 0)%nat eqn:E; [done |].
  cbn [isChecked]. rewrite length_filter_all. symmetry. apply (H2 j l2 Hj).
  intros Hn. by rewrite Hn in E.
Qed.

Lemma forallb_concat {A} (f : A → bool) (ls : list (list A)) :
  forallb f (concat ls) = forallb (forallb f) ls.
Proof.
  induction ls as [|l ls IH]; [done |]. cbn [concat forallb].
  rewrite forallb_app. by rewrite IH.
Qed.

Lemma level1_reads s i l1 :
  reachable t s → t !! i = Some l1 →
  isChecked (level1Checkbox s l1) = checked s (l1_id l1).
Proof.
  intros Hr Hi. destruct (reachable_consistent t Hwa s Hr) as [Hc _].
  destruct (Hc i l1 Hi) as [H1 H2]. unfold level1Checkbox.
  destruct (length (concat (l2_ids <$> l1_children l1)) =? 0)%nat eqn:E; [done |].
  cbn [isChecked]. rewrite length_filter_all.
  assert (l1_children l1 ≠ []) as Hne by (intros Hn; by rewrite Hn in E).
  rewrite (H1 Hne), forallb_concat, !forallb_fmap.
  apply forallb_ext_in. intros l2 [j Hj]%list_elem_of_lookup.
  cbn [compose l2_ids forallb].
  destruct (l2_lsi l2) as [|y ys] eqn:El.
  - cbn. by rewrite andb_true_r.
  - rewrite <- El. rewrite <- (H2 j l2 Hj) by (by rewrite El).
    by destruct (checked s (l2_id l2)).
Qed.

End checkboxes.

(** X4. For every selection reachable by toggles over a well-addressed
    tree, the checkbox of a Level2 node is shown checked exactly when
    the node is in the selection; it is shown indeterminate exactly
    when one of its terms is selected and another one is not. *)
Theorem level2_checkbox_reads_selection (t : Tree) (s : SelectedKeywords)
    (i j : nat) (l1 : RenderLevel1Node) (l2 : RenderLevel2Node) :
  wellAddressed t = true → reachable t s →
  t !! i = Some l1 → l1_children l1 !! j = Some l2 →
  isChecked (level2Checkbox s l2) = checked s (l2_id l2)
  ∧ (isIndeterminate (level2Checkbox s l2) = true ↔
     (∃ y, y ∈ l2_lsi l2 ∧ checked s (lsi_id y) = true)
     ∧ (∃ y, y ∈ l2_lsi l2 ∧ checked s (lsi_id y) = false)).
Proof.
  intros Hwa Hr Hi Hj. split; [by eapply level2_reads |].
  unfold level2Checkbox.
  destruct (length (lsi_id <$> l2_lsi l2) =? 0)%nat eqn:E.
  - cbn. split; [done |]. intros [(y & Hy & _) _].
    destruct (l2_lsi l2); [by apply elem_of_nil in Hy | done].
  - cbn [isIndeterminate].
    rewrite (proj2 (counted_flags s (lsi_id <$> l2_lsi l2))).
    split; intros [(a & Ha & Hca) (b & Hb & Hcb)].
    + apply list_elem_of_fmap in Ha as (ya & -> & Hya).
      apply list_elem_of_fmap in Hb as (yb & -> & Hyb). split; eauto.
    + split; [exists (lsi_id a) | exists (lsi_id b)];
        (split; [by apply list_elem_of_fmap_2 | done]).
Qed.

Lemma level2_checkbox_reads_selection_witness :
  isIndeterminate
    (level2Checkbox sampleSelected
       {| l2_id := "l1-0-l2-0"; l2_keyword := "A1"; l2_type := "认知型 (Awareness)";
          l2_lsi := default [] (l2_lsi <$> level2At (Some sampleTree) 0 0) |}) = true.
Proof.
  refine (proj2 (proj2 (level2_checkbox_reads_selection sampleTree sampleSelected
                          0 0 _ _ eq_refl _ eq_refl eq_refl)) _).
  - apply (reachable_toggle sampleTree 3 "l1-0-l2-0-lsi-1" true ∅ sampleSelected).
    + apply reachable_init.
    + vm_compute. repeat constructor.
    + vm_compute. reflexivity.
  - split.
    + exists {| lsi_id := "l1-0-l2-0-lsi-1"; lsi_text := "y"; lsi_isNew := None |}.
      split; [apply list_elem_of_further, list_elem_of_here | vm_compute; reflexivity].
    + exists {| lsi_id := "l1-0-l2-0-lsi-0"; lsi_text := "x"; lsi_isNew := None |}.
      split; [apply list_elem_of_here | vm_compute; reflexivity].
Defined.

(** * Termination of the upward cascade *)

Section upward.
Import Str StrFacts.

Lemma split_parts_no_sep sep s p : p ∈ split sep s → occurs sep p = false.
Proof.
  revert p. induction s as [|c s IH]; intros p; cbn [split].
  - intros ->%list_elem_of_singleton. done.
  - destruct (Ascii.eqb c sep) eqn:E.
    + intros [->|Hp]%elem_of_cons; [done | by apply IH].
    + pose proof (split_nonnil sep s) as Hne.
      destruct (split sep s) as [|q qs]; [done |].
      intros [->|Hp]%elem_of_cons.
      * cbn [occurs]. rewrite E. apply IH. by left.
      * apply IH. by right.
Qed.

Lemma split_join sep ps :
  ps ≠ [] → (∀ p, p ∈ ps → occurs sep p = false) →
  split sep (join (String sep "") ps) = ps.
Proof.
  unfold join. induction ps as [|p ps IH]; [done |]. intros _ Hps.
  destruct ps as [|q qs].
  - cbn [String.concat]. apply split_no_sep, Hps. by left.
  - change (String.concat (String sep "") (p :: q :: qs))
      with (p +:+ String sep (String.concat (String sep "") (q :: qs))).
    rewrite split_app_sep, IH; [|done | intros r Hr; apply Hps; by right].
    rewrite split_no_sep by (apply Hps; by left). done.
Qed.

(** The parent identifier has two segments less. *)
Lemma getParentId_shorter id p :
  getParentId id = Some p →
  length (split dash p) + 2 = length (split dash id).
Proof.
  unfold getParentId.
  destruct (length (split dash id) <=? 2)%nat eqn:E; [done |].
  apply Nat.leb_gt in E. intros [= <-].
  rewrite (split_join dash).
  - rewrite length_take. lia.
  - intros Hn. apply (f_equal length) in Hn. rewrite length_take in Hn.
    cbn in Hn. lia.
  - intros q Hq. apply (split_parts_no_sep dash id).
    apply elem_of_take in Hq as (n & Hn & _).
    apply list_elem_of_lookup. eauto.
Qed.

End upward.

(** X6. [cascadeUp] returns for every identifier, every selection and
    every tree, well addressed or not: as many steps as the identifier
    has [-]-separated segments are enough. *)
Theorem cascadeUp_terminates (keywordMap : option Tree) (id : string)
    (m : SelectedKeywords) (fuel : nat) :
  length (Str.split dash id) ≤ fuel →
  is_Some (cascadeUp fuel keywordMap id m).
Proof.
  revert id m. induction fuel as [|f IH]; intros id m Hlen.
  - pose proof (StrFacts.split_nonnil dash id) as Hne.
    destruct (Str.split dash id); [done | cbn in Hlen; lia].
  - rewrite cascadeUp_unfold.
    destruct (getParentId id) as [p|] eqn:Ep; [|eauto].
    apply getParentId_shorter in Ep.
    destruct (negb (Str.truthy p)); [eauto |].
    destruct (findNodeById keywordMap p) as [n|]; [|eauto].
    destruct (negb (isLevel1Node n || isLevel2Node n)); [eauto |].
    apply IH. lia.
Qed.

Lemma cascadeUp_terminates_witness :
  is_Some (cascadeUp 6 (Some sampleTree) "l1-0-l2-0-lsi-1" ∅).
Proof.
  apply (cascadeUp_terminates (Some sampleTree) "l1-0-l2-0-lsi-1" ∅ 6).
  vm_compute. lia.
Defined.

(** * What the builder and the merge keep *)

Section content.
Import Str StrFacts.

Lemma fmap_imap_const {A B C} (g : B → C) (f : nat → A → B) (h : A → C) (l : list A) :
  (∀ i x, g (f i x) = h x) → g <$> imap f l = h <$> l.
Proof.
  intros H. apply list_eq. intros i.
  rewrite !list_lookup_fmap, list_lookup_imap.
  destruct (l !! i); cbn; [by rewrite H | done].
Qed.

End content.

(** X7. The tree builder keeps the content of the generation result:
    without its identifiers the built tree is the hierarchy it was
    given, keyword by keyword and term by term in the same order, with
    an empty term list where the result had none; and no term of a
    built tree is highlighted as new. *)
Theorem tree_builder_keeps_content (map : KeywordMap) :
  eraseIds (transformToRenderableMap map) = withLsiLists (keywordHierarchy map)
  ∧ ∀ l1 l2 y, l1 ∈ transformToRenderableMap map → l2 ∈ l1_children l1 →
               y ∈ l2_lsi l2 → lsi_isNew y = None.
Proof.
  split.
  - unfold eraseIds, withLsiLists, transformToRenderableMap.
    apply fmap_imap_const. intros i l1. cbn. f_equal.
    apply fmap_imap_const. intros j l2. cbn. do 2 f_equal.
    etrans; [|apply list_fmap_id]. by apply fmap_imap_const.
  - unfold transformToRenderableMap.
    intros l1 l2 y (i & r1 & -> & _)%elem_of_lookup_imap_1. cbn.
    intros (j & r2 & -> & _)%elem_of_lookup_imap_1. cbn.
    by intros (k & tx & -> & _)%elem_of_lookup_imap_1.
Qed.

Lemma tree_builder_keeps_content_witness :
  lsi_isNew {| lsi_id := "l1-1-l2-0-lsi-0"; lsi_text := "u"; lsi_isNew := None |} = None.
Proof.
  refine (proj2 (tree_builder_keeps_content sampleMap) _ _ _ _ _ _).
  - apply list_elem_of_further, list_elem_of_here.
  - apply list_elem_of_here.
  - apply list_elem_of_here.
Defined.

Section merge_frame.
Import Str StrFacts.
Context (t : Tree) (Hwa : wellAddressed t = true).

Lemma level1_position i l1 i' l1' :
  t !! i = Some l1 → t !! i' = Some l1' → l1_id l1' = l1_id l1 → i' = i.
Proof.
  intros Hi Hi' E. destruct (decide (i' = i)) as [|Hne]; [done |]. exfalso.
  eapply (other_level1 t Hwa i' l1' i l1); [done | done | done | apply under_refl |].
  rewrite E. apply under_refl.
Qed.

Lemma level2_position i l1 j l2 j' l2' :
  t !! i = Some l1 → l1_children l1 !! j = Some l2 →
  l1_children l1 !! j' = Some l2' → l2_id l2' = l2_id l2 → j' = j.
Proof.
  intros Hi Hj Hj' E. destruct (decide (j' = j)) as [|Hne]; [done |]. exfalso.
  eapply (other_level2 t Hwa i l1 j' l2' j l2); [done | done | done | done | |].
  - apply under_refl.
  - rewrite E. apply under_refl.
Qed.

Lemma mergeIntoMap_elsewhere i l1 j n newLsis i' j' :
  t !! i = Some l1 → l1_children l1 !! j = Some n →
  i' ≠ i ∨ j' ≠ j →
  level2At (mergeIntoMap (l1_id l1) (l2_id n) newLsis (Some t)) i' j'
  = level2At (Some t) i' j'.
Proof.
  intros Hi Hj Hne. unfold level2At, mergeIntoMap. cbn [mbind option_bind].
  rewrite list_lookup_fmap. destruct (t !! i') as [l1'|] eqn:Hi'; [|done].
  cbn [fmap option_fmap option_map mbind option_bind].
  destruct (String.eqb_spec (l1_id l1') (l1_id l1)) as [E|E]; [|done].
  cbn [negb l1_children].
  pose proof (level1_position _ _ _ _ Hi Hi' E) as ->.
  assert (l1' = l1) as -> by congruence.
  rewrite list_lookup_fmap. destruct (l1_children l1 !! j') as [l2'|] eqn:Hj'; [|done].
  cbn [fmap option_fmap option_map].
  destruct (String.eqb_spec (l2_id l2') (l2_id n)) as [E2|E2]; [|done].
  pose proof (level2_position _ _ _ _ _ _ Hi Hj Hj' E2) as ->.
  by destruct Hne.
Qed.

(** The identifier of an appended term is not in the tree yet. *)
Lemma appended_id_fresh i l1 j n k :
  t !! i = Some l1 → l1_children l1 !! j = Some n →
  idLsi (l2_id n) (length (l2_lsi n) + k) ∉ tree_ids t.
Proof.
  intros Hi Hj Hin.
  assert (under (l2_id n) (idLsi (l2_id n) (length (l2_lsi n) + k))) as Hu2
    by apply under_idLsi.
  assert (under (l1_id l1) (idLsi (l2_id n) (length (l2_lsi n) + k))) as Hu1.
  { eapply under_trans; [by eapply level2_under | done]. }
  assert (∀ i' l1', t !! i' = Some l1' →
            idLsi (l2_id n) (length (l2_lsi n) + k) ∈ l1_ids l1' → i' = i) as Hroot.
  { intros i' l1' Hi' Hx. destruct (decide (i' = i)) as [|Hne]; [done |].
    exfalso. eapply (other_level1 t Hwa i' l1' i l1); try done.
    by eapply under_l1_ids. }
  destruct (tree_ids_cases t _ Hin)
    as [(i' & l1' & Hi' & E)
       |[(i' & l1' & j' & l2' & Hi' & Hj' & E)
        |(i' & l1' & j' & l2' & k' & y & Hi' & Hj' & Hk' & E)]].
  - assert (i' = i) as ->.
    { eapply Hroot; [done |]. rewrite E. apply elem_of_l1_ids. by left. }
    assert (l1' = l1) as -> by congruence.
    eapply (under_level2_ne_level1 t Hwa); [exact Hi | exact Hj | exact Hu2 | done].
  - assert (i' = i) as ->.
    { eapply Hroot; [done |]. rewrite E. apply elem_of_l1_ids. right.
      exists j', l2'. split; [done |]. apply elem_of_l2_ids. by left. }
    assert (l1' = l1) as -> by congruence.
    assert (j' = j) as ->.
    { destruct (decide (j' = j)) as [|Hne]; [done |]. exfalso.
      eapply (other_level2 t Hwa i l1 j' l2' j n); try done.
      rewrite <- E. apply under_refl. }
    assert (l2' = n) as -> by congruence.
    eapply (not_under_idLsi (l2_id n)). rewrite E. apply under_refl.
  - assert (i' = i) as ->.
    { eapply Hroot; [done |]. rewrite E. apply elem_of_l1_ids. right.
      exists j', l2'. split; [done |]. apply elem_of_l2_ids. right. eauto. }
    assert (l1' = l1) as -> by congruence.
    assert (under (l2_id l2') (lsi_id y)) as Hy.
    { rewrite (wa_lsi t Hwa _ _ _ _ _ _ Hi Hj' Hk'). apply under_idLsi. }
    assert (j' = j) as ->.
    { destruct (decide (j' = j)) as [|Hne]; [done |]. exfalso.
      eapply (other_level2 t Hwa i l1 j' l2' j n); try done.
      by rewrite <- E. }
    assert (l2' = n) as -> by congruence.
    pose proof (lookup_lt_Some _ _ _ Hk') as Hlt.
    rewrite (wa_lsi t Hwa _ _ _ _ _ _ Hi Hj Hk') in E.
    assert (length (l2_lsi n) + k = k'); [|lia].
    apply (under_idLsi_inj (l2_id n) _ _ (idLsi (l2_id n) k')).
    + rewrite <- E. apply under_refl.
    + apply under_refl.
Qed.

End merge_frame.

(** X8. An augmentation merge into the Level2 node at position
    [(i, j)] of a well-addressed tree leaves the Level2 node at every
    other position as it was. *)
Theorem merge_touches_one_node (t : Tree) (i j i' j' : nat)
    (l1 : RenderLevel1Node) (n : RenderLevel2Node) (newLsis : list string) :
  wellAddressed t = true →
  t !! i = Some l1 → l1_children l1 !! j = Some n → i' ≠ i ∨ j' ≠ j →
  level2At (handleGenerateLsi (Some t) true l1 (l2_id n) newLsis (Some t)) i' j'
  = level2At (Some t) i' j'.
Proof.
  intros Hwa Hi Hj Hne. unfold handleGenerateLsi.
  destruct (find_child_some _ _ _ Hj) as [c ->].
  by apply (mergeIntoMap_elsewhere t Hwa i l1 j n).
Qed.

Lemma merge_touches_one_node_witness :
  level2At (handleGenerateLsi (Some sampleTree) true
              {| l1_id := "l1-1"; l1_keyword := "B"; l1_type := "对比型";
                 l1_pageType := "Hub/Category Pages";
                 l1_children :=
                   [ {| l2_id := "l1-1-l2-0"; l2_keyword := "B1";
                        l2_type := "决策型 (Decision)";
                        l2_lsi := [ {| lsi_id := "l1-1-l2-0-lsi-0"; lsi_text := "u";
                                       lsi_isNew := None |} ] |} ] |}
              "l1-1-l2-0" ["u"; "w"] (Some sampleTree)) 0 0
  = level2At (Some sampleTree) 0 0.
Proof.
  refine (merge_touches_one_node sampleTree 1 0 0 0 _ _ ["u"; "w"]
            eq_refl eq_refl eq_refl _).
  left. lia.
Defined.

(** X9. The terms an augmentation merge appends to a node of a
    well-addressed tree get identifiers the tree did not have, so none
    of them is selected in a selection reachable by toggles over the
    tree before the merge. *)
Theorem merged_terms_start_unselected (t : Tree) (s : SelectedKeywords)
    (i j k : nat) (l1 : RenderLevel1Node) (n n' : RenderLevel2Node)
    (newLsis : list string) (y : RenderLsiNode) :
  wellAddressed t = true → reachable t s →
  t !! i = Some l1 → l1_children l1 !! j = Some n →
  level2At (handleGenerateLsi (Some t) true l1 (l2_id n) newLsis (Some t)) i j
    = Some n' →
  l2_lsi n' !! (length (l2_lsi n) + k) = Some y →
  (lsi_id y ∉ tree_ids t) ∧ s !! lsi_id y = None.
Proof.
  intros Hwa Hr Hi Hj Hn' Hy.
  unfold handleGenerateLsi in Hn'. destruct (find_child_some _ _ _ Hj) as [c Hc].
  rewrite Hc, (mergeIntoMap_at t i l1 j n newLsis Hi Hj) in Hn'.
  injection Hn' as <-. rewrite mergeLsi_terms in Hy.
  rewrite lookup_app_r in Hy by (rewrite length_fmap; lia).
  rewrite length_fmap, Nat.add_comm, Nat.add_sub in Hy.
  apply list_lookup_imap_Some in Hy as (c' & _ & ->). cbn [lsi_id].
  assert (idLsi (l2_id n) (length (l2_lsi n) + k) ∉ tree_ids t) as Hfresh
    by (by eapply appended_id_fresh).
  split; [done |].
  destruct (s !! idLsi (l2_id n) (length (l2_lsi n) + k)) as [b|] eqn:E; [|done].
  exfalso. apply Hfresh. eapply (reachable_keys_in_tree t Hwa s); [done |].
  destruct (reachable_consistent t Hwa s Hr) as [_ Hs].
  unfold checked. rewrite E. by rewrite (Hs _ _ E).
Qed.

Lemma merged_terms_start_unselected_witness :
  sampleSelected !! "l1-1-l2-0-lsi-1" = None.
Proof.
  refine (proj2 (merged_terms_start_unselected sampleTree sampleSelected 1 0 0
                   _ _ _ ["u"; "w"]
                   {| lsi_id := "l1-1-l2-0-lsi-1"; lsi_text := "w";
                      lsi_isNew := Some true |}
                   eq_refl _ eq_refl eq_refl eq_refl eq_refl)).
  apply (reachable_toggle sampleTree 3 "l1-0-l2-0-lsi-1" true ∅ sampleSelected).
  - apply reachable_init.
  - vm_compute. repeat constructor.
  - vm_compute. reflexivity.
Defined.

(** * The filtered view *)

Section view.
Import Str StrFacts.
Implicit Types (m : Tree) (f : FilterState).

Lemma filter_stage f (cs : list RenderLevel2Node) :
  (if truthy (userBehavior f)
   then List.filter (fun l2 => startsWith (l2_type l2) (userBehavior f)) cs
   else cs)
  = List.filter (stageMatches f) cs.
Proof.
  unfold stageMatches. destruct (truthy (userBehavior f)); cbn [negb orb]; [done |].
  induction cs as [|c cs IH]; [done |]. cbn. by rewrite <- IH.
Qed.

Lemma List_filter_filter {A} (p : A → bool) (l : list A) :
  List.filter p (List.filter p l) = List.filter p l.
Proof.
  induction l as [|a l IH]; [done |]. cbn. destruct (p a) eqn:E; [|done].
  cbn. by rewrite E, IH.
Qed.

Lemma List_filter_id {A} (p : A → bool) (l : list A) :
  (∀ x, x ∈ l → p x = true) → List.filter p l = l.
Proof.
  induction l as [|a l IH]; [done |]. intros H. cbn.
  rewrite (H a) by (by left). f_equal. apply IH. intros x Hx. apply H. by right.
Qed.

(** The view under some criterion, written with the three matches. *)
Lemma filteredKeywordMap_filtering m f :
  filtering f = true →
  filteredKeywordMap (Some m) f
  = Some (List.filter
            (fun l1 => categoryMatches f l1 && pageTypeMatches f l1
                       && (0 <? length (l1_children l1))%nat)
            ((fun l1 =>
                {| l1_id := l1_id l1; l1_keyword := l1_keyword l1;
                   l1_type := l1_type l1; l1_pageType := l1_pageType l1;
                   l1_children := List.filter (stageMatches f) (l1_children l1) |})
               <$> m)).
Proof.
  unfold filtering, filteredKeywordMap. intros Hf.
  assert (negb (truthy (category f)) && negb (truthy (pageType f))
          && negb (truthy (userBehavior f)) = false) as ->.
  { by destruct (truthy (category f)), (truthy (pageType f)),
      (truthy (userBehavior f)). }
  f_equal.
  assert ((fun l1 =>
             {| l1_id := l1_id l1; l1_keyword := l1_keyword l1;
                l1_type := l1_type l1; l1_pageType := l1_pageType l1;
                l1_children :=
                  if truthy (userBehavior f)
                  then List.filter
                         (fun l2 => startsWith (l2_type l2) (userBehavior f))
                         (l1_children l1)
                  else l1_children l1 |}) <$> m
          = (fun l1 =>
               {| l1_id := l1_id l1; l1_keyword := l1_keyword l1;
                  l1_type := l1_type l1; l1_pageType := l1_pageType l1;
                  l1_children := List.filter (stageMatches f) (l1_children l1) |})
              <$> m) as ->; [|reflexivity].
  apply list_fmap_ext. intros _ l1 _. f_equal. apply filter_stage.
Qed.

Lemma view_elem m f m' l1' :
  filtering f = true → filteredKeywordMap (Some m) f = Some m' →
  l1' ∈ m' ↔
  ∃ l1, l1 ∈ m
        ∧ l1' = {| l1_id := l1_id l1; l1_keyword := l1_keyword l1;
                   l1_type := l1_type l1; l1_pageType := l1_pageType l1;
                   l1_children := List.filter (stageMatches f) (l1_children l1) |}
        ∧ categoryMatches f l1 = true ∧ pageTypeMatches f l1 = true
        ∧ List.filter (stageMatches f) (l1_children l1) ≠ [].
Proof.
  intros Hf. rewrite (filteredKeywordMap_filtering m f Hf). intros [= <-].
  rewrite list_elem_of_In, filter_In, <- list_elem_of_In, list_elem_of_fmap.
  rewrite !andb_true_iff. split.
  - intros [(l1 & -> & Hl1) [[Hc Hp] Hn]]. exists l1. cbn in *.
    repeat split; try done. intros E. by rewrite E in Hn.
  - intros (l1 & Hl1 & -> & Hc & Hp & Hn). split; [eauto |]. cbn.
    repeat split; try done.
    destruct (List.filter (stageMatches f) (l1_children l1)); done.
Qed.

Lemma filter_pos_existsb {A} (p : A → bool) (l : list A) :
  (0 <? length (List.filter p l))%nat = existsb p l.
Proof. apply eq_true_iff_eq. by rewrite length_filter_pos, existsb_elem. Qed.

Lemma stage_children (f : FilterState) (cs : list RenderLevel2Node) :
  existsb (stageMatches f) cs = true ↔ List.filter (stageMatches f) cs ≠ [].
Proof.
  rewrite existsb_elem. split.
  - intros (c & Hc & Hs) E.
    assert (c ∈ List.filter (stageMatches f) cs) as Hin
      by (apply list_elem_of_In, filter_In; by rewrite <- list_elem_of_In).
    rewrite E in Hin. by apply elem_of_nil in Hin.
  - destruct (List.filter (stageMatches f) cs) as [|c l] eqn:E; [done |]. intros _.
    assert (c ∈ List.filter (stageMatches f) cs) as Hin by (rewrite E; by left).
    apply list_elem_of_In, filter_In in Hin as [Hin Hs].
    exists c. by rewrite list_elem_of_In.
Qed.

(** The view, node by node: the matching nodes of the tree in their
    order, each with its matching children. *)
Lemma view_nodes m f m' :
  filtering f = true → filteredKeywordMap (Some m) f = Some m' →
  Forall2
    (fun l1' l1 =>
       l1' = {| l1_id := l1_id l1; l1_keyword := l1_keyword l1;
                l1_type := l1_type l1; l1_pageType := l1_pageType l1;
                l1_children := List.filter (stageMatches f) (l1_children l1) |}
       ∧ List.filter (stageMatches f) (l1_children l1) ≠ [])
    m'
    (List.filter
       (fun l1 => categoryMatches f l1 && pageTypeMatches f l1
                  && existsb (stageMatches f) (l1_children l1))
       m).
Proof.
  intros Hf. rewrite (filteredKeywordMap_filtering m f Hf). intros [= <-].
  induction m as [|l1 m IH]; [constructor |].
  rewrite fmap_cons. cbn [List.filter l1_children].
  rewrite filter_pos_existsb.
  change (categoryMatches f {| l1_id := l1_id l1; l1_keyword := l1_keyword l1;
                               l1_type := l1_type l1; l1_pageType := l1_pageType l1;
                               l1_children :=
                                 List.filter (stageMatches f) (l1_children l1) |})
    with (categoryMatches f l1).
  change (pageTypeMatches f {| l1_id := l1_id l1; l1_keyword := l1_keyword l1;
                               l1_type := l1_type l1; l1_pageType := l1_pageType l1;
                               l1_children :=
                                 List.filter (stageMatches f) (l1_children l1) |})
    with (pageTypeMatches f l1).
  destruct (categoryMatches f l1 && pageTypeMatches f l1
            && existsb (stageMatches f) (l1_children l1)) eqn:E; [|exact IH].
  constructor; [|exact IH]. split; [done |].
  apply andb_true_iff in E as [_ E]. by apply stage_children.
Qed.

End view.

(** X10. Under criteria of which at least one is set, the filtered view
    is the list of the Level1 nodes of the tree that match the category
    and the page type and have a child matching the stage prefix, in
    the order of the tree and as often as the tree has them, each with
    its identifier and fields and with exactly its matching children. *)
Theorem filtered_view_holds (m m' : Tree) (f : FilterState) :
  filtering f = true → filteredKeywordMap (Some m) f = Some m' →
  Forall2
    (fun l1' l1 =>
       l1_id l1' = l1_id l1 ∧ l1_keyword l1' = l1_keyword l1
       ∧ l1_type l1' = l1_type l1 ∧ l1_pageType l1' = l1_pageType l1
       ∧ l1_children l1' = List.filter (stageMatches f) (l1_children l1)
       ∧ l1_children l1' ≠ [])
    m'
    (List.filter
       (fun l1 => categoryMatches f l1 && pageTypeMatches f l1
                  && existsb (stageMatches f) (l1_children l1))
       m)
  ∧ (∀ l1', l1' ∈ m' →
       ∃ l1, l1 ∈ m ∧ l1_id l1' = l1_id l1 ∧ l1_keyword l1' = l1_keyword l1
             ∧ l1_type l1' = l1_type l1 ∧ l1_pageType l1' = l1_pageType l1
             ∧ l1_children l1' = List.filter (stageMatches f) (l1_children l1)
             ∧ l1_children l1' ≠ []
             ∧ categoryMatches f l1 = true ∧ pageTypeMatches f l1 = true)
  ∧ (∀ l1 l2, l1 ∈ m → categoryMatches f l1 = true → pageTypeMatches f l1 = true →
       l2 ∈ l1_children l1 → stageMatches f l2 = true →
       ∃ l1', l1' ∈ m' ∧ l1_id l1' = l1_id l1 ∧ l2 ∈ l1_children l1').
Proof.
  intros Hf Hm'. split; [|split].
  - eapply Forall2_impl; [exact (view_nodes m f m' Hf Hm') |].
    intros l1' l1 [-> Hne]. cbn. by repeat (split; [reflexivity |]).
  - intros l1' (l1 & Hl1 & -> & Hc & Hp & Hn)%(view_elem m f m' l1' Hf Hm').
    exists l1. by repeat split.
  - intros l1 l2 Hl1 Hc Hp Hl2 Hs.
    assert (l2 ∈ List.filter (stageMatches f) (l1_children l1)) as Hin.
    { apply list_elem_of_In, filter_In. by rewrite <- list_elem_of_In. }
    exists {| l1_id := l1_id l1; l1_keyword := l1_keyword l1;
              l1_type := l1_type l1; l1_pageType := l1_pageType l1;
              l1_children := List.filter (stageMatches f) (l1_children l1) |}.
    split; [|split; [reflexivity | exact Hin]].
    apply (view_elem m f m' _ Hf Hm'). exists l1. repeat split; try done.
    intros E. rewrite E in Hin. by apply elem_of_nil in Hin.
Qed.

Lemma filtered_view_holds_witness :
  ∃ m', filteredKeywordMap (Some sampleTree)
          {| category := ""; pageType := "聚合类"; userBehavior := "决策型" |} = Some m'
        ∧ ∀ l1', l1' ∈ m' → l1_children l1' ≠ [].
Proof.
  eexists. split; [reflexivity |]. intros l1' Hl1'.
  destruct (proj1 (proj2 (filtered_view_holds sampleTree _
                     {| category := ""; pageType := "聚合类"; userBehavior := "决策型" |}
                     eq_refl eq_refl)) l1' Hl1')
    as (l1 & _ & _ & _ & _ & _ & _ & Hn & _).
  exact Hn.
Defined.

(** X11. Filtering a filtered view again with the same criteria changes
    nothing. *)
Theorem filter_idempotent (keywordMap : option Tree) (f : FilterState) :
  filteredKeywordMap (filteredKeywordMap keywordMap f) f
  = filteredKeywordMap keywordMap f.
Proof.
  destruct keywordMap as [m|]; [|done].
  destruct (filtering f) eqn:Hf.
  2:{ unfold filtering in Hf. apply orb_false_iff in Hf as [Hf H3].
      apply orb_false_iff in Hf as [H1 H2].
      unfold filteredKeywordMap. by rewrite H1, H2, H3. }
  rewrite (filteredKeywordMap_filtering m f Hf), filteredKeywordMap_filtering by done.
  f_equal.
  set (g := fun l1 => {| l1_id := l1_id l1; l1_keyword := l1_keyword l1;
                         l1_type := l1_type l1; l1_pageType := l1_pageType l1;
                         l1_children := List.filter (stageMatches f) (l1_children l1) |}).
  set (p := fun l1 => categoryMatches f l1 && pageTypeMatches f l1
                      && (0 <? length (l1_children l1))%nat).
  assert (∀ l1, g (g l1) = g l1) as Hg.
  { intros l1. unfold g. cbn. by rewrite List_filter_filter. }
  assert (g <$> List.filter p (g <$> m) = List.filter p (g <$> m)) as ->.
  { etrans; [|apply list_fmap_id]. apply list_fmap_ext. intros n x Hx.
    apply list_elem_of_lookup_2, list_elem_of_In, filter_In in Hx as [Hin _].
    apply list_elem_of_In, list_elem_of_fmap in Hin as (l1 & E & _).
    rewrite E. apply Hg. }
  apply List_filter_filter.
Qed.

(** X12. Every identifier shown in a filtered view is an identifier of
    the tree, so every toggle from the view addresses a node of the
    tree. *)
Theorem filtered_view_ids (m m' : Tree) (f : FilterState) (x : string) :
  filteredKeywordMap (Some m) f = Some m' → x ∈ tree_ids m' → x ∈ tree_ids m.
Proof.
  intros Hm'. rewrite !elem_of_tree_ids. intros (i' & l1' & Hi' & Hx).
  apply list_elem_of_lookup_2 in Hi'.
  destruct (filteredKeywordMap_part m m' f l1' Hm' Hi')
    as (l1 & [i Hi]%list_elem_of_lookup & Hid & _ & _ & _ & Hsub).
  exists i, l1. split; [done |].
  apply elem_of_l1_ids in Hx as [->|(j' & l2 & Hj' & Hx)];
    apply elem_of_l1_ids; [by left | right].
  apply list_elem_of_lookup_2, Hsub, list_elem_of_lookup in Hj' as [j Hj]. eauto.
Qed.

Lemma filtered_view_ids_witness :
  "l1-1-l2-0" ∈ tree_ids sampleTree.
Proof.
  refine (filtered_view_ids sampleTree _
            {| category := ""; pageType := "聚合类"; userBehavior := "决策型" |}
            "l1-1-l2-0" eq_refl _).
  vm_compute. repeat constructor.
Defined.

(** X13. The page-type table maps every label it knows to a canonical
    label, and every canonical label to itself. *)
Theorem page_type_map_idempotent (x y : string) :
  PAGE_TYPE_MAP !! x = Some y → PAGE_TYPE_MAP !! y = Some y.
Proof.
  unfold PAGE_TYPE_MAP. intros H%elem_of_list_to_map_2.
  repeat (apply elem_of_cons in H as [[= -> ->]|H]; [vm_compute; reflexivity |]).
  by apply elem_of_nil in H.
Qed.

Lemma page_type_map_idempotent_witness :
  PAGE_TYPE_MAP !! "文章类" = Some "文章类".
Proof.
  apply (page_type_map_idempotent "Article/Blog Pages" "文章类").
  vm_compute. reflexivity.
Defined.

(** Without a stage criterion a node of the view has the identifier and
    the children of a node of the tree. *)
Lemma view_node_whole (t m' : Tree) (f : FilterState) l1' :
  Str.truthy (userBehavior f) = false →
  filteredKeywordMap (Some t) f = Some m' → l1' ∈ m' →
  ∃ l1, l1 ∈ t ∧ l1_id l1' = l1_id l1 ∧ l1_children l1' = l1_children l1.
Proof.
  intros Hu Hm' Hin. destruct (filtering f) eqn:Hf.
  - apply (view_elem t f m' l1' Hf Hm') in Hin as (l1 & Hl1 & -> & _).
    exists l1. split; [done |]. split; [done |]. cbn [l1_children].
    apply List_filter_id. intros l2 _. unfold stageMatches. by rewrite Hu.
  - unfold filtering in Hf. apply orb_false_iff in Hf as [Hf H3].
    apply orb_false_iff in Hf as [H1 H2].
    unfold filteredKeywordMap in Hm'. rewrite H1, H2, H3 in Hm'. cbn [negb andb] in Hm'.
    injection Hm' as <-. by exists l1'.
Qed.

(** X5. With no stage criterion set, for every selection reachable by
    toggles over a well-addressed tree, the checkbox of a Level1 node
    of the view (the node the component renders) is shown checked
    exactly when the node is in the selection; it is shown
    indeterminate exactly when one of its descendants is selected and
    another one is not. *)
Theorem level1_checkbox_reads_selection (t m' : Tree) (s : SelectedKeywords)
    (f : FilterState) (l1' : RenderLevel1Node) :
  wellAddressed t = true → reachable t s →
  Str.truthy (userBehavior f) = false →
  filteredKeywordMap (Some t) f = Some m' → l1' ∈ m' →
  isChecked (level1Checkbox s l1') = checked s (l1_id l1')
  ∧ (isIndeterminate (level1Checkbox s l1') = true ↔
     (∃ x, x ∈ concat (l2_ids <$> l1_children l1') ∧ checked s x = true)
     ∧ (∃ x, x ∈ concat (l2_ids <$> l1_children l1') ∧ checked s x = false)).
Proof.
  intros Hwa Hr Hu Hm' Hin.
  destruct (view_node_whole t m' f l1' Hu Hm' Hin) as (l1 & [i Hi]%list_elem_of_lookup & Eid & Ech).
  assert (level1Checkbox s l1' = level1Checkbox s l1) as ->
    by (unfold level1Checkbox; by rewrite Eid, Ech).
  rewrite Eid, Ech. split; [by eapply level1_reads |].
  unfold level1Checkbox.
  destruct (length (concat (l2_ids <$> l1_children l1)) =? 0)%nat eqn:E.
  - cbn. split; [done |]. intros [(x & Hx & _) _].
    destruct (concat (l2_ids <$> l1_children l1)); [by apply elem_of_nil in Hx | done].
  - cbn [isIndeterminate]. apply (counted_flags s).
Qed.

Lemma level1_checkbox_reads_selection_witness :
  ∃ m' l1',
    filteredKeywordMap (Some sampleTree)
      {| category := "引流型"; pageType := ""; userBehavior := "" |} = Some m'
    ∧ m' !! 0 = Some l1'
    ∧ isChecked (level1Checkbox sampleSelected l1') = checked sampleSelected (l1_id l1').
Proof.
  eexists. eexists. split; [reflexivity |]. split; [reflexivity |].
  refine (proj1 (level1_checkbox_reads_selection sampleTree _ sampleSelected
                   {| category := "引流型"; pageType := ""; userBehavior := "" |} _
                   eq_refl _ eq_refl eq_refl _)).
  - apply (reachable_toggle sampleTree 3 "l1-0-l2-0-lsi-1" true ∅ sampleSelected).
    + apply reachable_init.
    + vm_compute. repeat constructor.
    + vm_compute. reflexivity.
  - apply list_elem_of_here.
Defined.

(** * Saving what is selected *)

Section savable.
Import Str StrFacts.
Context (t : Tree) (Hwa : wellAddressed t = true).
Implicit Types (s : SelectedKeywords).

Lemma selectionCount_pos s :
  0 < selectionCount s → ∃ k b, s !! k = Some b.
Proof.
  unfold selectionCount. rewrite length_fmap.
  destruct (map_to_list s) as [|[k b] l] eqn:E; [cbn; lia |]. intros _.
  exists k, b. apply elem_of_map_to_list. rewrite E. by left.
Qed.

Lemma holds_nonempty (out : list SavedLevel1Node) x :
  holdsLevel1 out x ∨ holdsLevel2 out x ∨ holdsTerm out x → out ≠ [].
Proof.
  intros [(s1 & H & _)|[(s1 & s2 & H & _)|(s1 & s2 & e & H & _)]] ->;
    by apply elem_of_nil in H.
Qed.

Lemma selected_node_retained s x :
  x ∈ tree_ids t → checked s x = true → prunedAsSpecified s t ≠ [].
Proof.
  intros Hx Hc. apply (holds_nonempty _ x).
  destruct (tree_ids_cases t x Hx)
    as [(i & l1 & Hi & ->)
       |[(i & l1 & j & l2 & Hi & Hj & ->)
        |(i & l1 & j & l2 & k & y & Hi & Hj & Hk & ->)]].
  - left. apply (holdsLevel1_spec t Hwa); [by eapply list_elem_of_lookup_2 | by left].
  - right. left.
    apply (holdsLevel2_spec t Hwa s l1 l2);
      [by eapply list_elem_of_lookup_2 | by eapply list_elem_of_lookup_2 | by left].
  - right. right.
    eapply (holdsTerm_spec t); try done; by eapply list_elem_of_lookup_2.
Qed.

End savable.

Lemma reachable_selection_kept (t : Tree) (s : SelectedKeywords) :
  wellAddressed t = true → reachable t s → 0 < selectionCount s →
  (pruneHierarchy (Some t) s).1 ≠ [].
Proof.
  intros Hwa Hr Hcount.
  destruct (selectionCount_pos _ Hcount) as (k & b & Hk).
  destruct (reachable_consistent t Hwa _ Hr) as [_ Hs].
  pose proof (Hs _ _ Hk) as ->.
  assert (checked s k = true) as Hck by (unfold checked; by rewrite Hk).
  pose proof (reachable_keys_in_tree t Hwa _ k Hr Hck) as Hin.
  rewrite (pruneHierarchy_spec t Hwa).
  by apply (selected_node_retained t Hwa _ k).
Qed.

Lemma saveUnderParent_valid (st : SaveState) (be : Backend) (parent : string)
    (done : list Effect) :
  Str.truthy (Str.trim (subProjectName st)) = true → Str.truthy parent = true →
  (pruneHierarchy (keywordMap st) (selectedKeywords st)).1 ≠ [] →
  ∃ sp, saveUnderParent st be parent done
        = done ++ InsertIntoKeywordLibrary sp (userId st)
            :: match insertSubProject be sp with
               | None => [FetchData; ResetSaveForm; Alert "子项目保存成功！"]
               | Some message => [Alert ("保存失败: " +:+ message)]
               end.
Proof.
  intros E1 E2 Hne. unfold saveUnderParent. rewrite E1, E2. cbn [negb orb].
  destruct (pruneHierarchy (keywordMap st) (selectedKeywords st)) as [hs ids].
  cbn [fst] in Hne.
  destruct (length hs =? 0)%nat eqn:E4; [by destruct hs |].
  set (sp := {| sp_id := _ |}). exists sp.
  destruct (insertSubProject be sp); reflexivity.
Qed.

(** X14. Whenever the save bar is shown (the selection has at least one
    key) for a selection reachable by toggles over a well-addressed
    tree, and the form names a sub-project and an existing parent
    project, the handler hands a record to the persistence service: the
    "nothing selected" message cannot appear. *)
Theorem shown_selection_is_saved (st : SaveState) (be : Backend) (t : Tree) :
  keywordMap st = Some t → wellAddressed t = true →
  reachable t (selectedKeywords st) → 0 < selectionCount (selectedKeywords st) →
  connected st = true → isSaveDisabled st = false →
  parentProjectId st ≠ "create_new" →
  ∃ sp, handleSaveSubProject st be
        = InsertIntoKeywordLibrary sp (userId st)
          :: match insertSubProject be sp with
             | None => [FetchData; ResetSaveForm; Alert "子项目保存成功！"]
             | Some message => [Alert ("保存失败: " +:+ message)]
             end.
Proof.
  intros Ht Hwa Hr Hcount Hc Hd Hnew.
  unfold isSaveDisabled in Hd.
  destruct (Str.truthy (Str.trim (subProjectName st))) eqn:E1; [|done].
  cbn [negb] in Hd.
  unfold handleSaveSubProject. rewrite Hc. cbn [negb].
  destruct (String.eqb_spec (parentProjectId st) "create_new") as [E|_]; [done |].
  apply negb_false_iff in Hd.
  apply (saveUnderParent_valid st be (parentProjectId st) []); [done | done |].
  rewrite Ht. by apply reachable_selection_kept.
Qed.

Lemma shown_selection_is_saved_witness :
  ∃ sp, handleSaveSubProject
          {| connected := true; userId := "user-1"; parentProjectId := "P";
             newParentProjectName := ""; subProjectName := "A";
             keywordLibrary := []; keywordMap := Some sampleTree;
             selectedKeywords := sampleSelected; translations := ∅;
             generationModel := None; projectNow := 1; projectIso := "";
             subProjectNow := 2; subProjectIso := "" |} okBackend
        = [InsertIntoKeywordLibrary sp "user-1"; FetchData; ResetSaveForm;
           Alert "子项目保存成功！"].
Proof.
  refine (shown_selection_is_saved
            {| connected := true; userId := "user-1"; parentProjectId := "P";
               newParentProjectName := ""; subProjectName := "A";
               keywordLibrary := []; keywordMap := Some sampleTree;
               selectedKeywords := sampleSelected; translations := ∅;
               generationModel := None; projectNow := 1; projectIso := "";
               subProjectNow := 2; subProjectIso := "" |}
            okBackend sampleTree eq_refl eq_refl _ _ eq_refl eq_refl _).
  - apply (reachable_toggle sampleTree 3 "l1-0-l2-0-lsi-1" true ∅ sampleSelected).
    + apply reachable_init.
    + vm_compute. repeat constructor.
    + vm_compute. reflexivity.
  - vm_compute. lia.
  - discriminate.
Defined.

(** X15. A run of the save handler with a client and a session always
    ends with a message; it makes at most one insert into
    [keyword_library]; and it reloads the data and resets the form and
    the selection exactly when that insert was accepted, so after a
    failed insert the form and the selection are kept. *)
Theorem save_resets_only_on_success (st : SaveState) (be : Backend) :
  connected st = true →
  (∃ msg, last (handleSaveSubProject st be) = Some (Alert msg))
  ∧ length (List.filter (fun e => match e with
                                  | InsertIntoKeywordLibrary _ _ => true
                                  | _ => false
                                  end) (handleSaveSubProject st be)) ≤ 1
  ∧ (ResetSaveForm ∈ handleSaveSubProject st be
     ↔ ∃ sp, written be (handleSaveSubProject st be) = [sp])
  ∧ (FetchData ∈ handleSaveSubProject st be
     ↔ ResetSaveForm ∈ handleSaveSubProject st be).
Proof.
  intros Hc.
  assert (∀ parent done,
    (done = [] ∨ ∃ p, done = [InsertIntoProjects p (userId st)]) →
    let es := saveUnderParent st be parent done in
    (∃ msg, last es = Some (Alert msg))
    ∧ length (List.filter (fun e => match e with
                                    | InsertIntoKeywordLibrary _ _ => true
                                    | _ => false
                                    end) es) ≤ 1
    ∧ (ResetSaveForm ∈ es ↔ ∃ sp, written be es = [sp])
    ∧ (FetchData ∈ es ↔ ResetSaveForm ∈ es)) as Hunder.
  { intros parent done Hdone es. unfold es, saveUnderParent.
    assert (∀ sp, match insertSubProject be sp with
                  | Some message =>
                      done ++ [InsertIntoKeywordLibrary sp (userId st);
                               Alert ("保存失败: " +:+ message)]
                  | None =>
                      done ++ [InsertIntoKeywordLibrary sp (userId st);
                               FetchData; ResetSaveForm; Alert "子项目保存成功！"]
                  end = done ++ InsertIntoKeywordLibrary sp (userId st)
                          :: match insertSubProject be sp with
                             | Some message => [Alert ("保存失败: " +:+ message)]
                             | None => [FetchData; ResetSaveForm;
                                        Alert "子项目保存成功！"]
                             end) as Hshape.
    { intros sp. by destruct (insertSubProject be sp). }
    destruct (negb _ || negb _);
      [|destruct (pruneHierarchy _ _) as [hs ids];
        destruct (length hs =? 0)%nat; [|rewrite Hshape]].
    1,2: destruct Hdone as [->|[p ->]]; cbn;
      (split; [eauto |]); (split; [lia |]);
      (split; split; intros H;
        try (destruct H as [sp H]; discriminate H);
        repeat (apply elem_of_cons in H as [H|H]; try discriminate H);
        by apply elem_of_nil in H).
    set (sp := {| sp_id := _ |}).
    destruct Hdone as [->|[p ->]]; cbn;
      destruct (insertSubProject be sp) eqn:Einsert; cbn; rewrite ?Einsert;
      (split; [eauto |]); (split; [lia |]);
      (split; split; intros H;
        try (destruct H as [sp' H]; discriminate H);
        try (by eexists);
        try (by repeat constructor);
        repeat (apply elem_of_cons in H as [H|H]; try discriminate H);
        by apply elem_of_nil in H). }
  unfold handleSaveSubProject. rewrite Hc. cbn [negb].
  destruct (String.eqb (parentProjectId st) "create_new"); [|apply Hunder; by left].
  destruct (negb (Str.truthy (Str.trim (newParentProjectName st)))).
  { cbn. split; [eauto |]. split; [lia |].
    split; split; intros H;
      try (destruct H as [sp H]; discriminate H);
      repeat (apply elem_of_cons in H as [H|H]; try discriminate H);
      by apply elem_of_nil in H. }
  destruct (insertProject be (newProjectOf st)) as [dataId|message].
  - apply Hunder. right. eauto.
  - cbn. split; [eauto |]. split; [lia |].
    split; split; intros H;
      try (destruct H as [sp H]; discriminate H);
      repeat (apply elem_of_cons in H as [H|H]; try discriminate H);
      by apply elem_of_nil in H.
Qed.

Lemma save_resets_only_on_success_witness :
  ∃ msg, last (handleSaveSubProject createNewWithoutName okBackend) = Some (Alert msg).
Proof.
  exact (proj1 (save_resets_only_on_success createNewWithoutName okBackend eq_refl)).
Defined.

(** * White space *)

Module SpaceFacts.
Import Str StrFacts.

Lemma occurs_app c a b : occurs c (a +:+ b) = occurs c a || occurs c b.
Proof.
  induction a as [|x a IH]; rewrite ?append_nil_l, ?append_cons; [done |].
  cbn [occurs]. by rewrite IH, orb_assoc.
Qed.

Lemma length_append a b : String.length (a +:+ b) = String.length a + String.length b.
Proof.
  induction a as [|x a IH]; rewrite ?append_nil_l, ?append_cons; [done |].
  cbn [String.length]. by rewrite IH.
Qed.

Lemma afterPrefix_spec p s r : afterPrefix p s = Some r ↔ s = p +:+ r.
Proof.
  revert s. induction p as [|a p IH]; intros s; rewrite ?append_nil_l, ?append_cons.
  - cbn. split; congruence.
  - destruct s as [|b s]; cbn [afterPrefix]; [split; discriminate |].
    destruct (Ascii.eqb_spec a b) as [->|Hne].
    + rewrite IH. split; congruence.
    + split; [discriminate | congruence].
Qed.

Lemma skipSpace_some s r : skipSpace s = Some r → ∃ w, w ∈ whiteSpace ∧ s = w +:+ r.
Proof.
  unfold skipSpace. induction whiteSpace as [|w l IH]; [done |]. cbn [foldr].
  destruct (afterPrefix w s) as [r'|] eqn:E.
  - intros [= ->]. exists w. split; [by left | by apply afterPrefix_spec].
  - intros (w' & Hw' & Hs)%IH. exists w'. split; [by right | done].
Qed.

Lemma whiteSpace_cases (P : string → Prop) :
  Forall P whiteSpace → ∀ w, w ∈ whiteSpace → P w.
Proof. intros H w Hw. by apply (proj1 (Forall_forall P whiteSpace) H). Qed.

(** No white-space character starts another one. *)
Lemma skipSpace_here w r : w ∈ whiteSpace → skipSpace (w +:+ r) = Some r.
Proof.
  revert w. apply whiteSpace_cases. unfold whiteSpace.
  repeat (apply Forall_cons; split; [vm_compute; reflexivity |]). apply Forall_nil_2.
Qed.

Lemma whiteSpace_length w : w ∈ whiteSpace → 0 < String.length w.
Proof.
  revert w. apply whiteSpace_cases. unfold whiteSpace.
  repeat (apply Forall_cons; split; [vm_compute; lia |]). apply Forall_nil_2.
Qed.

Lemma skipSpace_shorter s r : skipSpace s = Some r → String.length r < String.length s.
Proof.
  intros (w & Hw & ->)%skipSpace_some. rewrite length_append.
  pose proof (whiteSpace_length w Hw). lia.
Qed.

Lemma skipSpace_empty : skipSpace "" = None.
Proof. reflexivity. Qed.

Lemma trimStartWithin_enough n m s :
  String.length s ≤ n → String.length s ≤ m →
  trimStartWithin n s = trimStartWithin m s.
Proof.
  revert m s. induction n as [|n IH]; intros [|m] s Hn Hm; cbn [trimStartWithin]; try done.
  - destruct s; [by rewrite skipSpace_empty | cbn in Hn; lia].
  - destruct s; [by rewrite skipSpace_empty | cbn in Hm; lia].
  - destruct (skipSpace s) as [r|] eqn:E; [|done].
    apply skipSpace_shorter in E. apply IH; lia.
Qed.

(** The equation of [trimStart]. *)
Lemma trimStart_eq s :
  trimStart s = match skipSpace s with Some r => trimStart r | None => s end.
Proof.
  unfold trimStart. destruct s as [|c s]; [by rewrite skipSpace_empty |].
  cbn [String.length trimStartWithin].
  destruct (skipSpace (String c s)) as [r|] eqn:E; [|done].
  apply skipSpace_shorter in E. cbn [String.length] in E.
  apply trimStartWithin_enough; lia.
Qed.

Lemma by_length (P : string → Prop) :
  (∀ s, (∀ r, String.length r < String.length s → P r) → P s) → ∀ s, P s.
Proof.
  intros H s. remember (String.length s) as n eqn:E. revert s E.
  induction n as [n IH] using lt_wf_ind. intros s ->. apply H.
  intros r Hr. by apply (IH (String.length r)).
Qed.

Lemma trimStart_split s : ∃ ws, AllSpace ws ∧ s = ws +:+ trimStart s.
Proof.
  induction s as [s IH] using by_length. rewrite trimStart_eq.
  destruct (skipSpace s) as [r|] eqn:E.
  - pose proof (skipSpace_shorter _ _ E) as Hlt.
    apply skipSpace_some in E as (w & Hw & ->).
    destruct (IH r Hlt) as (ws & Hws & Hr). exists (w +:+ ws).
    split; [by constructor |]. by rewrite append_assoc, <- Hr.
  - exists "". split; [constructor | by rewrite append_nil_l].
Qed.

Lemma trimStart_none s : skipSpace (trimStart s) = None.
Proof.
  induction s as [s IH] using by_length. rewrite trimStart_eq.
  destruct (skipSpace s) as [r|] eqn:E; [|done].
  apply IH. by apply skipSpace_shorter.
Qed.

Lemma trimStart_fix s : skipSpace s = None → trimStart s = s.
Proof. intros H. by rewrite trimStart_eq, H. Qed.

Lemma allSpace_spec s : allSpace s = true ↔ AllSpace s.
Proof.
  unfold allSpace. split.
  - destruct (trimStart_split s) as (ws & Hws & Hs).
    destruct (trimStart s); [|done]. intros _. rewrite Hs, append_nil_r. done.
  - induction 1 as [|w r Hw Hr IH]; [done |].
    by rewrite trimStart_eq, skipSpace_here.
Qed.

Lemma AllSpace_app a b : AllSpace a → AllSpace b → AllSpace (a +:+ b).
Proof.
  induction 1 as [|w r Hw Hr IH]; intros Hb; [by rewrite append_nil_l |].
  rewrite append_assoc. constructor; auto.
Qed.

Lemma trimEnd_split s : ∃ q, AllSpace q ∧ s = trimEnd s +:+ q.
Proof.
  induction s as [|c s (q & Hq & Hs)]; [exists ""; split; [constructor | done] |].
  cbn [trimEnd]. destruct (allSpace (String c s)) eqn:E.
  - exists (String c s). split; [by apply allSpace_spec | by rewrite append_nil_l].
  - exists q. split; [done |]. by rewrite append_cons, <- Hs.
Qed.

Lemma trimEnd_idem s : trimEnd (trimEnd s) = trimEnd s.
Proof.
  induction s as [|c s IH]; [done |]. cbn [trimEnd].
  destruct (allSpace (String c s)) eqn:E; [done |]. cbn [trimEnd].
  destruct (allSpace (String c (trimEnd s))) eqn:E'; [|by rewrite IH].
  exfalso. destruct (trimEnd_split s) as (q & Hq & Hs).
  assert (AllSpace (String c s)) as H.
  { rewrite Hs, <- append_cons. apply AllSpace_app; [by apply allSpace_spec | done]. }
  apply allSpace_spec in H. congruence.
Qed.

Lemma trimEnd_none s : skipSpace s = None → skipSpace (trimEnd s) = None.
Proof.
  intros Hs. destruct (skipSpace (trimEnd s)) as [r|] eqn:E; [exfalso | done].
  apply skipSpace_some in E as (w & Hw & E).
  destruct (trimEnd_split s) as (q & _ & Hq).
  rewrite E, append_assoc in Hq. rewrite Hq, skipSpace_here in Hs; done.
Qed.

Lemma trim_idem s : trim (trim s) = trim s.
Proof.
  unfold trim. rewrite (trimStart_fix (trimEnd _)).
  - apply trimEnd_idem.
  - apply trimEnd_none, trimStart_none.
Qed.

(** A string that trims to nothing is white space. *)
Lemma trim_empty s : trim s = "" → AllSpace s.
Proof.
  unfold trim. intros H.
  destruct (trimStart_split s) as (ws & Hws & Hs). rewrite Hs.
  apply AllSpace_app; [done |].
  destruct (trimStart s) as [|c u] eqn:E; [constructor |].
  cbn [trimEnd] in H. destruct (allSpace (String c u)) eqn:Ea; [|done].
  by apply allSpace_spec.
Qed.

Lemma AllSpace_occurs c s :
  forallb (fun w => negb (occurs c w)) whiteSpace = true →
  AllSpace s → occurs c s = false.
Proof.
  intros Hc. induction 1 as [|w r Hw Hr IH]; [done |].
  rewrite occurs_app, IH, orb_false_r.
  apply negb_true_iff. revert w Hw. apply whiteSpace_cases.
  by apply Forall_forall, forallb_elem.
Qed.

(** A string with a character that is in no white-space character does
    not trim to the empty string. *)
Lemma trim_truthy c s :
  forallb (fun w => negb (occurs c w)) whiteSpace = true →
  occurs c s = true → truthy (trim s) = true.
Proof.
  intros Hc Hs. destruct (trim s) eqn:E; [exfalso | done].
  apply trim_empty in E. rewrite (AllSpace_occurs c s Hc E) in Hs. done.
Qed.

End SpaceFacts.

(** * Version names *)

Module NameFacts.
Import Str StrFacts Regex.

Lemma list_ascii_app a b :
  list_ascii_of_string (a +:+ b) = list_ascii_of_string a ++ list_ascii_of_string b.
Proof. induction a as [|c a IH]; rewrite ?append_nil_l, ?append_cons; cbn; by rewrite ?IH. Qed.

Lemma list_ascii_inj a b : list_ascii_of_string a = list_ascii_of_string b → a = b.
Proof.
  intros H. by rewrite <- (string_of_list_ascii_of_string a), H,
    string_of_list_ascii_of_string.
Qed.

(** Numerals are non-empty strings of digits. *)

Lemma uint_digits d : forallb is_digit (list_ascii_of_string (NilEmpty.string_of_uint d)) = true.
Proof. induction d; cbn; auto. Qed.

Lemma dec_digits n : forallb is_digit (list_ascii_of_string (dec n)) = true.
Proof. apply uint_digits. Qed.

Lemma dec_nonempty n : dec n ≠ "".
Proof.
  unfold dec. intros H.
  assert (Nat.to_uint n = Decimal.Nil) as E by (by destruct (Nat.to_uint n)).
  pose proof (Unsigned.to_of (Nat.to_uint n)) as Hn.
  rewrite Unsigned.of_to, E in Hn. discriminate Hn.
Qed.

(** What the pattern matches. *)

Lemma match_lits p re s r :
  match_here (lits p ++ re) s = Some r →
  ∃ s', s = p +:+ s' ∧ match_here re s' = Some r.
Proof.
  revert s. induction p as [|c p IH]; intros s; cbn [lits app].
  - intros H. exists s. by rewrite append_nil_l.
  - cbn [match_here]. destruct s as [|c' s]; [done |].
    destruct (Ascii.eqb_spec c' c) as [->|]; [|done].
    intros (s' & -> & H)%IH. exists s'. by rewrite append_cons.
Qed.

Lemma match_lits_here p re s : match_here (lits p ++ re) (p +:+ s) = match_here re s.
Proof.
  induction p as [|c p IH]; rewrite ?append_nil_l, ?append_cons; [done |].
  cbn [lits app match_here]. by rewrite Ascii.eqb_refl.
Qed.

Lemma match_plus p re s r :
  match_here (Plus p :: re) s = Some r →
  ∃ d s', s = d +:+ s' ∧ d ≠ "" ∧ forallb p (list_ascii_of_string d) = true
          ∧ match_here re s' = Some r.
Proof.
  cbn [match_here]. induction s as [|c s IH]; [done |].
  destruct (p c) eqn:Ec; [|done].
  match goal with
  | |- context [match ?m with Some _ => _ | None => _ end] => destruct m eqn:Em
  end.
  - intros [= ->]. destruct (IH eq_refl) as (d & s' & -> & _ & Hd & H).
    exists (String c d), s'. rewrite append_cons. cbn. by rewrite Ec.
  - intros H. exists (String c ""), s. rewrite append_cons, append_nil_l. cbn.
    by rewrite Ec.
Qed.

Lemma match_plus_here d :
  d ≠ "" → forallb is_digit (list_ascii_of_string d) = true →
  match_here [Plus is_digit; Lit ")"%char; EndOfInput] (d +:+ ")") = Some "".
Proof.
  cbn [match_here]. induction d as [|c d IH]; [done |]. intros _.
  cbn [list_ascii_of_string forallb]. intros [Hc Hd]%andb_true_iff.
  rewrite append_cons, Hc. destruct d as [|c' d].
  - by rewrite append_nil_l.
  - by rewrite IH.
Qed.

Lemma versionSuffix_match s r :
  match_here versionSuffix s = Some r →
  r = "" ∧ ∃ w d, w ∈ whiteSpace ∧ s = w +:+ "(Version " +:+ d +:+ ")"
                  ∧ d ≠ "" ∧ forallb is_digit (list_ascii_of_string d) = true.
Proof.
  unfold versionSuffix. cbn [match_here].
  destruct (skipSpace s) as [s0|] eqn:Es; [|done].
  apply SpaceFacts.skipSpace_some in Es as (w & Hw & ->).
  intros (s1 & -> & (d & s2 & -> & Hne & Hd & H)%match_plus)%match_lits.
  cbn [match_here] in H. destruct s2 as [|c s2]; [done |].
  destruct (Ascii.eqb_spec c ")"%char) as [->|]; [|done].
  destruct s2; [|done]. injection H as <-. split; [done |]. by exists w, d.
Qed.

Lemma versionSuffix_here n :
  match_here versionSuffix (" (Version " +:+ dec n +:+ ")") = Some "".
Proof.
  unfold versionSuffix.
  change (" (Version " +:+ dec n +:+ ")")
    with (String " " ("(Version " +:+ dec n +:+ ")")).
  cbn [match_here].
  assert (∀ r, skipSpace (String " " r) = Some r) as -> by reflexivity.
  rewrite match_lits_here. apply match_plus_here; [apply dec_nonempty | apply dec_digits].
Qed.

(** Two runs of digits, each before a character that is no digit. *)
Lemma digit_head (d1 d2 a b : list ascii) x y :
  d1 ++ x :: a = d2 ++ y :: b →
  is_digit x = false → is_digit y = false →
  forallb is_digit d1 = true → forallb is_digit d2 = true →
  d1 = d2 ∧ a = b.
Proof.
  intros E Hx Hy. revert d2 E.
  induction d1 as [|z d1 IH]; intros [|z' d2] E; cbn [forallb]; cbn [app] in E.
  - intros _ _. by injection E as _ ->.
  - intros _ [Hz _]%andb_true_iff. injection E as -> _. congruence.
  - intros [Hz _]%andb_true_iff _. injection E as -> _. congruence.
  - intros [_ H1]%andb_true_iff [_ H2]%andb_true_iff. injection E as -> E.
    destruct (IH d2 E H1 H2) as [-> ->]. done.
Qed.

Lemma forallb_rev (f : ascii → bool) l : forallb f (rev l) = forallb f l.
Proof.
  apply eq_true_iff_eq. rewrite !forallb_forall.
  split; intros H x Hx; apply H; by apply in_rev; rewrite ?rev_involutive.
Qed.

Lemma digit_tail (a b d1 d2 : list ascii) x y :
  a ++ x :: d1 = b ++ y :: d2 →
  is_digit x = false → is_digit y = false →
  forallb is_digit d1 = true → forallb is_digit d2 = true →
  a = b ∧ d1 = d2.
Proof.
  intros E Hx Hy H1 H2. apply (f_equal (@rev ascii)) in E.
  rewrite !rev_app_distr in E. cbn [rev] in E. rewrite <- !List.app_assoc in E.
  cbn [app] in E.
  destruct (digit_head _ _ _ _ _ _ E Hx Hy) as [Ed Ea]; [by rewrite forallb_rev.. |].
  split.
  - by rewrite <- (rev_involutive a), Ea, rev_involutive.
  - by rewrite <- (rev_involutive d1), Ed, rev_involutive.
Qed.

(** No white-space character of more than one byte ends with a space. *)
Lemma whiteSpace_not_after w c l :
  w ∈ whiteSpace → list_ascii_of_string w ≠ c :: l ++ [" "%char].
Proof.
  intros Hw. revert c l. revert w Hw.
  apply (SpaceFacts.whiteSpace_cases
           (fun w => ∀ c l, list_ascii_of_string w ≠ c :: l ++ [" "%char])).
  unfold whiteSpace.
  repeat (apply Forall_cons; split;
          [intros c [|? [|? [|? ?]]] E; cbn in E; discriminate E |]).
  apply Forall_nil_2.
Qed.

(** Inside [base (Version n)] the pattern matches at the appended
    suffix and nowhere before it: an earlier match would have to take
    the space before [(Version] for the end of a white-space
    character. *)
Lemma versionSuffix_not_before c b n :
  match_here versionSuffix (String c (b +:+ " (Version " +:+ dec n +:+ ")")) = None.
Proof.
  destruct (match_here _ _) as [r|] eqn:E; [exfalso | done].
  apply versionSuffix_match in E as (_ & w & d & Hw & E & _ & Hd).
  apply (f_equal list_ascii_of_string) in E.
  assert (list_ascii_of_string (String c (b +:+ " (Version " +:+ dec n +:+ ")"))
          = (((c :: list_ascii_of_string b ++ [" "%char])
                ++ list_ascii_of_string "(Version")
               ++ " "%char :: list_ascii_of_string (dec n)) ++ [")"%char]) as HL.
  { cbn [list_ascii_of_string]. rewrite !list_ascii_app.
    do 4 (rewrite <- ?List.app_assoc; cbn [app list_ascii_of_string]). reflexivity. }
  assert (list_ascii_of_string (w +:+ "(Version " +:+ d +:+ ")")
          = ((list_ascii_of_string w ++ list_ascii_of_string "(Version")
               ++ " "%char :: list_ascii_of_string d) ++ [")"%char]) as HR.
  { rewrite !list_ascii_app.
    do 4 (rewrite <- ?List.app_assoc; cbn [app list_ascii_of_string]). reflexivity. }
  rewrite HL, HR in E. apply app_inj_tail in E as [E _].
  destruct (digit_tail _ _ _ _ _ _ E) as [Ea _]; [done | done | apply dec_digits | done |].
  apply app_inv_tail in Ea. symmetry in Ea.
  by apply (whiteSpace_not_after w c (list_ascii_of_string b)).
Qed.

Lemma replace_first_versioned b n :
  replace_first versionSuffix (b +:+ " (Version " +:+ dec n +:+ ")") = b.
Proof.
  induction b as [|c b IH].
  - rewrite append_nil_l.
    assert (∀ s, match_here versionSuffix s = Some "" →
                 replace_first versionSuffix s = "") as H.
    { intros s Hs. destruct s; cbn [replace_first]; by rewrite Hs. }
    apply H, versionSuffix_here.
  - rewrite append_cons. cbn [replace_first].
    by rewrite versionSuffix_not_before, IH.
Qed.

Lemma baseNameOf_trimmed s : trim (baseNameOf s) = baseNameOf s.
Proof. apply SpaceFacts.trim_idem. Qed.

Lemma baseNameOf_versionedName lib parent sub :
  baseNameOf (versionedName lib parent sub) = baseNameOf (trim sub).
Proof.
  unfold versionedName. destruct (existsb _ _); [|done].
  unfold baseNameOf at 1. rewrite replace_first_versioned. apply baseNameOf_trimmed.
Qed.

End NameFacts.

(** X16. Stripping the version suffix undoes appending one: for every
    name and every number, the base name of [name (Version n)] is the
    trimmed name, also when the name itself contains or ends with text
    that looks like part of a version suffix. *)
Theorem version_suffix_round_trip (name : string) (n : nat) :
  baseNameOf (name +:+ " (Version " +:+ Str.dec n +:+ ")") = Str.trim name.
Proof. unfold baseNameOf. by rewrite NameFacts.replace_first_versioned. Qed.

(** X17. Whatever name the save handler stores, with or without a
    version suffix of its own making, has the base name of the name that
    was asked for: the stored record belongs to the lineage that the
    next save of the same name under the same parent collects. *)
Theorem stored_name_stays_in_lineage (st : SaveState) (be : Backend)
    (sp : KeywordSubProject) (u : string) :
  InsertIntoKeywordLibrary sp u ∈ handleSaveSubProject st be →
  baseNameOf (sp_name sp) = baseNameOf (Str.trim (subProjectName st))
  ∧ List.filter
      (fun old => String.eqb (sp_parentProjectId old) (sp_parentProjectId sp)
                  && String.eqb (baseNameOf (sp_name old))
                                (baseNameOf (Str.trim (subProjectName st))))
      (keywordLibrary st ++ [sp])
    = List.filter
        (fun old => String.eqb (sp_parentProjectId old) (sp_parentProjectId sp)
                    && String.eqb (baseNameOf (sp_name old))
                                  (baseNameOf (Str.trim (subProjectName st))))
        (keywordLibrary st) ++ [sp].
Proof.
  intros [Hr _]%handleSaveSubProject_inserts.
  destruct Hr as (_ & _ & Hname & _).
  assert (baseNameOf (sp_name sp) = baseNameOf (Str.trim (subProjectName st))) as E.
  { rewrite Hname. apply NameFacts.baseNameOf_versionedName. }
  split; [done |].
  rewrite List.filter_app. cbn [List.filter].
  by rewrite E, !String.eqb_refl.
Qed.

Lemma stored_name_stays_in_lineage_witness :
  ∃ sp, baseNameOf (sp_name sp) = "Bedding Keywords"
        ∧ sp_name sp = "Bedding Keywords (Version 2)".
Proof.
  eexists. split.
  - refine (proj1 (stored_name_stays_in_lineage
                     (scenarioSave "Bedding Keywords" libraryAfter1) okBackend _ "user-1" _)).
    vm_compute. apply list_elem_of_here.
  - reflexivity.
Defined.

(** * Translation of the selected nodes *)

Lemma elem_of_nodesToTranslate (sel : SelectedKeywords) (l1 : RenderLevel1Node) k text :
  (k, text) ∈ nodesToTranslate sel l1 ↔
  checked sel k = true
  ∧ ((k = l1_id l1 ∧ text = l1_keyword l1)
     ∨ ∃ l2, l2 ∈ l1_children l1
             ∧ ((k = l2_id l2 ∧ text = l2_keyword l2)
                ∨ ∃ y, y ∈ l2_lsi l2 ∧ k = lsi_id y ∧ text = lsi_text y)).
Proof.
  unfold nodesToTranslate. rewrite elem_of_app, elem_of_concat. split.
  - intros [H|(l & (l2 & -> & Hl2)%list_elem_of_fmap & H)].
    + destruct (checked sel (l1_id l1)) eqn:E; [|by apply elem_of_nil in H].
      apply list_elem_of_singleton in H as [= -> ->]. split; [done | by left].
    + apply elem_of_app in H as [H|H].
      * destruct (checked sel (l2_id l2)) eqn:E; [|by apply elem_of_nil in H].
        apply list_elem_of_singleton in H as [= -> ->]. split; [done |].
        right. exists l2. split; [done | by left].
      * apply list_elem_of_fmap in H as (y & [= -> ->] & Hy).
        apply list_elem_of_In, filter_In in Hy as [Hy%list_elem_of_In Hc].
        split; [done |].
        right. exists l2. split; [done |]. right. by exists y.
  - intros [Hc [[-> ->]|(l2 & Hl2 & H)]].
    + left. rewrite Hc. by apply list_elem_of_singleton.
    + right. eexists. split; [apply list_elem_of_fmap; by exists l2 |].
      apply elem_of_app. destruct H as [[-> ->]|(y & Hy & -> & ->)].
      * left. rewrite Hc. by apply list_elem_of_singleton.
      * right. apply list_elem_of_fmap. exists y. split; [done |].
        apply list_elem_of_In, filter_In. by rewrite <- list_elem_of_In.
Qed.

Lemma nodesToTranslate_ids (sel : SelectedKeywords) (l1 : RenderLevel1Node) k :
  (∃ text, (k, text) ∈ nodesToTranslate sel l1) ↔ k ∈ l1_ids l1 ∧ checked sel k = true.
Proof.
  split.
  - intros [text [Hc H]%elem_of_nodesToTranslate]. split; [|done].
    apply elem_of_l1_ids.
    destruct H as [[-> _]|(l2 & [j Hj]%list_elem_of_lookup & H)]; [by left | right].
    exists j, l2. split; [done |]. apply elem_of_l2_ids.
    destruct H as [[-> _]|(y & [n Hn]%list_elem_of_lookup & -> & _)]; [by left | right].
    by exists n, y.
  - intros [H Hc]. apply elem_of_l1_ids in H as [->|(j & l2 & Hj & H)].
    + exists (l1_keyword l1). apply elem_of_nodesToTranslate. split; [done | by left].
    + apply list_elem_of_lookup_2 in Hj.
      apply elem_of_l2_ids in H as [->|(n & y & Hn%list_elem_of_lookup_2 & ->)].
      * exists (l2_keyword l2). apply elem_of_nodesToTranslate. split; [done |].
        right. exists l2. split; [done | by left].
      * exists (lsi_text y). apply elem_of_nodesToTranslate. split; [done |].
        right. exists l2. split; [done |]. right. by exists y.
Qed.

(** [new Set] of a list, in insertion order. *)

Lemma set_add_elem x y (s : list string) : y ∈ set_add x s ↔ y = x ∨ y ∈ s.
Proof.
  unfold set_add. case_bool_decide as H.
  - split; [by right | intros [->|?]; done].
  - rewrite elem_of_app, list_elem_of_singleton. tauto.
Qed.

Lemma set_add_NoDup x (s : list string) : NoDup s → NoDup (set_add x s).
Proof.
  unfold set_add. intros Hs. case_bool_decide as H; [done |].
  apply NoDup_app. split; [done |]. split; [|apply NoDup_singleton].
  intros y Hy ->%list_elem_of_singleton. done.
Qed.

Lemma uniqueTexts_spec (nodes : list (string * string)) :
  NoDup (uniqueTexts nodes) ∧ ∀ text, text ∈ uniqueTexts nodes ↔ ∃ k, (k, text) ∈ nodes.
Proof.
  unfold uniqueTexts.
  induction nodes as [|[k' text'] nodes [IH1 IH2]] using rev_ind.
  - split; [apply NoDup_nil_2 |]. intros text. split; [by intros ?%elem_of_nil |].
    by intros [k ?%elem_of_nil].
  - rewrite foldl_app. cbn [foldl snd]. split; [by apply set_add_NoDup |].
    intros text. rewrite set_add_elem, IH2. split.
    + intros [->|[k Hk]].
      * exists k'. apply elem_of_app. right. by apply list_elem_of_singleton.
      * exists k. apply elem_of_app. by left.
    + intros [k [Hk|[= -> ->]%list_elem_of_singleton]%elem_of_app]; [right | by left].
      by exists k.
Qed.

(** The map built from the answer. *)

Lemma newTranslations_snoc tm nodes k text :
  newTranslations tm (nodes ++ [(k, text)])
  = match propertyRead tm text with
    | Some v => if jsTruthy v then propertyWrite k v (newTranslations tm nodes)
                else newTranslations tm nodes
    | None => newTranslations tm nodes
    end.
Proof. unfold newTranslations. by rewrite foldl_app. Qed.

Lemma newTranslations_sound tm nodes k v :
  newTranslations tm nodes !! k = Some v →
  ∃ text, (k, text) ∈ nodes ∧ propertyRead tm text = Some v ∧ jsTruthy v = true.
Proof.
  induction nodes as [|[k' text'] nodes IH] using rev_ind.
  - unfold newTranslations. cbn. by rewrite lookup_empty.
  - rewrite newTranslations_snoc. intros H.
    assert (newTranslations tm nodes !! k = Some v →
            ∃ text, (k, text) ∈ nodes ++ [(k', text')] ∧ propertyRead tm text = Some v
                    ∧ jsTruthy v = true) as Hold.
    { intros (text & Hin & Htm)%IH. exists text. split; [|done].
      apply elem_of_app. by left. }
    destruct (propertyRead tm text') as [v'|] eqn:E; [|by apply Hold].
    destruct (jsTruthy v') eqn:Et; [|by apply Hold].
    unfold propertyWrite in H.
    destruct (String.eqb k' "__proto__"); [by apply Hold |].
    destruct (decide (k = k')) as [->|Hne].
    + rewrite lookup_insert_eq in H. injection H as ->. exists text'.
      split; [|done]. apply elem_of_app. right. by apply list_elem_of_singleton.
    + rewrite lookup_insert_ne in H by done. by apply Hold.
Qed.

Lemma newTranslations_complete tm nodes k text v :
  (k, text) ∈ nodes → (∀ text', (k, text') ∈ nodes → text' = text) →
  k ≠ "__proto__" →
  propertyRead tm text = Some v → jsTruthy v = true →
  newTranslations tm nodes !! k = Some v.
Proof.
  intros Hin Hfun Hk Htm Htr.
  induction nodes as [|[k' text'] nodes IH] using rev_ind; [by apply elem_of_nil in Hin |].
  rewrite newTranslations_snoc.
  destruct (decide (k' = k)) as [->|Hne].
  - assert (text' = text) as ->.
    { apply Hfun, elem_of_app. right. by apply list_elem_of_singleton. }
    rewrite Htm, Htr. unfold propertyWrite.
    destruct (String.eqb_spec k "__proto__") as [|_]; [done |].
    by rewrite lookup_insert_eq.
  - assert (newTranslations tm nodes !! k = Some v) as Hold.
    { apply IH.
      - apply elem_of_app in Hin as [?|[= ? ?]%list_elem_of_singleton]; [done | congruence].
      - intros text'' H''. apply Hfun, elem_of_app. by left. }
    destruct (propertyRead tm text') as [v'|]; [|done].
    destruct (jsTruthy v'); [|done]. unfold propertyWrite.
    destruct (String.eqb k' "__proto__"); [done |]. by rewrite lookup_insert_ne.
Qed.

Lemma find_level1_id (t : Tree) id l1 :
  List.find (fun n => String.eqb (l1_id n) id) t = Some l1 → l1 ∈ t ∧ l1_id l1 = id.
Proof.
  intros [Hin Heq]%List.find_some. split; [by apply list_elem_of_In | by apply String.eqb_eq].
Qed.

Section translate.
Context (t : Tree) (Hwa : wellAddressed t = true).

Lemma term_unique i l1 j l2 j' l2' y y' :
  t !! i = Some l1 → l1_children l1 !! j = Some l2 → l1_children l1 !! j' = Some l2' →
  y ∈ l2_lsi l2 → y' ∈ l2_lsi l2' → lsi_id y = lsi_id y' → l2 = l2' ∧ y = y'.
Proof.
  intros Hi Hj Hj' [k Hk]%list_elem_of_lookup [k' Hk']%list_elem_of_lookup E.
  assert (j = j') as <-.
  { destruct (decide (j = j')) as [|Hne]; [done |]. exfalso.
    eapply (other_level2 t Hwa i l1 j l2 j' l2' (lsi_id y)); try done.
    - rewrite (wa_lsi t Hwa _ _ _ _ _ _ Hi Hj Hk). apply under_idLsi.
    - rewrite E, (wa_lsi t Hwa _ _ _ _ _ _ Hi Hj' Hk'). apply under_idLsi. }
  assert (l2' = l2) as -> by congruence. split; [done |].
  rewrite (wa_lsi t Hwa _ _ _ _ _ _ Hi Hj Hk),
          (wa_lsi t Hwa _ _ _ _ _ _ Hi Hj Hk') in E.
  assert (k = k') as <-; [|congruence].
  eapply (under_idLsi_inj (l2_id l2) k k' (idLsi (l2_id l2) k)); [apply under_refl |].
  rewrite E. apply under_refl.
Qed.

Lemma term_ne_level2 i l1 j l2 j' l2' y :
  t !! i = Some l1 → l1_children l1 !! j = Some l2 → l1_children l1 !! j' = Some l2' →
  y ∈ l2_lsi l2' → lsi_id y ≠ l2_id l2.
Proof.
  intros Hi Hj Hj' Hy E.
  assert (lsi_id y ∈ (lsi_id <$> l2_lsi l2')) as Hin
    by (apply list_elem_of_fmap; by exists y).
  destruct (decide (j = j')) as [<-|Hne].
  - assert (l2' = l2) as -> by congruence.
    by apply (term_ne_parent t Hwa i l1 j l2 (lsi_id y)).
  - eapply (other_level2 t Hwa i l1 j l2 j' l2' (l2_id l2)); try done.
    + apply under_refl.
    + rewrite <- E. by eapply (terms_under t Hwa).
Qed.

(** In a well-addressed tree no identifier stands for two texts. *)
Lemma nodesToTranslate_functional sel i l1 k text text' :
  t !! i = Some l1 →
  (k, text) ∈ nodesToTranslate sel l1 → (k, text') ∈ nodesToTranslate sel l1 →
  text' = text.
Proof.
  intros Hi [_ H]%elem_of_nodesToTranslate [_ H']%elem_of_nodesToTranslate.
  assert (∀ l2, l2 ∈ l1_children l1 → l2_id l2 ≠ l1_id l1) as Hchild.
  { intros l2 Hl2. apply (child_ne_parent t Hwa i l1); [done |].
    apply list_elem_of_fmap. by exists l2. }
  assert (∀ l2 y, l2 ∈ l1_children l1 → y ∈ l2_lsi l2 → lsi_id y ≠ l1_id l1) as Hterm.
  { intros l2 y [j Hj]%list_elem_of_lookup Hy.
    apply (term_ne_grandparent t Hwa i l1 j l2); [done | done |].
    apply list_elem_of_fmap. by exists y. }
  destruct H as [[-> ->]|(l2 & Hl2 & [[-> ->]|(y & Hy & -> & ->)])],
           H' as [[E ->]|(l2' & Hl2' & [[E ->]|(y' & Hy' & E & ->)])];
    try done.
  - symmetry in E. by destruct (Hchild _ Hl2' E).
  - symmetry in E. by destruct (Hterm _ _ Hl2' Hy' E).
  - by destruct (Hchild _ Hl2 E).
  - assert (l1 ∈ t) as Hl1 by (by eapply list_elem_of_lookup_2).
    destruct (level2_unique t Hwa l1 l1 l2 l2' Hl1 Hl1 Hl2 Hl2' E) as [_ ->]. done.
  - apply list_elem_of_lookup in Hl2 as [j Hj].
    apply list_elem_of_lookup in Hl2' as [j' Hj'].
    symmetry in E. by destruct (term_ne_level2 i l1 j l2 j' l2' y' Hi Hj Hj' Hy' E).
  - by destruct (Hterm _ _ Hl2 Hy E).
  - apply list_elem_of_lookup in Hl2 as [j Hj].
    apply list_elem_of_lookup in Hl2' as [j' Hj'].
    by destruct (term_ne_level2 i l1 j' l2' j l2 y Hi Hj' Hj Hy E).
  - apply list_elem_of_lookup in Hl2 as [j Hj].
    apply list_elem_of_lookup in Hl2' as [j' Hj'].
    destruct (term_unique i l1 j l2 j' l2' y y' Hi Hj Hj' Hy Hy' E) as [_ ->]. done.
Qed.

Lemma find_level1_at i l1 :
  t !! i = Some l1 →
  List.find (fun n => String.eqb (l1_id n) (l1_id l1)) t = Some l1.
Proof.
  intros Hi.
  destruct (List.find _ t) as [l1'|] eqn:E.
  - apply find_level1_id in E as [Hin E]. f_equal.
    apply (level1_unique t Hwa); [done | by eapply list_elem_of_lookup_2 | done].
  - exfalso. pose proof (List.find_none _ _ E l1) as H. cbn beta in H.
    rewrite String.eqb_refl in H. discriminate H.
    apply list_elem_of_In. by eapply list_elem_of_lookup_2.
Qed.

End translate.

(** No identifier of a well-addressed tree is the name [__proto__]. *)
Lemma tree_id_not_proto (t : Tree) (k : string) :
  wellAddressed t = true → k ∈ tree_ids t → k ≠ "__proto__".
Proof.
  intros Hwa Hk ->.
  destruct (tree_ids_cases t _ Hk)
    as [(i & l1 & Hi & E)
       |[(i & l1 & j & l2 & Hi & Hj & E)
        |(i & l1 & j & l2 & n & y & Hi & Hj & Hn & E)]].
  - pose proof (split_level1 t Hwa i l1 Hi) as S. rewrite <- E in S. discriminate S.
  - pose proof (split_level2 t Hwa i l1 j l2 Hi Hj) as S. rewrite <- E in S.
    discriminate S.
  - pose proof (split_lsi t Hwa i l1 j l2 n y Hi Hj Hn) as S. rewrite <- E in S.
    discriminate S.
Qed.

(** X18. The translation handler changes no entry of [translations]
    except those of selected nodes of the subtree of the Level1 node it
    was called for; such an entry becomes what the read of the answer
    under a text of that node finds, and that is not empty: the
    answer's own entry for the text or, when the answer has none and
    the text is a name of [Object.prototype], the member inherited
    under it; the text was among the texts sent. *)
Theorem translate_changes_only_selected (generationModel : bool)
    (keywordMap : option Tree) (sel : SelectedKeywords)
    (translateBatch : list string → string + gmap string string)
    (level1NodeId : string) (prev : gmap string JsValue) (k : string) :
  nextTranslations
    (handleTranslateNode generationModel keywordMap sel translateBatch level1NodeId prev)
    !! k ≠ prev !! k →
  ∃ t l1 text texts tm v,
    keywordMap = Some t ∧ l1 ∈ t ∧ l1_id l1 = level1NodeId
    ∧ k ∈ l1_ids l1 ∧ checked sel k = true
    ∧ (k, text) ∈ nodesToTranslate sel l1
    ∧ askedTexts
        (handleTranslateNode generationModel keywordMap sel translateBatch
           level1NodeId prev) = Some texts
    ∧ text ∈ texts ∧ translateBatch texts = inr tm
    ∧ propertyRead tm text = Some v ∧ jsTruthy v = true
    ∧ (v = JsInherited text ↔ tm !! text = None)
    ∧ (∀ tr, v = JsString tr ↔ tm !! text = Some tr)
    ∧ nextTranslations
        (handleTranslateNode generationModel keywordMap sel translateBatch
           level1NodeId prev) !! k = Some v.
Proof.
  unfold handleTranslateNode.
  destruct generationModel; [|done]. destruct keywordMap as [t|]; [|done].
  destruct (List.find _ t) as [l1|] eqn:Efind; [|done].
  apply find_level1_id in Efind as [Hl1 Hid].
  destruct (length _ =? 0)%nat; [done |].
  destruct (translateBatch _) as [message|tm] eqn:Eanswer; [done |].
  cbn [nextTranslations askedTexts]. intros Hk.
  destruct (newTranslations tm (nodesToTranslate sel l1) !! k) as [v|] eqn:Enew.
  2:{ destruct Hk. by apply lookup_union_r. }
  destruct (newTranslations_sound _ _ _ _ Enew) as (text & Hin & Htm & Htr).
  exists t, l1, text, (uniqueTexts (nodesToTranslate sel l1)), tm, v.
  destruct (proj1 (nodesToTranslate_ids sel l1 k)) as [Hids Hc]; [by exists text |].
  assert ((v = JsInherited text ↔ tm !! text = None)
          ∧ ∀ tr, v = JsString tr ↔ tm !! text = Some tr) as [Hinh Hown].
  { unfold propertyRead in Htm. destruct (tm !! text) as [s|].
    - injection Htm as <-. split; [split; discriminate |].
      intros tr. split; congruence.
    - case_bool_decide; [|done]. injection Htm as <-. split; [done |].
      intros tr. split; discriminate. }
  repeat split; try done.
  - apply uniqueTexts_spec. by exists k.
  - by apply Hinh.
  - by apply Hinh.
  - by apply Hown.
  - by apply Hown.
  - by apply lookup_union_Some_l.
Qed.

Lemma translate_changes_only_selected_witness :
  ∃ v, nextTranslations
         (handleTranslateNode true (Some sampleTree) sampleSelected
            (fun _ => inr {[ "y" := "译" ]}) "l1-0" ∅) !! "l1-0-l2-0-lsi-1" = Some v.
Proof.
  destruct (translate_changes_only_selected true (Some sampleTree) sampleSelected
              (fun _ => inr {[ "y" := "译" ]}) "l1-0" ∅ "l1-0-l2-0-lsi-1")
    as (t & l1 & text & texts & tm & v & H).
  - vm_compute. discriminate.
  - exists v. apply H.
Defined.

(** X19. The texts sent to [translateBatch] are the texts of the
    selected nodes of the subtree, each once; when no node of the
    subtree is selected, or no model is locked, or the node is not in
    the tree, the service is not called and nothing changes. *)
Theorem translate_asks_each_text_once (generationModel : bool)
    (keywordMap : option Tree) (sel : SelectedKeywords)
    (translateBatch : list string → string + gmap string string)
    (level1NodeId : string) (prev : gmap string JsValue) :
  match askedTexts
          (handleTranslateNode generationModel keywordMap sel translateBatch
             level1NodeId prev) with
  | Some texts =>
      generationModel = true ∧ NoDup texts
      ∧ ∃ t l1, keywordMap = Some t ∧ l1 ∈ t ∧ l1_id l1 = level1NodeId
                ∧ (∃ k, k ∈ l1_ids l1 ∧ checked sel k = true)
                ∧ ∀ text, text ∈ texts ↔ ∃ k, (k, text) ∈ nodesToTranslate sel l1
  | None =>
      handleTranslateNode generationModel keywordMap sel translateBatch
        level1NodeId prev
      = {| nextTranslations := prev; errorSet := None; askedTexts := None |}
      ∧ ∀ t l1, generationModel = true → keywordMap = Some t →
                List.find (fun n => String.eqb (l1_id n) level1NodeId) t = Some l1 →
                ∀ k, k ∈ l1_ids l1 → checked sel k = false
  end.
Proof.
  unfold handleTranslateNode.
  destruct generationModel; [|cbn; split; [done | intros; discriminate]].
  destruct keywordMap as [t|]; [|cbn; split; [done | intros; discriminate]].
  destruct (List.find _ t) as [l1|] eqn:Efind.
  2:{ cbn. split; [done |]. intros t' l1' _ [= <-]. rewrite Efind. discriminate. }
  destruct (uniqueTexts_spec (nodesToTranslate sel l1)) as [Hnd Hin].
  destruct (length _ =? 0)%nat eqn:Elen.
  - cbn. split; [done |]. intros t' l1' _ [= <-]. rewrite Efind. intros [= <-] k Hk.
    destruct (checked sel k) eqn:Hc; [exfalso | done].
    destruct (proj2 (nodesToTranslate_ids sel l1 k)) as [text Htext]; [done |].
    assert (text ∈ uniqueTexts (nodesToTranslate sel l1)) as Hx
      by (apply Hin; by exists k).
    destruct (uniqueTexts _); [by apply elem_of_nil in Hx | done].
  - apply find_level1_id in Efind as [Hl1 Hid].
    assert (∃ k, k ∈ l1_ids l1 ∧ checked sel k = true) as Hsome.
    { destruct (uniqueTexts (nodesToTranslate sel l1)) as [|text texts] eqn:E; [done |].
      destruct (proj1 (Hin text)) as [k Hk]; [by left |].
      exists k. apply nodesToTranslate_ids. by exists text. }
    destruct (translateBatch _); cbn; (split; [done |]); (split; [done |]);
      by exists t, l1.
Qed.

(** X20. In a well-addressed tree, when [translateBatch] answers, every
    selected node of the subtree gets what the read of the answer under
    its text finds, if that is not empty: the answer's own entry for
    the text or, when the answer has none and the text is a name of
    [Object.prototype], the member inherited under it; every other
    selected node of the subtree keeps the entry it had. *)
Theorem translate_selected_nodes (t : Tree) (sel : SelectedKeywords)
    (translateBatch : list string → string + gmap string string)
    (prev : gmap string JsValue) (tm : gmap string string) (i : nat)
    (l1 : RenderLevel1Node) (k text : string) :
  wellAddressed t = true → t !! i = Some l1 →
  translateBatch (uniqueTexts (nodesToTranslate sel l1)) = inr tm →
  (k, text) ∈ nodesToTranslate sel l1 →
  nextTranslations
    (handleTranslateNode true (Some t) sel translateBatch (l1_id l1) prev) !! k
  = match tm !! text with
    | Some tr => if Str.truthy tr then Some (JsString tr) else prev !! k
    | None =>
        if bool_decide (text ∈ objectPrototypeNames)
        then Some (JsInherited text) else prev !! k
    end.
Proof.
  intros Hwa Hi Hanswer Hin. unfold handleTranslateNode.
  rewrite (find_level1_at t Hwa i l1 Hi).
  destruct (uniqueTexts_spec (nodesToTranslate sel l1)) as [_ Htexts].
  destruct (length _ =? 0)%nat eqn:Elen.
  { assert (text ∈ uniqueTexts (nodesToTranslate sel l1)) as Hx
      by (apply Htexts; by exists k).
    destruct (uniqueTexts _); [by apply elem_of_nil in Hx | done]. }
  rewrite Hanswer. cbn [nextTranslations].
  assert (∀ text', (k, text') ∈ nodesToTranslate sel l1 → text' = text) as Hfun.
  { intros text' H'. by apply (nodesToTranslate_functional t Hwa sel i l1 k). }
  assert (k ≠ "__proto__") as Hk.
  { apply (tree_id_not_proto t); [done |].
    apply elem_of_tree_ids. exists i, l1. split; [done |].
    apply (proj1 (nodesToTranslate_ids sel l1 k)). by exists text. }
  assert (∀ v, propertyRead tm text = Some v → jsTruthy v = true →
               (newTranslations tm (nodesToTranslate sel l1) ∪ prev) !! k = Some v)
    as Hset.
  { intros v Hv Ht. apply lookup_union_Some_l.
    by apply (newTranslations_complete tm _ k text). }
  assert ((propertyRead tm text = None
           ∨ ∃ v, propertyRead tm text = Some v ∧ jsTruthy v = false) →
          (newTranslations tm (nodesToTranslate sel l1) ∪ prev) !! k = prev !! k)
    as Hkeep.
  { intros Hno. apply lookup_union_r.
    destruct (newTranslations tm _ !! k) as [v'|] eqn:Enew; [exfalso | done].
    apply newTranslations_sound in Enew as (text' & H' & Htm' & Htr').
    rewrite (Hfun _ H') in Htm'.
    destruct Hno as [Hno|(v & Hv & Hf)]; congruence. }
  unfold propertyRead in Hset, Hkeep.
  destruct (tm !! text) as [tr|] eqn:Etm.
  - destruct (Str.truthy tr) eqn:Etr.
    + by apply Hset.
    + apply Hkeep. right. by exists (JsString tr).
  - case_bool_decide.
    + by apply Hset.
    + apply Hkeep. by left.
Qed.

Lemma translate_selected_nodes_witness :
  nextTranslations
    (handleTranslateNode true (Some sampleTree) sampleSelected
       (fun _ => inr {[ "y" := "译" ]}) "l1-0" ∅) !! "l1-0-l2-0-lsi-1"
  = Some (JsString "译").
Proof.
  refine (translate_selected_nodes sampleTree sampleSelected
            (fun _ => inr {[ "y" := "译" ]}) ∅ {[ "y" := "译" ]} 0 _
            "l1-0-l2-0-lsi-1" "y" eq_refl eq_refl eq_refl _).
  vm_compute. apply list_elem_of_here.
Defined.

Lemma translate_asks_each_text_once_witness : NoDup ["y"].
Proof.
  exact (proj1 (proj2 (translate_asks_each_text_once true (Some sampleTree)
                         sampleSelected (fun _ => inr ∅) "l1-0" ∅))).
Defined.

(** * Opening the save dialog, and the translate button *)

Module DialogFacts.
Import Str StrFacts.

Lemma default_name_truthy keyword type :
  truthy (trim (keyword +:+ " - " +:+ type)) = true.
Proof.
  apply (SpaceFacts.trim_truthy "-"%char); [vm_compute; reflexivity |].
  rewrite !SpaceFacts.occurs_app. cbn [occurs Ascii.eqb Bool.eqb orb andb].
  by rewrite !orb_true_r.
Qed.

(** Identifiers of Level1 nodes as string prefixes. *)

Lemma prefix_same_length_string p q x :
  String.prefix p x = true → String.prefix q x = true →
  String.length p = String.length q → p = q.
Proof.
  revert p q. induction x as [|c x IH]; intros [|a p] [|b q]; cbn; try done.
  destruct (ascii_dec a c) as [->|]; [|done].
  destruct (ascii_dec b c) as [->|]; [|done].
  intros Hp Hq [= Hlen]. f_equal. by apply IH.
Qed.

Lemma idL1_length i : i < 10 → String.length (idL1 i) = 4.
Proof.
  intros Hi. do 10 (destruct i as [|i]; [reflexivity |]). lia.
Qed.

Lemma idL1_inj i i' : idL1 i = idL1 i' → i = i'.
Proof.
  intros E. assert (split dash (idL1 i) = split dash (idL1 i')) as H by (by rewrite E).
  rewrite !path_idL1 in H. injection H as H. by apply dec_inj.
Qed.

Section short.
Context (t : Tree) (Hwa : wellAddressed t = true) (Hshort : length t ≤ 10).

Lemma key_startsWith i l1 x :
  t !! i = Some l1 → x ∈ tree_ids t →
  startsWith x (l1_id l1) = true ↔ x ∈ l1_ids l1.
Proof.
  intros Hi Hx. split; [|by apply (l1_ids_start t Hwa i)].
  apply elem_of_tree_ids in Hx as (i' & l1' & Hi' & Hx). intros Hs.
  pose proof (l1_ids_start t Hwa i' l1' x Hi' Hx) as Hs'.
  rewrite (wa_l1 t Hwa _ _ Hi) in Hs. rewrite (wa_l1 t Hwa _ _ Hi') in Hs'.
  assert (idL1 i = idL1 i') as E.
  { apply (prefix_same_length_string _ _ x Hs Hs').
    apply lookup_lt_Some in Hi, Hi'. rewrite !idL1_length; [done | lia | lia]. }
  apply idL1_inj in E as <-. congruence.
Qed.

Lemma some_key_selected (s : SelectedKeywords) i l1 :
  sparse s → (∀ k, checked s k = true → k ∈ tree_ids t) → t !! i = Some l1 →
  someKeyStartsWith s (l1_id l1) = existsb (checked s) (l1_ids l1).
Proof.
  intros Hsparse Hkeys Hi. unfold someKeyStartsWith.
  apply eq_true_iff_eq. rewrite !existsb_elem. split.
  - intros (k & ((k' & b) & -> & Hk%elem_of_map_to_list)%list_elem_of_fmap & Hs).
    cbn in Hs. pose proof (Hsparse _ _ Hk) as ->.
    assert (checked s k' = true) as Hc by (unfold checked; by rewrite Hk).
    exists k'. split; [|done]. apply (key_startsWith i l1); auto.
  - intros (k & Hk & Hc). exists k. split; [|by apply (l1_ids_start t Hwa i)].
    apply list_elem_of_fmap. exists (k, true). split; [done |].
    apply elem_of_map_to_list. unfold checked in Hc.
    by destruct (s !! k) as [[|]|].
Qed.

End short.

Lemma find_ext_elem {A} (f g : A → bool) (l : list A) :
  (∀ x, x ∈ l → f x = g x) → List.find f l = List.find g l.
Proof.
  induction l as [|a l IH]; [done |]. intros H. cbn.
  rewrite (H a) by (by left). destruct (g a); [done |].
  apply IH. intros x Hx. apply H. by right.
Qed.

End DialogFacts.

(** X21. When the save bar is shown for a selection reachable by toggles
    over a well-addressed tree and there is a project, the dialog opens
    with a form that can be saved as it is: the save button is enabled,
    the default name is [keyword - type] of a Level1 node of the tree,
    and saving hands a record under the first project to the
    persistence service. *)
Theorem default_form_saves (st : SaveState) (be : Backend) (t : Tree)
    (p : Project) (projects : list Project) :
  keywordMap st = Some t → wellAddressed t = true →
  reachable t (selectedKeywords st) → 0 < selectionCount (selectedKeywords st) →
  connected st = true → Str.truthy (proj_id p) = true → proj_id p ≠ "create_new" →
  let form := handleOpenSaveModal (keywordMap st) (selectedKeywords st) (p :: projects) in
  isSaveDisabled (withForm form st) = false
  ∧ (∃ l1, l1 ∈ t ∧ form_subProjectName form = l1_keyword l1 +:+ " - " +:+ l1_type l1)
  ∧ ∃ sp, InsertIntoKeywordLibrary sp (userId st)
            ∈ handleSaveSubProject (withForm form st) be
          ∧ sp_parentProjectId sp = proj_id p.
Proof.
  intros Ht Hwa Hr Hcount Hc Hp Hnew form.
  destruct (selectionCount_pos _ Hcount) as (k & b & Hk).
  destruct (reachable_consistent t Hwa _ Hr) as [_ Hs].
  pose proof (Hs _ _ Hk) as ->.
  assert (checked (selectedKeywords st) k = true) as Hck
    by (unfold checked; by rewrite Hk).
  pose proof (reachable_keys_in_tree t Hwa _ k Hr Hck) as Hin.
  apply elem_of_tree_ids in Hin as (i & l1 & Hi & Hin).
  assert (∃ l1', l1' ∈ t
            ∧ form_subProjectName form = l1_keyword l1' +:+ " - " +:+ l1_type l1')
    as (l1' & Hl1' & Hname).
  { unfold form, handleOpenSaveModal. rewrite Ht. cbn [from_option id form_subProjectName].
    destruct (List.find _ t) as [l1'|] eqn:Efind.
    - exists l1'. split; [|done]. apply List.find_some in Efind as [Hl _].
      by apply list_elem_of_In.
    - exfalso. pose proof (List.find_none _ _ Efind l1) as Hnone. cbn beta in Hnone.
      assert (someKeyStartsWith (selectedKeywords st) (l1_id l1) = true) as Hsome.
      { unfold someKeyStartsWith. apply existsb_elem. exists k. split.
        - apply list_elem_of_fmap. exists (k, true). split; [done |].
          by apply elem_of_map_to_list.
        - by apply (l1_ids_start t Hwa i). }
      rewrite Hnone in Hsome; [done |].
      apply list_elem_of_In. by eapply list_elem_of_lookup_2. }
  assert (Str.truthy (Str.trim (subProjectName (withForm form st))) = true) as Htrim.
  { cbn [withForm subProjectName]. rewrite Hname.
    apply DialogFacts.default_name_truthy. }
  assert (parentProjectId (withForm form st) = proj_id p) as Hparent by reflexivity.
  split; [|split; [by exists l1' |]].
  - unfold isSaveDisabled. rewrite Htrim, Hparent. cbn [negb].
    destruct (String.eqb_spec (proj_id p) "create_new") as [|_]; [done |].
    by rewrite Hp.
  - destruct (saveUnderParent_valid (withForm form st) be (proj_id p) [])
      as [sp Hsp]; [done | done | |].
    { cbn [withForm keywordMap selectedKeywords]. rewrite Ht.
      by apply reachable_selection_kept. }
    assert (handleSaveSubProject (withForm form st) be
            = saveUnderParent (withForm form st) be (proj_id p) []) as Hrun.
    { unfold handleSaveSubProject.
      change (connected (withForm form st)) with (connected st).
      rewrite Hc, !Hparent. cbn [negb].
      by destruct (String.eqb_spec (proj_id p) "create_new") as [|_]. }
    exists sp. split.
    + rewrite Hrun, Hsp. cbn [app]. apply list_elem_of_here.
    + assert (InsertIntoKeywordLibrary sp (userId st)
                ∈ handleSaveSubProject (withForm form st) be) as Hins.
      { rewrite Hrun, Hsp. cbn [app]. apply list_elem_of_here. }
      apply handleSaveSubProject_inserts in Hins as [_ [E|E]]; [|by rewrite E].
      rewrite Hparent in E. done.
Qed.

Lemma default_form_saves_witness :
  isSaveDisabled
    (withForm
       (handleOpenSaveModal (keywordMap dialogScenario)
          (selectedKeywords dialogScenario) [firstProject])
       dialogScenario) = false.
Proof.
  refine (proj1 (default_form_saves dialogScenario okBackend sampleTree
                   firstProject [] eq_refl eq_refl _ _ eq_refl eq_refl _)).
  - apply (reachable_toggle sampleTree 3 "l1-0-l2-0-lsi-1" true ∅ sampleSelected).
    + apply reachable_init.
    + vm_compute. repeat constructor.
    + vm_compute. reflexivity.
  - vm_compute. lia.
  - discriminate.
Defined.

(** X22. For a tree of at most ten Level1 nodes and a selection
    reachable by toggles, the translate button of a rendered Level1 node
    is enabled exactly when that node is not being translated and the
    node of the tree with its identifier, or one of the descendants of
    that node, is selected (with more nodes the identifier [l1-1] is
    also the start of [l1-10], and the button follows the string
    prefix). *)
Theorem translate_button_enabled (t : Tree) (s : SelectedKeywords)
    (i : nat) (l1 shown : RenderLevel1Node) (isTranslating : bool) :
  wellAddressed t = true → length t ≤ 10 → reachable t s → t !! i = Some l1 →
  l1_id shown = l1_id l1 →
  translateDisabled isTranslating s shown
  = isTranslating || negb (existsb (checked s) (l1_ids l1)).
Proof.
  intros Hwa Hshort Hr Hi Hid. unfold translateDisabled, isAnyChildSelected.
  rewrite Hid. f_equal. f_equal.
  apply eq_true_iff_eq. rewrite !existsb_elem. split.
  - intros (k & _ & [Hs Hc]%andb_true_iff). exists k. split; [|done].
    apply (DialogFacts.key_startsWith t Hwa Hshort i l1); [done | | done].
    by apply (reachable_keys_in_tree t Hwa s).
  - intros (k & Hk & Hc). exists k. split.
    + apply list_elem_of_fmap. exists (k, true). split; [done |].
      apply elem_of_map_to_list. unfold checked in Hc.
      by destruct (s !! k) as [[|]|].
    + rewrite Hc, andb_true_r. by apply (l1_ids_start t Hwa i).
Qed.

Lemma translate_button_enabled_witness :
  translateDisabled false sampleSelected
    {| l1_id := "l1-1"; l1_keyword := "B"; l1_type := "对比型";
       l1_pageType := "Hub/Category Pages"; l1_children := [] |}
  = true.
Proof.
  refine (translate_button_enabled sampleTree sampleSelected 1 _
            {| l1_id := "l1-1"; l1_keyword := "B"; l1_type := "对比型";
               l1_pageType := "Hub/Category Pages"; l1_children := [] |}
            false eq_refl _ _ eq_refl eq_refl).
  - vm_compute. lia.
  - apply (reachable_toggle sampleTree 3 "l1-0-l2-0-lsi-1" true ∅ sampleSelected).
    + apply reachable_init.
    + vm_compute. repeat constructor.
    + vm_compute. reflexivity.
Defined.

(** X23. For a tree of at most ten Level1 nodes and a selection reachable
    by toggles, the default sub-project name of the dialog is
    [keyword - type] of the first Level1 node, in the order of the tree,
    that is selected or has a selected descendant, and it is empty when
    there is none. *)
Theorem default_name_first_selected (t : Tree) (s : SelectedKeywords)
    (projects : list Project) :
  wellAddressed t = true → length t ≤ 10 → reachable t s →
  form_subProjectName (handleOpenSaveModal (Some t) s projects)
  = match List.find (fun l1 => existsb (checked s) (l1_ids l1)) t with
    | Some l1 => l1_keyword l1 +:+ " - " +:+ l1_type l1
    | None => ""
    end.
Proof.
  intros Hwa Hshort Hr. unfold handleOpenSaveModal. cbn [from_option id form_subProjectName].
  rewrite (DialogFacts.find_ext_elem _ (fun l1 => existsb (checked s) (l1_ids l1))); [done |].
  intros l1 [i Hi]%list_elem_of_lookup.
  apply (DialogFacts.some_key_selected t Hwa Hshort s i l1); [| | done].
  - by destruct (reachable_consistent t Hwa _ Hr).
  - intros k. by apply (reachable_keys_in_tree t Hwa).
Qed.

Lemma default_name_first_selected_witness :
  form_subProjectName (handleOpenSaveModal (Some sampleTree) sampleSelected [])
  = "A - 引流型".
Proof.
  refine (default_name_first_selected sampleTree sampleSelected [] eq_refl _ _).
  - vm_compute. lia.
  - apply (reachable_toggle sampleTree 3 "l1-0-l2-0-lsi-1" true ∅ sampleSelected).
    + apply reachable_init.
    + vm_compute. repeat constructor.
    + vm_compute. reflexivity.
Defined.

(** * Expansion of the Level1 nodes *)

Lemma allExpanded_lookup (nodes : Tree) x :
  checked (allExpanded nodes) x = bool_decide (x ∈ l1_id <$> nodes).
Proof.
  unfold allExpanded.
  induction nodes as [|n nodes IH] using rev_ind.
  - cbn. rewrite checked_empty. symmetry. apply bool_decide_eq_false_2.
    by intros ?%elem_of_nil.
  - rewrite foldl_app, fmap_app. cbn [foldl fmap list_fmap].
    destruct (decide (x = l1_id n)) as [->|Hne].
    + rewrite checked_insert, bool_decide_eq_true_2 by done.
      symmetry. apply bool_decide_eq_true_2.
      apply elem_of_app. right. by apply list_elem_of_singleton.
    + rewrite checked_insert, bool_decide_eq_false_2 by done. rewrite IH.
      apply bool_decide_ext. rewrite elem_of_app, list_elem_of_singleton. tauto.
Qed.

(** X24. "Expand all" follows the view: of a well-addressed tree it
    expands every Level1 node when no criterion is set, and otherwise
    exactly the nodes that match the criteria; the nodes the filter
    hides are left collapsed, whatever they were before. *)
Theorem expand_all_follows_view (t : Tree) (f : FilterState) (prev : Expanded)
    (l1 : RenderLevel1Node) :
  wellAddressed t = true → l1 ∈ t →
  isExpanded (handleExpandAll (filteredKeywordMap (Some t) f) prev) (l1_id l1)
  = negb (filtering f)
    || (categoryMatches f l1 && pageTypeMatches f l1
        && existsb (stageMatches f) (l1_children l1)).
Proof.
  intros Hwa Hl1.
  destruct (filtering f) eqn:Hf; cbn [negb orb].
  - destruct (filteredKeywordMap (Some t) f) as [m'|] eqn:Hm';
      [|by rewrite filteredKeywordMap_filtering in Hm'].
    cbn [handleExpandAll isExpanded]. rewrite allExpanded_lookup.
    apply eq_true_iff_eq. rewrite bool_decide_eq_true, !andb_true_iff, stage_children.
    split.
    + intros (l1' & E & Hl1')%list_elem_of_fmap.
      apply (view_elem t f m' l1' Hf Hm') in Hl1' as (l0 & Hl0 & -> & Hc & Hp & Hn).
      cbn in E. by rewrite (level1_unique t Hwa l1 l0 Hl1 Hl0 E).
    + intros [[Hc Hp] Hn]. apply list_elem_of_fmap.
      exists {| l1_id := l1_id l1; l1_keyword := l1_keyword l1;
                l1_type := l1_type l1; l1_pageType := l1_pageType l1;
                l1_children := List.filter (stageMatches f) (l1_children l1) |}.
      split; [done |]. apply (view_elem t f m' _ Hf Hm'). by exists l1.
  - unfold filtering in Hf. apply orb_false_iff in Hf as [Hf H3].
    apply orb_false_iff in Hf as [H1 H2].
    unfold filteredKeywordMap. rewrite H1, H2, H3. cbn [negb andb].
    cbn [handleExpandAll isExpanded]. rewrite allExpanded_lookup.
    apply bool_decide_eq_true_2, list_elem_of_fmap. by exists l1.
Qed.

Lemma expand_all_follows_view_witness :
  isExpanded
    (handleExpandAll
       (filteredKeywordMap (Some sampleTree)
          {| category := "对比型"; pageType := ""; userBehavior := "" |})
       None)
    "l1-0"
  = false.
Proof.
  refine (expand_all_follows_view sampleTree
            {| category := "对比型"; pageType := ""; userBehavior := "" |} None
            {| l1_id := "l1-0"; l1_keyword := "A"; l1_type := "引流型";
               l1_pageType := "文章类"; l1_children := _ |} eq_refl _).
  vm_compute. apply list_elem_of_here.
Defined.

(** X25. After a successful generation every Level1 node of the new
    tree is shown expanded, and a click on the header of one of them
    collapses that node and leaves every other node of the tree as it
    was shown. *)
Theorem generated_tree_expanded (model : string) (result : KeywordMap)
    (st : PageState) (t : Tree) (i i' : nat) (l1 l1' : RenderLevel1Node) :
  page_keywordMap (handleGenerateMap (Some model) (inr result) st) = Some t →
  t !! i = Some l1 → t !! i' = Some l1' →
  let expanded := page_expandedL1Nodes (handleGenerateMap (Some model) (inr result) st) in
  isExpanded expanded (l1_id l1) = true
  ∧ isExpanded (handleToggleExpand (l1_id l1) expanded) (l1_id l1')
    = negb (bool_decide (i' = i)).
Proof.
  cbn [handleGenerateMap page_keywordMap page_expandedL1Nodes]. intros [= <-] Hi Hi'.
  pose proof (transform_wellAddressed result) as Hwa.
  assert (∀ n, n ∈ transformToRenderableMap result →
               checked (allExpanded (transformToRenderableMap result)) (l1_id n) = true)
    as Hall.
  { intros n Hn. rewrite allExpanded_lookup.
    apply bool_decide_eq_true_2, list_elem_of_fmap. by exists n. }
  pose proof (list_elem_of_lookup_2 _ _ _ Hi) as Hl1.
  pose proof (list_elem_of_lookup_2 _ _ _ Hi') as Hl1'.
  cbn zeta. cbn [isExpanded handleToggleExpand]. split; [by apply Hall |].
  rewrite checked_insert, (Hall l1 Hl1).
  case_bool_decide as Eid; case_bool_decide as E; cbn [negb]; try done.
  - destruct E. by apply (level1_position _ Hwa i l1 i' l1').
  - subst i'. destruct Eid. congruence.
  - by apply Hall.
Qed.

Lemma generated_tree_expanded_witness :
  isExpanded
    (handleToggleExpand "l1-0"
       (page_expandedL1Nodes
          (handleGenerateMap (Some "Gemini") (inr sampleMap)
             {| page_keywordMap := None; page_selectedKeywords := ∅;
                page_translations := ∅; page_expandedL1Nodes := None;
                page_generationModel := None; page_error := None |})))
    "l1-1"
  = true.
Proof.
  exact (proj2 (generated_tree_expanded "Gemini" sampleMap
                  {| page_keywordMap := None; page_selectedKeywords := ∅;
                     page_translations := ∅; page_expandedL1Nodes := None;
                     page_generationModel := None; page_error := None |}
                  sampleTree 0 1 _ _ eq_refl eq_refl eq_refl)).
Defined.

(** * Node lookup, and toggles below the top level *)

Lemma find_in_lsi_some id l n :
  find_in_lsi id l = Some n → ∃ y, n = NodeLsi y ∧ y ∈ l ∧ lsi_id y = id.
Proof.
  unfold find_in_lsi. destruct (List.find _ l) as [y|] eqn:E; [|done].
  intros [= <-]. apply List.find_some in E as [Hin Heq].
  exists y. split; [done |]. split; [by apply list_elem_of_In | by apply String.eqb_eq].
Qed.

Lemma find_in_children_some id cs n :
  find_in_children id cs = Some n → node_id n = id ∧ id ∈ concat (l2_ids <$> cs).
Proof.
  induction cs as [|c cs IH]; [done |]. cbn [find_in_children].
  rewrite fmap_cons, concat_cons, elem_of_app.
  destruct (String.eqb_spec (l2_id c) id) as [E|_].
  - intros [= <-]. split; [done |]. left. apply elem_of_l2_ids. by left.
  - destruct (find_in_lsi id (l2_lsi c)) as [n'|] eqn:E.
    + intros [= <-]. apply find_in_lsi_some in E as (y & -> & [k Hk]%list_elem_of_lookup & E).
      split; [done |]. left. apply elem_of_l2_ids. right. by exists k, y.
    + intros [Hn Hin]%IH. split; [done | by right].
Qed.

Lemma find_in_tree_some id (t : Tree) n :
  find_in_tree id t = Some n → node_id n = id ∧ id ∈ tree_ids t.
Proof.
  unfold tree_ids. induction t as [|a t IH]; [done |]. cbn [find_in_tree].
  rewrite fmap_cons, concat_cons, elem_of_app.
  destruct (String.eqb_spec (l1_id a) id) as [E|_].
  - intros [= <-]. split; [done |]. left. apply elem_of_l1_ids. by left.
  - destruct (find_in_children id (l1_children a)) as [n'|] eqn:E.
    + intros [= <-]. apply find_in_children_some in E as [E Hin].
      split; [done |]. left. unfold l1_ids. by right.
    + intros [Hn Hin]%IH. split; [done | by right].
Qed.

(** X26. In a well-addressed tree [findNodeById] finds exactly the
    identifiers of the tree, each with the node that carries it, and
    [getChildren] and [getParentId] are inverse to each other on what it
    finds: every child of a found node names that node as its parent
    and is found under its own identifier. *)
Theorem lookup_round_trip (t : Tree) (id : string) :
  wellAddressed t = true →
  (is_Some (findNodeById (Some t) id) ↔ id ∈ tree_ids t)
  ∧ ∀ node, findNodeById (Some t) id = Some node →
      node_id node = id
      ∧ ∀ c, c ∈ getChildren node →
          getParentId (node_id c) = Some id
          ∧ findNodeById (Some t) (node_id c) = Some c.
Proof.
  intros Hwa. cbn [findNodeById].
  assert (id ∈ tree_ids t →
          ∃ node, find_in_tree id t = Some node
                  ∧ ∀ c, c ∈ getChildren node →
                      getParentId (node_id c) = Some id
                      ∧ find_in_tree (node_id c) t = Some c) as Hfound.
  { intros Hid.
    destruct (tree_ids_cases t id Hid)
      as [(i & l1 & Hi & ->)
         |[(i & l1 & j & l2 & Hi & Hj & ->)
          |(i & l1 & j & l2 & k & y & Hi & Hj & Hk & ->)]].
    - exists (NodeL1 l1). split; [by apply (find_level1 t Hwa i) |].
      intros c (l2 & -> & [j Hj]%list_elem_of_lookup)%list_elem_of_fmap.
      cbn [node_id]. split.
      + by apply (parent_level2 t Hwa i l1 j).
      + by apply (find_level2 t Hwa i l1 j).
    - exists (NodeL2 l2). split; [by apply (find_level2 t Hwa i l1 j) |].
      intros c (y & -> & [k Hk]%list_elem_of_lookup)%list_elem_of_fmap.
      cbn [node_id]. split.
      + by apply (parent_lsi t Hwa i l1 j l2 k).
      + by apply (find_lsi t Hwa i l1 j l2 k).
    - exists (NodeLsi y). split; [by apply (find_lsi t Hwa i l1 j l2 k) |].
      by intros c ?%elem_of_nil. }
  split.
  - split.
    + intros [node Hnode]. by apply find_in_tree_some in Hnode as [_ Hin].
    + intros (node & Hnode & _)%Hfound. by exists node.
  - intros node Hnode. pose proof (find_in_tree_some _ _ _ Hnode) as [Hid Hin].
    split; [done |].
    destruct (Hfound Hin) as (node' & Hnode' & Hchildren).
    assert (node' = node) as -> by congruence. done.
Qed.

Lemma lookup_round_trip_witness :
  is_Some (findNodeById (Some sampleTree) "l1-0-l2-0") ↔ "l1-0-l2-0" ∈ tree_ids sampleTree.
Proof.
  exact (proj1 (lookup_round_trip sampleTree "l1-0-l2-0" eq_refl)).
Defined.

(** X27. A toggle of a Level2 node of a well-addressed tree, from any
    selection: the node and its terms take the new value, the Level1
    parent is selected afterwards exactly when all its Level2 children
    are, and every other entry reads as it did before, the sibling
    Level2 nodes and their terms included. *)
Theorem toggle_level2_cascades (t : Tree) (i j : nat) (l1 : RenderLevel1Node)
    (l2 : RenderLevel2Node) (v : bool) (prev : SelectedKeywords) (fuel : nat) :
  wellAddressed t = true → t !! i = Some l1 → l1_children l1 !! j = Some l2 →
  2 ≤ fuel →
  ∃ next, handleSelectionChange fuel (Some t) (l2_id l2) v prev = Some next
    ∧ (∀ x, x ∈ l2_ids l2 → checked next x = v)
    ∧ checked next (l1_id l1)
      = forallb (fun c => checked next (l2_id c)) (l1_children l1)
    ∧ ∀ x, x ∉ l2_ids l2 → x ≠ l1_id l1 → checked next x = checked prev x.
Proof.
  intros Hwa Hi Hj Hf. eexists. split; [by apply (toggle_level2 t Hwa fuel i l1 j) |].
  assert (∀ x, x ∈ l2_ids l2 → x ≠ l1_id l1) as Hne.
  { intros x Hx. apply (under_level2_ne_level1 t Hwa i l1 j l2); [done | done |].
    by apply (under_l2_ids t Hwa i l1 j). }
  split; [|split].
  - intros x Hx. rewrite checked_onlyTrue, checked_recompute_ne by (by apply Hne).
    by apply checked_setAll_in.
  - rewrite checked_onlyTrue, checked_recompute_eq, forallb_fmap.
    apply forallb_ext_in. intros c Hc. cbn [compose].
    rewrite checked_onlyTrue, checked_recompute_ne; [done |].
    apply (child_ne_parent t Hwa i l1); [done |]. apply list_elem_of_fmap. by exists c.
  - intros x Hx Hx1. rewrite checked_onlyTrue, checked_recompute_ne by done.
    by apply checked_setAll_notin.
Qed.

Lemma toggle_level2_cascades_witness :
  ∃ next, handleSelectionChange 2 (Some sampleTree) "l1-0-l2-0" true ∅ = Some next
          ∧ ∀ x, x ∈ ["l1-0-l2-0"; "l1-0-l2-0-lsi-0"; "l1-0-l2-0-lsi-1"; "l1-0-l2-0-lsi-2"] →
                 checked next x = true.
Proof.
  destruct (toggle_level2_cascades sampleTree 0 0 _ _ true ∅ 2
              eq_refl eq_refl eq_refl (le_n 2))
    as (next & Hnext & Hterms & _).
  exists next. split; [exact Hnext | exact Hterms].
Defined.

(** X28. A toggle of a term of a well-addressed tree, from any
    selection: the term takes the new value, its Level2 parent is
    selected afterwards exactly when all its terms are, the Level1
    node above exactly when all its Level2 children are, and every
    other entry reads as it did before. *)
Theorem toggle_term_cascades (t : Tree) (i j k : nat) (l1 : RenderLevel1Node)
    (l2 : RenderLevel2Node) (y : RenderLsiNode) (v : bool)
    (prev : SelectedKeywords) (fuel : nat) :
  wellAddressed t = true → t !! i = Some l1 → l1_children l1 !! j = Some l2 →
  l2_lsi l2 !! k = Some y → 3 ≤ fuel →
  ∃ next, handleSelectionChange fuel (Some t) (lsi_id y) v prev = Some next
    ∧ checked next (lsi_id y) = v
    ∧ checked next (l2_id l2) = forallb (fun e => checked next (lsi_id e)) (l2_lsi l2)
    ∧ checked next (l1_id l1)
      = forallb (fun c => checked next (l2_id c)) (l1_children l1)
    ∧ ∀ x, x ≠ lsi_id y → x ≠ l2_id l2 → x ≠ l1_id l1 →
           checked next x = checked prev x.
Proof.
  intros Hwa Hi Hj Hk Hf. eexists.
  split; [by apply (toggle_lsi t Hwa fuel i l1 j l2 k) |].
  assert (∀ e, e ∈ l2_lsi l2 → lsi_id e ≠ l2_id l2 ∧ lsi_id e ≠ l1_id l1) as Hterm.
  { intros e He.
    assert (lsi_id e ∈ (lsi_id <$> l2_lsi l2)) as Hin
      by (apply list_elem_of_fmap; by exists e).
    split.
    - by apply (term_ne_parent t Hwa i l1 j l2).
    - by apply (term_ne_grandparent t Hwa i l1 j l2). }
  assert (∀ c, c ∈ l1_children l1 → l2_id c ≠ l1_id l1) as Hchild.
  { intros c Hc. apply (child_ne_parent t Hwa i l1); [done |].
    apply list_elem_of_fmap. by exists c. }
  pose proof (list_elem_of_lookup_2 _ _ _ Hk) as Hy.
  pose proof (list_elem_of_lookup_2 _ _ _ Hj) as Hl2.
  destruct (Hterm y Hy) as [Hy2 Hy1].
  split; [|split; [|split]].
  - rewrite checked_onlyTrue, !checked_recompute_ne by done.
    by rewrite checked_insert, bool_decide_eq_true_2.
  - rewrite checked_onlyTrue, (checked_recompute_ne (l1_id l1)) by (by apply Hchild).
    rewrite checked_recompute_eq, forallb_fmap.
    apply forallb_ext_in. intros e He. cbn [compose]. destruct (Hterm e He) as [H2 H1].
    by rewrite checked_onlyTrue, (checked_recompute_ne (l1_id l1)),
      (checked_recompute_ne (l2_id l2)).
  - rewrite checked_onlyTrue, checked_recompute_eq, forallb_fmap.
    apply forallb_ext_in. intros c Hc. cbn [compose].
    by rewrite checked_onlyTrue, (checked_recompute_ne (l1_id l1)) by (by apply Hchild).
  - intros x Hx Hx2 Hx1.
    rewrite checked_onlyTrue, !checked_recompute_ne by done.
    by rewrite checked_insert, bool_decide_eq_false_2.
Qed.

Lemma toggle_term_cascades_witness :
  ∃ next, handleSelectionChange 3 (Some sampleTree) "l1-1-l2-0-lsi-0" true ∅ = Some next
          ∧ checked next "l1-1-l2-0-lsi-0" = true.
Proof.
  destruct (toggle_term_cascades sampleTree 1 0 0 _ _ _ true ∅ 3
              eq_refl eq_refl eq_refl eq_refl (le_n 3))
    as (next & Hnext & Hterm & _).
  exists next. split; [exact Hnext | exact Hterm].
Defined.

(** * A merge under a selection *)

Lemma filter_none {A} (f : A → bool) (l : list A) :
  (∀ x, x ∈ l → f x = false) → List.filter f l = [].
Proof.
  induction l as [|a l IH]; [done |]. intros H. cbn.
  rewrite (H a) by (by left). apply IH. intros x Hx. apply H. by right.
Qed.

(** X29. The selection is not touched by an augmentation merge, but the
    checkbox is: once a merge has appended a term to a Level2 node of a
    well-addressed tree, the node is shown unchecked, whether it is in
    the selection or not, and it is shown indeterminate exactly when
    one of the terms it had before is selected. *)
Theorem merge_unchecks_node (t : Tree) (s : SelectedKeywords) (i j : nat)
    (l1 : RenderLevel1Node) (n n' : RenderLevel2Node) (newLsis : list string) :
  wellAddressed t = true → reachable t s →
  t !! i = Some l1 → l1_children l1 !! j = Some n →
  survivors n newLsis ≠ [] →
  level2At (handleGenerateLsi (Some t) true l1 (l2_id n) newLsis (Some t)) i j
    = Some n' →
  l2_id n' = l2_id n
  ∧ isChecked (level2Checkbox s n') = false
  ∧ isIndeterminate (level2Checkbox s n')
    = existsb (fun y => checked s (lsi_id y)) (l2_lsi n).
Proof.
  intros Hwa Hr Hi Hj Hnew Hn'.
  unfold handleGenerateLsi in Hn'. destruct (find_child_some _ _ _ Hj) as [c Hc].
  rewrite Hc, (mergeIntoMap_at t i l1 j n newLsis Hi Hj) in Hn'.
  injection Hn' as <-. split; [done |].
  unfold level2Checkbox. rewrite mergeLsi_terms, fmap_app.
  set (old := lsi_id <$> _).
  set (new := lsi_id <$> imap _ _).
  assert (old = lsi_id <$> l2_lsi n) as Hold.
  { unfold old. rewrite <- list_fmap_compose. by apply list_fmap_ext. }
  assert (length new = length (survivors n newLsis)) as Hlen
    by (unfold new; by rewrite length_fmap, length_imap).
  assert (0 < length new) as Hpos.
  { rewrite Hlen. destruct (survivors n newLsis); [done | cbn; lia]. }
  assert (List.filter (checked s) new = []) as Hnone.
  { apply filter_none. intros x (y & -> & [k Hk]%list_elem_of_lookup)%list_elem_of_fmap.
    apply list_lookup_imap_Some in Hk as (c' & _ & ->).
    cbn [lsi_id]. destruct (checked s _) eqn:E; [exfalso | done].
    apply (appended_id_fresh t Hwa i l1 j n k Hi Hj).
    by apply (reachable_keys_in_tree t Hwa s). }
  rewrite length_app, List.filter_app, Hnone, List.app_nil_r.
  pose proof (filter_length_le (checked s) old) as Hle.
  assert ((length old + length new =? 0)%nat = false) as -> by (apply Nat.eqb_neq; lia).
  cbn [isChecked isIndeterminate]. split; [apply Nat.eqb_neq; lia |].
  assert ((length (List.filter (checked s) old) <? length old + length new)%nat = true)
    as -> by (apply Nat.ltb_lt; lia).
  rewrite andb_true_r, filter_pos_existsb, Hold.
  clear. induction (l2_lsi n) as [|y ys IH]; [done |]. cbn. by rewrite IH.
Qed.

Lemma merge_unchecks_node_witness :
  ∃ n', level2At (handleGenerateLsi (Some sampleTree) true
                    {| l1_id := "l1-1"; l1_keyword := "B"; l1_type := "对比型";
                       l1_pageType := "Hub/Category Pages";
                       l1_children :=
                         [ {| l2_id := "l1-1-l2-0"; l2_keyword := "B1";
                              l2_type := "决策型 (Decision)";
                              l2_lsi := [ {| lsi_id := "l1-1-l2-0-lsi-0"; lsi_text := "u";
                                             lsi_isNew := None |} ] |} ] |}
                    "l1-1-l2-0" ["w"] (Some sampleTree)) 1 0 = Some n'
        ∧ isChecked (level2Checkbox sampleSelected n') = false.
Proof.
  eexists. split; [reflexivity |].
  refine (proj1 (proj2 (merge_unchecks_node sampleTree sampleSelected 1 0 _ _ _ ["w"]
                          eq_refl _ eq_refl eq_refl _ eq_refl))).
  - apply (reachable_toggle sampleTree 3 "l1-0-l2-0-lsi-1" true ∅ sampleSelected).
    + apply reachable_init.
    + vm_compute. repeat constructor.
    + vm_compute. reflexivity.
  - vm_compute. discriminate.
Defined.
